(** * asl_ml5: the gesture classification engine of [sketch.js]

    A shallow embedding of the classification core of the p5.js sketch
    (feature normalisation, distance-weighted kNN with confidence/margin
    gating, majority-vote smoothing, and the example store with
    add / undo / clear / import), of its persistence and of its key
    handlers, followed by the properties the written specification states
    about it and by further properties of the code.

    JavaScript numbers are IEEE-754 binary64 values, so they are modelled by
    Rocq's primitive [float]; objects used as dictionaries are finite maps or
    insertion-ordered association lists, depending on whether the code
    iterates over their keys.  The module-level variables of the sketch form
    one [state] record that every handler takes and returns; an exception
    that escapes a handler is an [Uncaught] outcome.

    Not modelled: [preload], [setup] and the text drawn by [drawUI];
    [localStorage.setItem] is taken never to throw.  Strings are byte
    strings, which agrees with JavaScript on the ASCII texts the sketch
    compares against. *)

From Stdlib Require Import Floats ZArith List String Ascii Bool Lia DecimalString.
From Stdlib Require Import Sorted Permutation Zpower.
From stdpp Require Import gmap strings list.
Import ListNotations.

Set Warnings "-inexact-float,-register-all".
Local Open Scope string_scope.

(** ** JavaScript values *)

(** The values that flow through the store: everything [JSON.parse] can
    produce, plus [undefined] (the result of reading a missing property). *)
Inductive jsval : Type :=
| JUndefined
| JNull
| JBool (b : bool)
| JNum (x : float)
| JStr (s : string)
| JArr (items : list jsval)
| JObj (props : list (string * jsval)).

(** Exceptions. [HostError] stands for whatever a built-in throws
    ([SyntaxError] of [JSON.parse], [DOMException] of [atob], [URIError]). *)
Inductive exn : Type :=
| TypeError (message : string)
| Error (message : string)
| HostError (message : string).

Definition exn_message (e : exn) : string :=
  match e with
  | TypeError m | Error m | HostError m => m
  end.

Inductive result (A : Type) : Type :=
| Ok (a : A)
| Throw (e : exn).
Arguments Ok {A} a.
Arguments Throw {A} e.

#[export] Instance result_ret : MRet result := fun A a => Ok a.

#[export] Instance result_bind : MBind result := fun A B k r =>
  match r with
  | Ok a => k a
  | Throw e => Throw e
  end.

(** The built-ins of the host the sketch relies on and whose bodies are not
    part of the repository.  They are parameters of the development. *)
Record host : Type := {
  Number_toString : float -> string;          (* Number::toString *)
  String_toNumber : string -> float;          (* StringToNumber *)
  String_trim : string -> string;             (* String.prototype.trim *)
  JSON_parse : string -> result jsval;
  atob : string -> result string;
  decodeURIComponent : string -> result string;
  Math_atan2 : float -> float -> float;
  Math_cos : float -> float;
  Math_sin : float -> float
}.

(** [ToBoolean]. *)
Definition truthy_num (x : float) : bool :=
  negb (PrimFloat.is_nan x || PrimFloat.is_zero x).

Definition truthy (v : jsval) : bool :=
  match v with
  | JUndefined | JNull => false
  | JBool b => b
  | JNum x => truthy_num x
  | JStr s => negb (String.eqb s "")
  | JArr _ | JObj _ => true
  end.

(** [x || d] on numbers. *)
Definition num_or (x d : float) : float := if truthy_num x then x else d.

Definition nat_to_string (n : nat) : string :=
  NilEmpty.string_of_uint (Nat.to_uint n).

Fixpoint join (sep : string) (l : list string) : string :=
  match l with
  | [] => ""
  | [s] => s
  | s :: rest => s ++ sep ++ join sep rest
  end.

(** The own property [k] of an object (or an entry of any table keyed by
    strings listed in creation order). *)
Fixpoint assoc_get {A : Type} (k : string) (l : list (string * A)) : option A :=
  match l with
  | [] => None
  | (k', v) :: rest => if String.eqb k k' then Some v else assoc_get k rest
  end.

Section Elements.
Context (to_string : jsval -> result string).

(** The strings of the elements of an array, converted from left to right
    as [Array.prototype.join] does; the first conversion that throws ends
    it. *)
Fixpoint element_strings (l : list jsval) : result (list string) :=
  match l with
  | [] => Ok []
  | e :: rest =>
      s ← to_string e;
      more ← element_strings rest;
      Ok (s :: more)
  end.

End Elements.

Section Coercions.
Context (H : host).

(** [ToString].  An array joins its elements with commas, [null] and
    [undefined] elements giving the empty string.  An object is converted
    by its [toString] method: the one of [Object.prototype], unless the
    object has an own property of that name; a parsed value is never
    callable, and [valueOf] then returns the object itself, so the
    conversion throws. *)
Fixpoint js_to_string (v : jsval) : result string :=
  match v with
  | JUndefined => Ok "undefined"
  | JNull => Ok "null"
  | JBool true => Ok "true"
  | JBool false => Ok "false"
  | JNum x => Ok (Number_toString H x)
  | JStr s => Ok s
  | JArr items =>
      parts ← element_strings
                (fun e => match e with
                          | JUndefined | JNull => Ok ""
                          | _ => js_to_string e
                          end) items;
      Ok (join "," parts)
  | JObj props =>
      match assoc_get "toString" props with
      | Some _ => Throw (TypeError "Cannot convert object to primitive value")
      | None => Ok "[object Object]"
      end
  end.

(** [ToNumber]; an object or an array goes through its conversion to a
    primitive first, which is the one to a string above. *)
Definition js_to_number (v : jsval) : result float :=
  match v with
  | JUndefined => Ok PrimFloat.nan
  | JNull => Ok 0%float
  | JBool true => Ok 1%float
  | JBool false => Ok 0%float
  | JNum x => Ok x
  | JStr s => Ok (String_toNumber H s)
  | JArr _ => s ← js_to_string v; Ok (String_toNumber H s)
  | JObj _ => s ← js_to_string v; Ok PrimFloat.nan
  end.

End Coercions.

(** The values whose conversion to a string or a number throws: an object
    with an own property [toString], and an array that holds such a value,
    at any depth. *)
Fixpoint unconvertible (v : jsval) : bool :=
  match v with
  | JArr items => existsb unconvertible items
  | JObj props =>
      match assoc_get "toString" props with
      | Some _ => true
      | None => false
      end
  | _ => false
  end.

(** Property read [o.k] on a value that is not [null]/[undefined]; only
    own properties of parsed objects matter here, as none of the names the
    sketch reads ([examples], [addHistory], a label, [margin], ...) is
    defined on a prototype. *)
Definition get_prop (v : jsval) (k : string) : jsval :=
  match v with
  | JObj props => match assoc_get k props with Some x => x | None => JUndefined end
  | _ => JUndefined
  end.

(** [Array.isArray(v) ? v : []]. *)
Definition array_or_empty (v : jsval) : list jsval :=
  match v with
  | JArr items => items
  | _ => []
  end.

(** The character of a string at index [i], [undefined] past its end. *)
Definition string_at (s : string) (i : nat) : jsval :=
  match String.get i s with
  | Some c => JStr (String c EmptyString)
  | None => JUndefined
  end.

(** [b[i]]; on [null] and [undefined] the read throws a TypeError, whose
    message is given up to the index that the engine appends to it. *)
Definition index_get (b : jsval) (i : nat) : result jsval :=
  match b with
  | JUndefined => Throw (TypeError "Cannot read properties of undefined")
  | JNull => Throw (TypeError "Cannot read properties of null")
  | JArr items => Ok (nth i items JUndefined)
  | JStr s => Ok (string_at s i)
  | JObj props => Ok (get_prop b (nat_to_string i))
  | JBool _ | JNum _ => Ok JUndefined
  end.

(** ** Constants of the sketch *)

Definition LABELS : list string :=
  ["A"; "B"; "C"; "D"; "E"; "F"; "G"; "H"; "I"; "J"; "K"; "L"; "M";
   "N"; "O"; "P"; "Q"; "R"; "S"; "T"; "U"; "V"; "W"; "X"; "Y"; "Z"].
Definition NONE_LABEL : string := "NONE".
Definition ALL_LABELS : list string := LABELS ++ [NONE_LABEL].

Definition SMOOTH_N : nat := 12.
Definition STABLE_MIN : nat := 9.

Definition K : nat := 7.
Definition MIN_CONF : float := 0.62.
Definition MIN_MARGIN : float := 0.12.
Definition EPS : float := 1e-6.

Definition RECORD_EVERY_MS : float := 140.
Definition ADD_DEBOUNCE_MS : float := 180.

Definition Math_PI : float := 3.141592653589793.

(** ** Program state *)

(** What ml5's HandPose delivers: a keypoint has [x], [y] and possibly [z];
    a hand may lack its [keypoints]. *)
Record keypoint : Type := { kx : float; ky : float; kz : option float }.
Record hand : Type := { keypoints : option (list keypoint) }.

Definition kp (x y : float) : keypoint := {| kx := x; ky := y; kz := None |}.

(** The payload [saveDataset] writes under [STORAGE_KEY]. *)
Record snapshot : Type := {
  version : nat;
  savedAt : string;
  snap_examples : gmap string (list jsval);
  snap_addHistory : list jsval;
  meta_feature : string;
  meta_k : nat
}.

(** [statusMsg]: one constructor per message template of the sketch. *)
Inductive status : Type :=
| MsgLoading                       (* "loading HandPose..." *)
| MsgNoHand                        (* "No hand detected — move closer, ..." *)
| MsgAdded (label : string) (now : nat)  (* "Added example for L (now n) — saved" *)
| MsgNothingToUndo                 (* "Nothing to undo" *)
| MsgUndid (label : string)        (* "Undid last add: L — saved" *)
| MsgUndoDidNothing                (* "Undo did nothing (dataset already empty)" *)
| MsgCleared                       (* "Cleared dataset + deleted saved data" *)
| MsgImportCancelled               (* "Import cancelled" *)
| MsgImported (total : nat)        (* "Imported (n examples)" *)
| MsgImportFailed (reason : string) (* "Import failed — reason" *)
| MsgRecAdded (label : string) (total : nat) (* "REC L (+1) | total n" *)
| MsgRecNoHand.                    (* "REC No hand detected — ..." *)

(** The module-level variables of the sketch.  [examples] has string keys
    and is only ever read at given keys, so it is a finite map; the
    add history is the array itself, whose entries an import does not
    check.  A label variable holds a string or [null]. *)
Record state : Type := {
  hands : list hand;
  examples : gmap string (list jsval);
  addHistory : list jsval;
  isPredicting : bool;
  lastLabel : option string;
  lastConf : float;
  smoothQueue : list (option string);
  statusMsg : status;
  recordMode : bool;
  recordLabel : option string;
  lastRecordAt : float;
  lastAddAt : float;
  storage : option snapshot;
  importShown : bool
}.

(** What the host clock returns during one call: [millis()] and
    [new Date().toISOString()]. *)
Record clock : Type := { millis : float; isoNow : string }.

Definition empty_examples : gmap string (list jsval) :=
  foldr (fun l m => <[l := []]> m) ∅ ALL_LABELS.

Definition initial_state : state :=
  {| hands := []; examples := empty_examples; addHistory := [];
     isPredicting := true; lastLabel := None; lastConf := 0;
     smoothQueue := []; statusMsg := MsgLoading;
     recordMode := false; recordLabel := None;
     lastRecordAt := 0; lastAddAt := 0;
     storage := None; importShown := false |}.

(** Outcome of running a handler: it returns, or an exception escapes it;
    either way the module-level variables are left in some state. *)
Inductive outcome (A : Type) : Type :=
| Returned (a : A) (st : state)
| Uncaught (e : exn) (st : state).
Arguments Returned {A} a st.
Arguments Uncaught {A} e st.

Definition final_state {A : Type} (o : outcome A) : state :=
  match o with
  | Returned _ st | Uncaught _ st => st
  end.

(** Assignments to the module-level variables. *)
Definition set_hands (v : list hand) (st : state) : state :=
  {| hands := v; examples := examples st; addHistory := addHistory st;
     isPredicting := isPredicting st; lastLabel := lastLabel st;
     lastConf := lastConf st; smoothQueue := smoothQueue st;
     statusMsg := statusMsg st; recordMode := recordMode st;
     recordLabel := recordLabel st; lastRecordAt := lastRecordAt st;
     lastAddAt := lastAddAt st; storage := storage st;
     importShown := importShown st |}.

Definition set_examples (v : gmap string (list jsval)) (st : state) : state :=
  {| hands := hands st; examples := v; addHistory := addHistory st;
     isPredicting := isPredicting st; lastLabel := lastLabel st;
     lastConf := lastConf st; smoothQueue := smoothQueue st;
     statusMsg := statusMsg st; recordMode := recordMode st;
     recordLabel := recordLabel st; lastRecordAt := lastRecordAt st;
     lastAddAt := lastAddAt st; storage := storage st;
     importShown := importShown st |}.

Definition set_addHistory (v : list jsval) (st : state) : state :=
  {| hands := hands st; examples := examples st; addHistory := v;
     isPredicting := isPredicting st; lastLabel := lastLabel st;
     lastConf := lastConf st; smoothQueue := smoothQueue st;
     statusMsg := statusMsg st; recordMode := recordMode st;
     recordLabel := recordLabel st; lastRecordAt := lastRecordAt st;
     lastAddAt := lastAddAt st; storage := storage st;
     importShown := importShown st |}.

Definition set_smoothing (l : option string) (c : float)
  (q : list (option string)) (st : state) : state :=
  {| hands := hands st; examples := examples st; addHistory := addHistory st;
     isPredicting := isPredicting st; lastLabel := l;
     lastConf := c; smoothQueue := q;
     statusMsg := statusMsg st; recordMode := recordMode st;
     recordLabel := recordLabel st; lastRecordAt := lastRecordAt st;
     lastAddAt := lastAddAt st; storage := storage st;
     importShown := importShown st |}.

Definition set_statusMsg (v : status) (st : state) : state :=
  {| hands := hands st; examples := examples st; addHistory := addHistory st;
     isPredicting := isPredicting st; lastLabel := lastLabel st;
     lastConf := lastConf st; smoothQueue := smoothQueue st;
     statusMsg := v; recordMode := recordMode st;
     recordLabel := recordLabel st; lastRecordAt := lastRecordAt st;
     lastAddAt := lastAddAt st; storage := storage st;
     importShown := importShown st |}.

Definition set_record (mode : bool) (l : option string) (st : state) : state :=
  {| hands := hands st; examples := examples st; addHistory := addHistory st;
     isPredicting := isPredicting st; lastLabel := lastLabel st;
     lastConf := lastConf st; smoothQueue := smoothQueue st;
     statusMsg := statusMsg st; recordMode := mode;
     recordLabel := l; lastRecordAt := lastRecordAt st;
     lastAddAt := lastAddAt st; storage := storage st;
     importShown := importShown st |}.

Definition set_lastRecordAt (v : float) (st : state) : state :=
  {| hands := hands st; examples := examples st; addHistory := addHistory st;
     isPredicting := isPredicting st; lastLabel := lastLabel st;
     lastConf := lastConf st; smoothQueue := smoothQueue st;
     statusMsg := statusMsg st; recordMode := recordMode st;
     recordLabel := recordLabel st; lastRecordAt := v;
     lastAddAt := lastAddAt st; storage := storage st;
     importShown := importShown st |}.

Definition set_lastAddAt (v : float) (st : state) : state :=
  {| hands := hands st; examples := examples st; addHistory := addHistory st;
     isPredicting := isPredicting st; lastLabel := lastLabel st;
     lastConf := lastConf st; smoothQueue := smoothQueue st;
     statusMsg := statusMsg st; recordMode := recordMode st;
     recordLabel := recordLabel st; lastRecordAt := lastRecordAt st;
     lastAddAt := v; storage := storage st;
     importShown := importShown st |}.

Definition set_storage (v : option snapshot) (st : state) : state :=
  {| hands := hands st; examples := examples st; addHistory := addHistory st;
     isPredicting := isPredicting st; lastLabel := lastLabel st;
     lastConf := lastConf st; smoothQueue := smoothQueue st;
     statusMsg := statusMsg st; recordMode := recordMode st;
     recordLabel := recordLabel st; lastRecordAt := lastRecordAt st;
     lastAddAt := lastAddAt st; storage := v;
     importShown := importShown st |}.

Definition set_importShown (v : bool) (st : state) : state :=
  {| hands := hands st; examples := examples st; addHistory := addHistory st;
     isPredicting := isPredicting st; lastLabel := lastLabel st;
     lastConf := lastConf st; smoothQueue := smoothQueue st;
     statusMsg := statusMsg st; recordMode := recordMode st;
     recordLabel := recordLabel st; lastRecordAt := lastRecordAt st;
     lastAddAt := lastAddAt st; storage := storage st;
     importShown := v |}.

(** [gotHands] (lines 92-94): a delivery replaces the current hands. *)
Definition gotHands (results : option (list hand)) (st : state) : state :=
  set_hands (default [] results) st.

(** ** Feature extraction *)

(** [getLandmarks21] (lines 156-158). *)
Definition getLandmarks21 (kps : list keypoint) : list (float * float * float) :=
  map (fun k => (kx k, ky k, default 0%float (kz k))) kps.

Section Features.
Context (H : host).
Local Open Scope float_scope.

(** The body of [getHandFeatures] (lines 167-193) once the tracked hand is
    known to have 21 keypoints: XY only, wrist-relative, scaled, rotated. *)
Definition normalized_features (lm : list (float * float * float)) : list float :=
  let at_ (i : nat) := nth i lm (0, 0, 0) in
  let wrist := at_ 0%nat in
  let midMcp := at_ 9%nat in
  let wx := wrist.1.1 in
  let wy := wrist.1.2 in
  let dx := midMcp.1.1 - wx in
  let dy := midMcp.1.2 - wy in
  let scale := num_or (PrimFloat.sqrt (dx * dx + dy * dy)) 1 in
  let ang := Math_atan2 H dy dx in
  let rot := (- Math_PI / 2) - ang in
  let cosR := Math_cos H rot in
  let sinR := Math_sin H rot in
  flat_map
    (fun i =>
       let x := ((at_ i).1.1 - wx) / scale in
       let y := ((at_ i).1.2 - wy) / scale in
       let xr := x * cosR - y * sinR in
       let yr := x * sinR + y * cosR in
       [xr; yr])
    (seq 0 21).

(** [getHandFeatures] (lines 161-194), reading [hands]. *)
Definition getHandFeatures (hs : list hand) : option (list float) :=
  match hs with
  | [] => None
  | hd :: _ =>
      match keypoints hd with
      | None => None
      | Some kps =>
          if negb (length kps =? 21)%nat then None
          else Some (normalized_features (getLandmarks21 kps))
      end
  end.

End Features.

(** ** The example store *)

(** [totalExamples] (lines 338-340): [examples[l]?.length || 0], summed over
    the canonical labels. *)
Definition label_count (ex : gmap string (list jsval)) (l : string) : nat :=
  match ex !! l with
  | Some arr => length arr
  | None => 0
  end.

Definition totalExamples (ex : gmap string (list jsval)) : nat :=
  foldl (fun sum l => sum + label_count ex l) 0 ALL_LABELS.

(** [saveDataset] (lines 343-352); the payload is kept as built, before
    [JSON.stringify]. *)
Definition saveDataset (c : clock) (st : state) : state :=
  set_storage
    (Some {| version := 2; savedAt := isoNow c;
             snap_examples := examples st; snap_addHistory := addHistory st;
             meta_feature := "xy_rot_norm"; meta_k := K |})
    st.

(** What a read of [examples[key]] finds when [key] is not one of the
    object's own properties: a method of [Object.prototype] (only its
    [length] matters below), the prototype itself, or nothing. *)
Inductive inherited : Type :=
| ProtoMethod (arity : nat)
| ProtoObject.

Definition Object_prototype (key : string) : option inherited :=
  if bool_decide (key ∈ ["constructor"; "hasOwnProperty"; "isPrototypeOf";
                          "propertyIsEnumerable"; "__lookupGetter__";
                          "__lookupSetter__"]) then Some (ProtoMethod 1)
  else if bool_decide (key ∈ ["__defineGetter__"; "__defineSetter__"])
       then Some (ProtoMethod 2)
  else if bool_decide (key ∈ ["toString"; "toLocaleString"; "valueOf"])
       then Some (ProtoMethod 0)
  else if bool_decide (key = "__proto__") then Some ProtoObject
  else None.

Section Store.
Context (H : host).
Local Open Scope float_scope.

(** [addExample] (lines 282-304); [silent] is [opts.silent]. *)
Definition addExample (c : clock) (label : string) (silent : bool)
  (st : state) : outcome bool :=
  let now := millis c in
  if negb silent && (now - lastAddAt st <? ADD_DEBOUNCE_MS) then
    Returned false st
  else
    let st := set_lastAddAt now st in
    match getHandFeatures H (hands st) with
    | None =>
        Returned false (if silent then st else set_statusMsg MsgNoHand st)
    | Some feats =>
        match examples st !! label with
        | None =>
            Uncaught
              (TypeError
                 (match Object_prototype label with
                  | Some _ => "examples[label].push is not a function"
                  | None => "Cannot read properties of undefined (reading 'push')"
                  end)) st
        | Some arr =>
            let arr' := (arr ++ [JArr (map JNum feats)])%list in
            let st := set_examples (<[label := arr']> (examples st)) st in
            let st := set_addHistory (addHistory st ++ [JStr label])%list st in
            let st := saveDataset c st in
            Returned true
              (if silent then st
               else set_statusMsg (MsgAdded label (length arr')) st)
        end
    end.

(** [undoLast] (lines 306-321).  [addHistory.pop()] yields whatever the
    array holds; [examples[label]] converts it to a property key, which
    may throw. *)
Definition undoLast (c : clock) (st : state) : outcome unit :=
  match addHistory st with
  | [] => Returned tt (set_statusMsg MsgNothingToUndo st)
  | _ :: _ =>
      let label := List.last (addHistory st) JUndefined in
      let st := set_addHistory (removelast (addHistory st)) st in
      match js_to_string H label with
      | Throw e => Uncaught e st
      | Ok key =>
          match examples st !! key with
          | Some arr =>
              if (0 <? length arr)%nat then
                let st := set_examples (<[key := removelast arr]> (examples st)) st in
                let st := saveDataset c st in
                Returned tt (set_statusMsg (MsgUndid key) st)
              else
                Returned tt (set_statusMsg MsgUndoDidNothing (saveDataset c st))
          | None =>
              match Object_prototype key with
              | Some (ProtoMethod (S _)) =>
                  Uncaught (TypeError "examples[label].pop is not a function") st
              | Some (ProtoMethod O) | Some ProtoObject =>
                  Returned tt (set_statusMsg MsgUndoDidNothing (saveDataset c st))
              | None =>
                  Uncaught
                    (TypeError "Cannot read properties of undefined (reading 'length')")
                    st
              end
          end
      end
  end.

(** [clearAll] (lines 323-336). *)
Definition clearAll (st : state) : state :=
  let st := set_examples
              (foldl (fun m l => <[l := []]> m) (examples st) ALL_LABELS) st in
  let st := set_addHistory [] st in
  let st := set_smoothing None 0 [] st in
  let st := set_record false None st in
  let st := set_storage None st in
  set_statusMsg MsgCleared st.

(** *** Import *)

(** The argument p5 hands to the file-input callback. *)
Record p5file : Type := { data : jsval }.

(** [parseMaybeJSON] (lines 395-425). *)
Definition parseMaybeJSON (file : p5file) : result jsval :=
  match data file with
  | JArr _ | JObj _ => Ok (data file)
  | JStr raw =>
      let s := String_trim H raw in
      if String.prefix "data:" s then
        match String.index 0 "," s with
        | None => Throw (Error "Malformed data URL")
        | Some comma =>
            let meta := String.substring 0 comma s in
            let b64 := String.substring (S comma) (String.length s - S comma) s in
            if bool_decide (is_Some (String.index 0 ";base64" meta)) then
              txt ← atob H b64; JSON_parse H txt
            else
              txt ← decodeURIComponent H b64; JSON_parse H txt
        end
      else JSON_parse H s
  | _ => Throw (Error "File data was empty or unreadable")
  end.

(** The [try] block of [handleImport] (lines 436-455).  The values taken
    from the payload are trees (as [JSON.parse] builds them), so no two of
    the arrays stored share their cells. *)
Definition import_payload (c : clock) (file : p5file) (st : state) : result state :=
  payload ← parseMaybeJSON file;
  if negb (truthy payload) || negb (truthy (get_prop payload "examples")) then
    Throw (Error "Missing 'examples' in JSON")
  else
    let src := get_prop payload "examples" in
    let st := set_examples
                (foldl (fun m l => <[l := array_or_empty (get_prop src l)]> m)
                       (examples st) ALL_LABELS) st in
    let st := set_addHistory
                (array_or_empty (get_prop payload "addHistory")) st in
    let st := saveDataset c st in
    let st := set_smoothing None 0 [] st in
    let st := set_record false None st in
    Ok (set_statusMsg (MsgImported (totalExamples (examples st))) st).

(** [handleImport] (lines 427-459); [None] is a cancelled file dialog. *)
Definition handleImport (c : clock) (file : option p5file) (st : state) : state :=
  let st := set_importShown false st in
  match file with
  | None => set_statusMsg MsgImportCancelled st
  | Some f =>
      match import_payload c f st with
      | Ok st' => st'
      | Throw e =>
          let m := exn_message e in
          set_statusMsg
            (MsgImportFailed (if String.eqb m "" then "invalid JSON" else m)) st
      end
  end.

End Store.

(** ** The kNN classifier *)

Record neighbor : Type := { nlabel : string; nd : float }.

(** The object literal every [return] of [classifyKNN] builds. *)
Record knn_result : Type := {
  label : option string;
  conf : float;
  best : option string;
  second : option string;
  scores : list (string * float)
}.

(** The locals of [classifyKNN] after scoring, before the gate. *)
Record knn_stats : Type := {
  bestLabel : option string;
  bestScore : float;
  secondLabel : option string;
  secondScore : float;
  total : float;
  confidence : float;
  secondConf : float;
  margin : float
}.

(** [scores[k] = v] on an object whose keys are listed in creation order. *)
Fixpoint assoc_set {A : Type} (k : string) (v : A) (l : list (string * A))
  : list (string * A) :=
  match l with
  | [] => [(k, v)]
  | (k', v') :: rest =>
      if String.eqb k k' then (k, v) :: rest else (k', v') :: assoc_set k v rest
  end.

(** [Array.prototype.sort] with a comparator: the result keeps the input
    order of elements the comparator does not separate.  An element goes
    after every earlier element unless the comparator puts that one
    strictly after it.  This is the order of the language standard, which
    fixes the result (a stable sort) only for a comparator that is
    consistent on the elements; for any other the order depends on the
    engine.  The comparator of [classifyKNN], for which a NaN difference
    counts as 0, is consistent when no distance is NaN, and when the
    distances that are not NaN are all equal; the properties that depend
    on the order are stated for these cases. *)
Fixpoint sort_insert {A : Type} (after : A -> A -> bool) (x : A) (l : list A)
  : list A :=
  match l with
  | [] => [x]
  | y :: rest => if after y x then x :: l else y :: sort_insert after x rest
  end.

Definition array_sort {A : Type} (after : A -> A -> bool) (l : list A) : list A :=
  fold_left (fun acc x => sort_insert after x acc) l [].

Section Classifier.
Context (H : host).
Local Open Scope float_scope.

Fixpoint l2_loop (a : list float) (i : nat) (b : jsval) (s : float)
  : result float :=
  match a with
  | [] => Ok s
  | ai :: rest =>
      bi ← index_get b i;
      x ← js_to_number H bi;
      let d := ai - x in
      l2_loop rest (S i) b (s + d * d)
  end.

(** [l2Distance] (lines 462-469); [a] is the query, an array of numbers,
    [b] whatever the store holds. *)
Definition l2Distance (a : list float) (b : jsval) : result float :=
  s ← l2_loop a 0%nat b 0; Ok (PrimFloat.sqrt s).

Fixpoint label_neighbors (feats : list float) (l : string) (arr : list jsval)
  : result (list neighbor) :=
  match arr with
  | [] => Ok []
  | v :: rest =>
      d ← l2Distance feats v;
      more ← label_neighbors feats l rest;
      Ok ({| nlabel := l; nd := d |} :: more)
  end.

Fixpoint all_neighbors (ex : gmap string (list jsval)) (feats : list float)
  (labels : list string) : result (list neighbor) :=
  match labels with
  | [] => Ok []
  | l :: rest =>
      here ← label_neighbors feats l (default [] (ex !! l));
      more ← all_neighbors ex feats rest;
      Ok (here ++ more)%list
  end.

(** The comparator [(a, b) => a.d - b.d] says "a after b" when positive. *)
Definition by_distance (a b : neighbor) : bool := 0 <? nd a - nd b.

Definition weight (n : neighbor) : float := 1 / (nd n + EPS).

Definition add_score (sc : list (string * float)) (n : neighbor)
  : list (string * float) :=
  let old := match assoc_get (nlabel n) sc with
             | Some x => num_or x 0
             | None => 0
             end in
  assoc_set (nlabel n) (old + weight n) sc.

Definition accumulate (topK : list neighbor) : list (string * float) :=
  fold_left add_score topK [].

(** One turn of the loop over [Object.keys(scores)]; the accumulator is
    [(bestLabel, bestScore, secondLabel, secondScore)]. *)
Definition scan_step
  (acc : option string * float * option string * float)
  (kv : string * float) : option string * float * option string * float :=
  let '(bl, bs, sl, ss) := acc in
  let '(l, s) := kv in
  if bs <? s then (Some l, s, bl, bs)
  else if ss <? s then (bl, bs, Some l, s)
  else acc.

Definition scan (sc : list (string * float))
  : option string * float * option string * float :=
  fold_left scan_step sc (None, neg_infinity, None, neg_infinity).

Definition sum_scores (sc : list (string * float)) : float :=
  fold_left (fun t kv => t + kv.2) sc 0.

Definition stats_of (sc : list (string * float)) : knn_stats :=
  let '(bl, bs, sl, ss) := scan sc in
  let ss := if negb (is_finite ss) then 0 else ss in
  let tot := sum_scores sc in
  let cf := if 0 <? tot then bs / tot else 0 in
  let scf := if 0 <? tot then ss / tot else 0 in
  {| bestLabel := bl; bestScore := bs; secondLabel := sl; secondScore := ss;
     total := tot; confidence := cf; secondConf := scf; margin := cf - scf |}.

Definition gate (sc : list (string * float)) (t : knn_stats) : knn_result :=
  if bool_decide (bestLabel t = Some NONE_LABEL) then
    {| label := Some NONE_LABEL; conf := confidence t; best := bestLabel t;
       second := secondLabel t; scores := sc |}
  else if (confidence t <? MIN_CONF) || (margin t <? MIN_MARGIN) then
    {| label := Some NONE_LABEL; conf := confidence t; best := bestLabel t;
       second := secondLabel t; scores := sc |}
  else
    {| label := bestLabel t; conf := confidence t; best := bestLabel t;
       second := secondLabel t; scores := sc |}.

Definition topK_of (neighbors : list neighbor) : list neighbor :=
  let k := Nat.min K (length neighbors) in
  firstn k (array_sort by_distance neighbors).

(** [classifyKNN] (lines 471-528), reading [examples]. *)
Definition classifyKNN (ex : gmap string (list jsval)) (feats : list float)
  : result (option knn_result) :=
  neighbors ← all_neighbors ex feats ALL_LABELS;
  match neighbors with
  | [] => Ok None
  | _ :: _ =>
      let sc := accumulate (topK_of neighbors) in
      Ok (Some (gate sc (stats_of sc)))
  end.

End Classifier.

(** The properties of the returned object, as a caller can read them. *)
Definition option_label (o : option string) : jsval :=
  match o with
  | Some s => JStr s
  | None => JNull
  end.

Definition result_object (r : knn_result) : jsval :=
  JObj [("label", option_label (label r));
        ("conf", JNum (conf r));
        ("best", option_label (best r));
        ("second", option_label (second r));
        ("scores", JObj (map (fun kv => (kv.1, JNum kv.2)) (scores r)))].

(** ** Smoothing *)

Record smoothed : Type := {
  sm_label : option string;
  sm_conf : float;
  stable : bool
}.

(** The property key a queue entry is counted under. *)
Definition key_of (l : option string) : string :=
  match l with
  | Some s => s
  | None => "null"
  end.

(** [!lastLabel]. *)
Definition label_truthy (l : option string) : bool :=
  match l with
  | Some s => negb (String.eqb s "")
  | None => false
  end.

Definition count_step (counts : list (string * nat)) (l : option string)
  : list (string * nat) :=
  assoc_set (key_of l) (default 0 (assoc_get (key_of l) counts) + 1) counts.

Definition tally (queue : list (option string)) : list (string * nat) :=
  fold_left count_step queue [].

Definition mode_step (acc : option string * nat) (lc : string * nat)
  : option string * nat :=
  if (acc.2 <? lc.2)%nat then (Some lc.1, lc.2) else acc.

Definition mode_of (counts : list (string * nat)) : option string * nat :=
  fold_left mode_step counts (None, 0).

(** [getSmoothedLabel] (lines 531-547).  The counting table is exact for
    the keys the classifier produces (labels and "null"), none of which is
    a property of [Object.prototype]. *)
Definition getSmoothedLabel (st : state) : smoothed :=
  if negb (label_truthy (lastLabel st)) then
    {| sm_label := None; sm_conf := 0; stable := false |}
  else
    let '(b, bestCount) := mode_of (tally (smoothQueue st)) in
    {| sm_label := b; sm_conf := lastConf st;
       stable := (STABLE_MIN <=? bestCount)%nat
                 && (MIN_CONF <=? lastConf st)%float |}.

(** ** The frame loop (the part of [draw] that touches the state) *)

Section Frame.
Context (H : host).
Local Open Scope float_scope.

(** [smoothQueue.push(l); if (smoothQueue.length > SMOOTH_N) smoothQueue.shift()]. *)
Definition push_window (l : option string) (q : list (option string))
  : list (option string) :=
  let q := (q ++ [l])%list in
  if (SMOOTH_N <? length q)%nat then tail q else q.

(** Lines 111-123 of [draw]; [c] is the clock read by [draw], [cAdd] the
    one read inside [addExample]. *)
Definition record_tick (c cAdd : clock) (st : state) : outcome unit :=
  match recordMode st, recordLabel st with
  | true, Some l =>
      if negb (String.eqb l "") && (RECORD_EVERY_MS <=? millis c - lastRecordAt st)
      then
        match addExample H cAdd l true st with
        | Returned ok st =>
            let st := set_lastRecordAt (millis c) st in
            Returned tt
              (set_statusMsg
                 (if ok then MsgRecAdded l (totalExamples (examples st))
                  else MsgRecNoHand) st)
        | Uncaught e st => Uncaught e st
        end
      else Returned tt st
  | _, _ => Returned tt st
  end.

(** Lines 125-134 of [draw]. *)
Definition predict_tick (feats : option (list float)) (st : state) : outcome unit :=
  match feats with
  | Some f =>
      if isPredicting st && (0 <? totalExamples (examples st))%nat then
        match classifyKNN H (examples st) f with
        | Ok (Some res) =>
            Returned tt
              (set_smoothing (label res) (conf res)
                 (push_window (label res) (smoothQueue st)) st)
        | Ok None => Returned tt st
        | Throw e => Uncaught e st
        end
      else Returned tt st
  | None => Returned tt st
  end.

(** [draw] (lines 96-137) without the rendering. *)
Definition draw (c cAdd : clock) (st : state) : outcome unit :=
  let feats := getHandFeatures H (hands st) in
  match record_tick c cAdd st with
  | Returned _ st => predict_tick feats st
  | Uncaught e st => Uncaught e st
  end.

End Frame.

(** ** Call sequences and reference notions used by the specification *)

(** One call [addExample(label, {silent})] together with what the clock
    reads during it. *)
Record add_call : Type := {
  call_clock : clock;
  call_label : string;
  call_silent : bool
}.

Definition run_adds (H : host) (calls : list add_call) (st : state) : state :=
  fold_left
    (fun st a =>
       final_state (addExample H (call_clock a) (call_label a) (call_silent a) st))
    calls st.

(** Whether a call gets past the first line of [addExample]. *)
Definition passes_debounce (since : float) (a : add_call) : bool :=
  negb (negb (call_silent a)
        && (millis (call_clock a) - since <? ADD_DEBOUNCE_MS)%float).

(** The time of the last call that got past the debounce test, starting
    from [since]. *)
Definition last_pass_time (since : float) (calls : list add_call) : float :=
  fold_left
    (fun t a => if passes_debounce t a then millis (call_clock a) else t)
    calls since.

(** As the specification words the debounce: the time of the last
    non-silent call that was accepted, silent calls not counting. *)
Definition spec_last_nonsilent_time (since : float) (calls : list add_call)
  : float :=
  fold_left
    (fun t a =>
       if call_silent a then t
       else if (millis (call_clock a) - t <? ADD_DEBOUNCE_MS)%float then t
            else millis (call_clock a))
    calls since.

(** As the specification words the tie-break: the first label, in the
    canonical order A..Z then NONE, whose score no other score exceeds. *)
Definition is_top (sc : list (string * float)) (l : string) : bool :=
  match assoc_get l sc with
  | Some s => forallb (fun kv => (kv.2 <=? s)%float) sc
  | None => false
  end.

Definition spec_canonical_best (sc : list (string * float)) : option string :=
  find (is_top sc) ALL_LABELS.

(** The order in which the labels of a list of neighbours first occur. *)
Definition first_occurrences (ls : list string) : list string :=
  fold_left (fun acc l => if bool_decide (l ∈ acc) then acc else (acc ++ [l])%list)
            ls [].

(** As the specification words the confidence: a plain quotient. *)
Definition spec_confidence (t : knn_stats) : float :=
  (bestScore t / total t)%float.
Definition spec_margin (t : knn_stats) : float :=
  (bestScore t / total t - secondScore t / total t)%float.
Definition spec_gate (t : knn_stats) : option string :=
  if bool_decide (bestLabel t = Some NONE_LABEL)
     || (spec_confidence t <? MIN_CONF)%float
     || (spec_margin t <? MIN_MARGIN)%float
  then Some NONE_LABEL else bestLabel t.

(** The score of label [l] after the loop over the nearest neighbours:
    their weights added up in order, an accumulated NaN or zero being
    read as 0 by [scores[label] || 0]. *)
Definition weight_sum (l : string) (top : list neighbor) : float :=
  fold_left
    (fun acc n =>
       if bool_decide (nlabel n = l) then (num_or acc 0 + weight n)%float else acc)
    top 0%float.

(** What it takes for a comparator to order a list: on its elements,
    "not after" is transitive and total. *)
Section Comparators.
Context {A : Type} (after : A -> A -> bool).

Definition not_after (a b : A) : Prop := after a b = false.

Definition consistent_on (l : list A) : Prop :=
  (forall a b c, a ∈ l -> b ∈ l -> c ∈ l ->
      after a b = false -> after b c = false -> after a c = false)
  /\ (forall a b, a ∈ l -> b ∈ l -> after a b = true -> after b a = false).

End Comparators.

Section FeatureLocals.
Context (H : host).
Local Open Scope float_scope.


End FeatureLocals.

(** A stored vector the distance loop can index. *)
Definition indexable (v : jsval) : Prop := v <> JNull /\ v <> JUndefined.

Definition dataset_ok (ex : gmap string (list jsval)) : Prop :=
  forall l arr, ex !! l = Some arr -> Forall indexable arr.

(** A stored vector that is an array of numbers, whatever its length and
    its numbers; the distance loop converts every entry it reads of such
    a vector.  And a dataset of such vectors. *)
Definition numeric_vector (v : jsval) : Prop := exists xs, v = JArr (map JNum xs).

Definition numeric_dataset (ex : gmap string (list jsval)) : Prop :=
  forall l arr, ex !! l = Some arr -> Forall numeric_vector arr.

(** A window entry the classifier can have produced. *)
Definition gated_label (l : option string) : Prop :=
  match l with
  | Some s => s ∈ ALL_LABELS
  | None => True
  end.

(** Number of window entries counted under key [k]. *)
Definition occurrences (k : string) (q : list (option string)) : nat :=
  length (filter (fun l => key_of l = k) q).

(** ** Ordering binary64 values

    [SFcompare] orders the values that are not NaN; the key below maps
    them to integer triples ordered lexicographically in the same way. *)

Definition sf_key (x : spec_float) : option (Z * Z * Z) :=
  match x with
  | S754_nan => None
  | S754_infinity true => Some (-2, 0, 0)%Z
  | S754_infinity false => Some (2, 0, 0)%Z
  | S754_zero _ => Some (0, 0, 0)%Z
  | S754_finite true m e => Some (-1, - e, Z.neg m)%Z
  | S754_finite false m e => Some (1, e, Z.pos m)%Z
  end.

Definition key_lt (a b : Z * Z * Z) : Prop :=
  (a.1.1 < b.1.1 \/ (a.1.1 = b.1.1 /\ (a.1.2 < b.1.2 \/ (a.1.2 = b.1.2 /\ a.2 < b.2))))%Z.

Definition fkey (x : float) : option (Z * Z * Z) := sf_key (Prim2SF x).

(** Classes of binary64 values, read off their decoding. *)
Definition finite_sf (X : spec_float) : Prop :=
  match X with
  | S754_zero _ | S754_finite _ _ _ => True
  | _ => False
  end.

(** Not NaN and not below zero (and not the negative zero). *)
Definition nonneg_sf (X : spec_float) : Prop :=
  match X with
  | S754_zero false | S754_finite false _ _ | S754_infinity false => True
  | _ => False
  end.

(** A stored vector as the specification types it: an array of [n]
    finite numbers; and a dataset of such vectors. *)
Definition finite_vector (n : nat) (v : jsval) : Prop :=
  exists xs, v = JArr (map JNum xs) /\ length xs = n /\
             Forall (fun x => is_finite x = true) xs.

Definition finite_dataset (n : nat) (ex : gmap string (list jsval)) : Prop :=
  forall l arr, ex !! l = Some arr -> Forall (finite_vector n) arr.

(** ** Concrete data for the examples *)

(** A host to run closed examples with; none of them depends on what these
    functions return. *)
Definition demo_host : host :=
  {| Number_toString := fun _ => "0";
     String_toNumber := fun _ => PrimFloat.nan;
     String_trim := fun s => s;
     JSON_parse := fun _ => Throw (HostError "Unexpected token");
     atob := fun s => Ok s;
     decodeURIComponent := fun s => Ok s;
     Math_atan2 := fun _ _ => 0%float;
     Math_cos := fun _ => 1%float;
     Math_sin := fun _ => 0%float |}.

Definition at_time (t : float) : clock := {| millis := t; isoNow := "" |}.

(** An open hand: 21 keypoints on a line, wrist at the origin. *)
Definition open_hand : hand :=
  {| keypoints := Some (map (fun i => kp 0 (PrimFloat.of_uint63 (Uint63.of_Z (Z.of_nat i))))
                            (seq 0 21)) |}.

(** A 42-entry vector with [x] first and zeros after, stored and as query. *)
Definition query (x : float) : list float := x :: repeat 0%float 41.
Definition stored (x : float) : jsval := JArr (map JNum (query x)).


(** Two payloads an import accepts: a history naming a label the store
    does not have, and a stored "vector" that is [null]. *)
Definition stray_history_payload : jsval :=
  JObj [("examples", JObj []); ("addHistory", JArr [JStr "foo"])].

Definition null_vector_payload : jsval :=
  JObj [("examples", JObj [("A", JArr [JNull])])].

(** One example of B at the query and two of A at distance [EPS]: both
    labels end with the same score. *)
Definition tie_dataset : gmap string (list jsval) :=
  <["A" := [stored EPS; stored EPS]]> (<["B" := [stored 0]]> empty_examples).

(** Twelve frames classified against [tie_dataset] with the query at the
    B example. *)
Definition twelve_ambiguous_frames : state :=
  Nat.iter 12
    (fun st => final_state (predict_tick demo_host (Some (query 0)) st))
    (set_examples tie_dataset initial_state).


(** The scenario of the specification: seven examples of A at [vA], seven
    of NONE at [vN], nothing else. *)
Definition scenario_dataset (vA : list float) (vN : jsval)
  : gmap string (list jsval) :=
  <["A" := repeat (JArr (map JNum vA)) 7]>
    (<[NONE_LABEL := repeat vN 7]> empty_examples).

(** One example of A at the origin; the query [query 1e200] is so far away
    that the squared distance overflows. *)
Definition far_dataset : gmap string (list jsval) :=
  <["A" := [stored 0]]> empty_examples.


(** ** Persistence across page loads, export *)

(** Property read [v.k] where [v] may be [null] or [undefined]. *)
Definition member (v : jsval) (k : string) : result jsval :=
  match v with
  | JUndefined => Throw (TypeError "Cannot read properties of undefined")
  | JNull => Throw (TypeError "Cannot read properties of null")
  | _ => Ok (get_prop v k)
  end.

Definition nat_to_float (n : nat) : float :=
  PrimFloat.of_uint63 (Uint63.of_Z (Z.of_nat n)).

(** The object literal of [saveDataset] and [exportDataset] (lines 344-350
    and 384-390) as a value; the order in which the labels of [examples]
    are listed does not matter to a property read. *)
Definition examples_value (ex : gmap string (list jsval)) : jsval :=
  JObj (map (fun kv => (kv.1, JArr kv.2)) (map_to_list ex)).

Definition payload_value (p : snapshot) : jsval :=
  JObj [("version", JNum (nat_to_float (version p)));
        ("savedAt", JStr (savedAt p));
        ("examples", examples_value (snap_examples p));
        ("addHistory", JArr (snap_addHistory p));
        ("meta", JObj [("feature", JStr (meta_feature p));
                       ("k", JNum (nat_to_float (meta_k p)))])].

(** [exportDataset] (lines 383-392): the payload and the file name handed
    to p5's [saveJSON]. *)
Definition exportDataset (c : clock) (st : state) : snapshot * string :=
  ({| version := 2; savedAt := isoNow c;
      snap_examples := examples st; snap_addHistory := addHistory st;
      meta_feature := "xy_rot_norm"; meta_k := K |},
   "asl_handpose_dataset.json").

Section Persistence.
Context (H : host).

(** The [try] block of [loadDataset] (lines 359-376). *)
Definition load_payload (raw : string) (st : state) : result (bool * state) :=
  payload ← JSON_parse H raw;
  src ← member payload "examples";
  if negb (truthy src) then Ok (false, st)
  else
    let st := set_examples
                (foldl (fun m l => <[l := array_or_empty (get_prop src l)]> m)
                       (examples st) ALL_LABELS) st in
    let st := set_addHistory
                (array_or_empty (get_prop payload "addHistory")) st in
    let st := set_smoothing None 0 [] st in
    let st := set_record false None st in
    Ok (true, st).

(** [loadDataset] (lines 354-380); [raw] is what
    [localStorage.getItem(STORAGE_KEY)] returns, the text left there by an
    earlier [saveDataset] or [null]. *)
Definition loadDataset (raw : option string) (st : state) : bool * state :=
  match raw with
  | None => (false, st)
  | Some s =>
      if String.eqb s "" then (false, st)
      else match load_payload s st with
           | Ok r => r
           | Throw _ => (false, st)
           end
  end.

End Persistence.

(** ** The hand overlay *)

(** [drawHandKeypoints] (lines 139-154): the points drawn, in the
    coordinates of the translated canvas. *)
Definition drawHandKeypoints (hs : list hand) : list (float * float) :=
  match hs with
  | [] => []
  | hd :: _ =>
      match keypoints hd with
      | None => []
      | Some kps =>
          if negb (length kps =? 21)%nat then []
          else map (fun k => ((640 - kx k)%float, ky k)) kps
      end
  end.

(** ** The keyboard *)

Definition set_isPredicting (v : bool) (st : state) : state :=
  {| hands := hands st; examples := examples st; addHistory := addHistory st;
     isPredicting := v; lastLabel := lastLabel st;
     lastConf := lastConf st; smoothQueue := smoothQueue st;
     statusMsg := statusMsg st; recordMode := recordMode st;
     recordLabel := recordLabel st; lastRecordAt := lastRecordAt st;
     lastAddAt := lastAddAt st; storage := storage st;
     importShown := importShown st |}.

(** The message templates of the key handlers. *)
Inductive notice : Type :=
| MsgPredictionOn                  (* "Prediction ON" *)
| MsgPredictionOff                 (* "Prediction OFF" *)
| MsgExported                      (* "Exported dataset JSON" *)
| MsgChooseFile                    (* "Choose a dataset JSON file to import..." *)
| MsgRecordOff                     (* "Record mode OFF" *)
| MsgRecordOn                      (* "Record mode ON — hold A–Z or N ..." *)
| MsgRecHold (label : string)      (* "REC L (hold to record)" *)
| MsgRecPaused.                    (* "REC paused (hold a label key to continue)" *)

(** p5's [BACKSPACE]. *)
Definition BACKSPACE : nat := 8.

(** What a key handler leaves behind besides the module-level variables of
    [state]: the message it assigned to [statusMsg] itself, if it did (the
    [statusMsg] field of the state then still holds the message this one
    replaces); the [held] table; whether it returned [false]; and the file
    it had p5 download. *)
Record handled : Type := {
  said : option notice;
  held : gmap string bool;
  prevented : bool;
  saved_file : option (snapshot * string)
}.

Section Keyboard.
Context (H : host).
(** [String.prototype.toUpperCase], a built-in of the host. *)
Context (toUpperCase : string -> string).

Definition quiet (hd : gmap string bool) (p : bool) : handled :=
  {| said := None; held := hd; prevented := p; saved_file := None |}.

Definition saying (m : notice) (hd : gmap string bool) (p : bool) : handled :=
  {| said := Some m; held := hd; prevented := p; saved_file := None |}.

(** A call of a store function whose result the handler drops. *)
Definition and_return {A : Type} (h : handled) (o : outcome A) : outcome handled :=
  match o with
  | Returned _ st => Returned h st
  | Uncaught e st => Uncaught e st
  end.

(** [keyTyped] (lines 197-233); [key] is p5's variable of that name. *)
Definition keyTyped (c : clock) (key : string) (hd : gmap string bool)
  (st : state) : outcome handled :=
  let k := toUpperCase key in
  if bool_decide (k ∈ LABELS) then
    if negb (recordMode st) then and_return (quiet hd false) (addExample H c k false st)
    else Returned (quiet hd false) st
  else if String.eqb k "/" then
    if negb (recordMode st)
    then and_return (quiet hd false) (addExample H c NONE_LABEL false st)
    else Returned (quiet hd false) st
  else if String.eqb k "." then
    and_return (quiet hd false) (undoLast H c st)
  else if String.eqb k " " then
    let st := set_isPredicting (negb (isPredicting st)) st in
    Returned
      (saying (if isPredicting st then MsgPredictionOn else MsgPredictionOff) hd false)
      st
  else if String.eqb k "1" then
    Returned {| said := Some MsgExported; held := hd; prevented := false;
                saved_file := Some (exportDataset c st) |} st
  else if String.eqb k "0" then
    Returned (saying MsgChooseFile hd false) (set_importShown true st)
  else Returned (quiet hd false) st.

(** [keyPressed] (lines 235-266); [key] and [keyCode] are p5's. *)
Definition keyPressed (key : string) (keyCode : nat) (hd : gmap string bool)
  (st : state) : outcome handled :=
  if (keyCode =? BACKSPACE)%nat then Returned (quiet hd true) (clearAll st)
  else if String.eqb key "-" || String.eqb key "_" then
    let st := set_record (negb (recordMode st)) (recordLabel st) st in
    if negb (recordMode st)
    then Returned (saying MsgRecordOff hd true) (set_record (recordMode st) None st)
    else Returned (saying MsgRecordOn hd true) st
  else
    let k := toUpperCase key in
    let hd := <[k := true]> hd in
    if recordMode st then
      if bool_decide (k ∈ LABELS) then
        Returned (saying (MsgRecHold k) hd false)
          (set_lastRecordAt 0 (set_record (recordMode st) (Some k) st))
      else if String.eqb k "N" then
        Returned (saying (MsgRecHold NONE_LABEL) hd false)
          (set_lastRecordAt 0 (set_record (recordMode st) (Some NONE_LABEL) st))
      else Returned (quiet hd false) st
    else Returned (quiet hd false) st.

(** [keyReleased] (lines 268-280). *)
Definition keyReleased (key : string) (hd : gmap string bool) (st : state)
  : outcome handled :=
  let k := toUpperCase key in
  let hd := <[k := false]> hd in
  if recordMode st then
    let wasLetter := bool_decide (k ∈ LABELS)
                     && bool_decide (recordLabel st = Some k) in
    let wasNone := String.eqb k "N"
                   && bool_decide (recordLabel st = Some NONE_LABEL) in
    if wasLetter || wasNone
    then Returned (saying MsgRecPaused hd false)
           (set_record (recordMode st) None st)
    else Returned (quiet hd false) st
  else Returned (quiet hd false) st.

End Keyboard.

(** ** Notions used to state the further properties *)

(** The store has the canonical labels, and only them, as keys. *)
Definition store_keys (ex : gmap string (list jsval)) : Prop :=
  forall l, is_Some (ex !! l) <-> l ∈ ALL_LABELS.

(** How often the add history names label [l]. *)
Definition is_label (l : string) (v : jsval) : bool :=
  match v with
  | JStr s => String.eqb s l
  | _ => false
  end.

Definition history_count (l : string) (h : list jsval) : nat :=
  length (List.filter (is_label l) h).

(** Every entry of the add history is a label, and no label is named more
    often than it has examples. *)
Definition history_tracked (st : state) : Prop :=
  Forall (fun v => exists l, v = JStr l) (addHistory st) /\
  forall l, history_count l (addHistory st) <= label_count (examples st) l.

(** The label being recorded is a letter, and is set only in record mode. *)
Definition record_ok (st : state) : Prop :=
  match recordLabel st with
  | Some l => l ∈ LABELS /\ recordMode st = true
  | None => True
  end.

(** A state as the sketch builds it on its own: by adding, undoing,
    clearing and recording, with no data from outside. *)
Definition healthy (st : state) : Prop :=
  store_keys (examples st) /\ history_tracked st /\
  dataset_ok (examples st) /\ record_ok st.


(** The smoothing window holds at most [SMOOTH_N] labels, all canonical,
    the newest of them being [lastLabel]. *)
Definition window_ok (st : state) : Prop :=
  length (smoothQueue st) <= SMOOTH_N /\
  Forall (fun e => exists l, e = Some l /\ l ∈ ALL_LABELS) (smoothQueue st) /\
  lastLabel st = List.last (smoothQueue st) None.


(** A stored "vector" the distance loop cannot index. *)
Definition unreadable (v : jsval) : Prop := v = JNull \/ v = JUndefined.

(** A stored value on which the distance loop of a query of [n] numbers
    throws: it cannot be indexed, or one of the [n] entries the loop reads
    cannot be converted to a number. *)
Definition faulty (n : nat) (b : jsval) : Prop :=
  unreadable b \/
  exists i v, i < n /\ index_get b i = Ok v /\ unconvertible v = true.

(** A run of [addExample] calls that all return [true]. *)
Fixpoint add_all (H : host) (calls : list add_call) (st : state) : option state :=
  match calls with
  | [] => Some st
  | a :: rest =>
      match addExample H (call_clock a) (call_label a) (call_silent a) st with
      | Returned true st' => add_all H rest st'
      | _ => None
      end
  end.

(** [n] calls of [undoLast] in a row. *)
Fixpoint undo_times (H : host) (c : clock) (n : nat) (st : state) : outcome unit :=
  match n with
  | O => Returned tt st
  | S n' =>
      match undoLast H c st with
      | Returned _ st' => undo_times H c n' st'
      | Uncaught e st' => Uncaught e st'
      end
  end.

(** ** Runs of the sketch *)


Section Runs.
Context (H : host) (toUpperCase : string -> string).



End Runs.

(** A host whose [JSON.parse] yields a given value. *)
Definition host_parsing (v : jsval) : host :=
  {| Number_toString := Number_toString demo_host;
     String_toNumber := String_toNumber demo_host;
     String_trim := String_trim demo_host;
     JSON_parse := fun _ => Ok v;
     atob := atob demo_host;
     decodeURIComponent := decodeURIComponent demo_host;
     Math_atan2 := Math_atan2 demo_host;
     Math_cos := Math_cos demo_host;
     Math_sin := Math_sin demo_host |}.

(** The state after one example of A was added with an open hand in view. *)
Definition one_added : state :=
  final_state
    (addExample demo_host (at_time 1000) "A" false
       (gotHands (Some [open_hand]) initial_state)).

(** * Properties *)

(** ** Facts about binary64 comparison *)

Section FloatOrder.
Local Open Scope float_scope.

Lemma SFcompare_key x y :
  match SFcompare x y, sf_key x, sf_key y with
  | None, None, _ | None, _, None => True
  | Some Lt, Some a, Some b => key_lt a b
  | Some Gt, Some a, Some b => key_lt b a
  | Some Eq, Some a, Some b => a = b
  | _, _, _ => False
  end.
Proof.
  destruct x as [sx|sx| |sx mx ex], y as [sy|sy| |sy my ey]; cbn;
    repeat match goal with b : bool |- _ => destruct b end; cbn; unfold key_lt; cbn;
    try tauto; try lia; try reflexivity.
  - destruct (Z.compare_spec ex ey); subst; try lia.
    change (Pos.compare_cont Eq mx my) with (Pos.compare mx my).
    destruct (Pos.compare_spec mx my); subst; cbn; try reflexivity; lia.
  - destruct (Z.compare_spec ex ey); subst; try lia.
    change (Pos.compare_cont Eq mx my) with (Pos.compare mx my).
    destruct (Pos.compare_spec mx my); subst; cbn; try reflexivity; lia.
Qed.

Lemma key_lt_irrefl a : ~ key_lt a a.
Proof. unfold key_lt. lia. Qed.

Lemma key_lt_trans a b c : key_lt a b -> key_lt b c -> key_lt a c.
Proof. unfold key_lt. destruct a as [[? ?] ?], b as [[? ?] ?], c as [[? ?] ?]. cbn. lia. Qed.

Lemma key_lt_asym a b : key_lt a b -> ~ key_lt b a.
Proof. unfold key_lt. lia. Qed.

Ltac cmp_cases x y :=
  let Hk := fresh "Hk" in
  pose proof (SFcompare_key (Prim2SF x) (Prim2SF y)) as Hk;
  unfold fkey;
  destruct (SFcompare (Prim2SF x) (Prim2SF y)) as [[| |]|],
           (sf_key (Prim2SF x)), (sf_key (Prim2SF y));
  try contradiction; subst.

Ltac cmp_absurd :=
  exfalso;
  match goal with
  | H : key_lt ?a ?a |- _ => exact (key_lt_irrefl a H)
  | H1 : key_lt ?a ?b, H2 : key_lt ?b ?a |- _ => exact (key_lt_asym a b H1 H2)
  | H : ~ key_lt ?a ?b, H2 : key_lt ?a ?b |- _ => exact (H H2)
  | H : ~ key_lt ?a ?a -> False |- _ => exact (H (key_lt_irrefl a))
  end.

Lemma ltb_key x y :
  (x <? y) = true <-> exists a b, fkey x = Some a /\ fkey y = Some b /\ key_lt a b.
Proof.
  rewrite FloatAxioms.ltb_spec. unfold SFltb. cmp_cases x y.
  all: split;
    [ intros Hb; try discriminate Hb; eauto
    | intros (a' & b' & Ha & Hb & Hlt); try discriminate;
      simplify_eq;
      first [reflexivity | cmp_absurd] ].
Qed.

Lemma eqb_key x y :
  (x =? y) = true <-> exists a, fkey x = Some a /\ fkey y = Some a.
Proof.
  rewrite FloatAxioms.eqb_spec. unfold SFeqb. cmp_cases x y.
  all: split;
    [ intros Hb; try discriminate Hb; eauto
    | intros (a' & Ha & Hb); try discriminate;
      simplify_eq;
      first [reflexivity | cmp_absurd] ].
Qed.

Lemma leb_key x y :
  (x <=? y) = true <-> exists a b, fkey x = Some a /\ fkey y = Some b /\ ~ key_lt b a.
Proof.
  rewrite FloatAxioms.leb_spec. unfold SFleb. cmp_cases x y.
  all: split;
    [ intros Hb; try discriminate Hb;
      eexists _, _; repeat split; eauto using key_lt_irrefl, key_lt_asym
    | intros (a' & b' & Ha & Hb & Hlt); try discriminate;
      simplify_eq;
      first [reflexivity | cmp_absurd] ].
Qed.

Lemma key_lt_total a b : key_lt a b \/ a = b \/ key_lt b a.
Proof.
  unfold key_lt. destruct a as [[a1 a2] a3], b as [[b1 b2] b3]. cbn.
  destruct (Z.lt_trichotomy a1 b1) as [|[->|]]; [lia| |lia].
  destruct (Z.lt_trichotomy a2 b2) as [|[->|]]; [lia| |lia].
  destruct (Z.lt_trichotomy a3 b3) as [|[->|]]; [lia|auto|lia].
Qed.

Lemma ltb_trans x y z : (x <? y) = true -> (y <? z) = true -> (x <? z) = true.
Proof.
  rewrite !ltb_key. intros (a & b & Ha & Hb & Hab) (b' & c & Hb' & Hc & Hbc).
  assert (b' = b) as -> by congruence.
  eauto 6 using key_lt_trans.
Qed.

Lemma leb_ltb_false x y : (x <=? y) = true -> (y <? x) = false.
Proof.
  rewrite leb_key. intros (a & b & Ha & Hb & Hn).
  apply not_true_is_false. rewrite ltb_key. intros (b' & a' & Hb' & Ha' & Hlt).
  assert (a' = a) as -> by congruence. assert (b' = b) as -> by congruence. auto.
Qed.

Lemma leb_neq_ltb x y : (x <=? y) = true -> (x =? y) = false -> (x <? y) = true.
Proof.
  rewrite leb_key. intros (a & b & Ha & Hb & Hn) Hne.
  apply ltb_key. exists a, b. repeat split; auto.
  destruct (key_lt_total a b) as [|[->|]]; auto; [|contradiction].
  exfalso. apply not_true_iff_false in Hne. apply Hne, eqb_key. eauto.
Qed.

Lemma eqb_ltb_l x y z : (x =? y) = true -> (x <? z) = (y <? z).
Proof.
  rewrite eqb_key. intros (a & Ha & Hb).
  apply eq_true_iff_eq. rewrite !ltb_key.
  split; intros (a' & c & Ha' & Hc & Hlt); exists a, c;
    (assert (a' = a) as -> by congruence); auto.
Qed.

Lemma eqb_ltb_r x y z : (x =? y) = true -> (z <? x) = (z <? y).
Proof.
  rewrite eqb_key. intros (a & Ha & Hb).
  apply eq_true_iff_eq. rewrite !ltb_key.
  split; intros (c & a' & Hc & Ha' & Hlt); exists c, a;
    (assert (a' = a) as -> by congruence); auto.
Qed.

Lemma eqb_leb_ltb_false x y z : (x =? y) = true -> (z <=? y) = true -> (x <? z) = false.
Proof.
  intros Heq Hle. rewrite (eqb_ltb_l _ _ _ Heq). apply leb_ltb_false, Hle.
Qed.

End FloatOrder.


(** ** Facts about binary64 arithmetic *)

Section FloatArith.
Local Open Scope float_scope.

Lemma SFeqb_refl_finite x :
  match x with S754_zero _ | S754_finite _ _ _ => SFeqb x x = true | _ => True end.
Proof.
  destruct x as [s|s| |s m e]; try exact I; [reflexivity|].
  unfold SFeqb. cbn. rewrite Z.compare_refl.
  change (Pos.compare_cont Eq m m) with (Pos.compare m m).
  rewrite Pos.compare_refl. destruct s; reflexivity.
Qed.

Lemma is_finite_SF x :
  is_finite x
  = match Prim2SF x with
    | S754_zero _ | S754_finite _ _ _ => true
    | _ => false
    end.
Proof.
  unfold is_finite, is_nan, is_infinity.
  rewrite !FloatAxioms.eqb_spec, abs_spec.
  pose proof (SFeqb_refl_finite (Prim2SF x)) as Hrefl.
  destruct (Prim2SF x) as [s|s| |s m e]; try rewrite Hrefl; try reflexivity.
  destruct s; reflexivity.
Qed.

Lemma SFsub_diag x :
  match x with
  | S754_zero _ | S754_finite _ _ _ => SF64sub x x = S754_zero false
  | _ => SF64sub x x = S754_nan
  end.
Proof.
  destruct x as [[]|[]| |s m e]; try reflexivity.
  unfold SF64sub, SFsub. rewrite Z.min_id. unfold shl_align.
  match goal with |- context [match ?t with Z.neg _ => _ | _ => _ end] =>
    replace t with 0%Z by (symmetry; apply Z.sub_diag) end.
  cbn [fst].
  match goal with |- binary_normalize _ _ ?t _ _ = _ =>
    replace t with 0%Z by (symmetry; apply Z.sub_diag) end.
  reflexivity.
Qed.

Lemma sub_diag x : is_finite x = true -> x - x = 0.
Proof.
  rewrite is_finite_SF. intros Hfin. apply Prim2SF_inj. rewrite sub_spec.
  pose proof (SFsub_diag (Prim2SF x)) as Hd.
  destruct (Prim2SF x); try discriminate; rewrite Hd; reflexivity.
Qed.

Lemma sub_diag_not_positive x : (0 <? x - x) = false.
Proof.
  rewrite FloatAxioms.ltb_spec, sub_spec.
  pose proof (SFsub_diag (Prim2SF x)) as Hd.
  destruct (Prim2SF x); rewrite Hd; reflexivity.
Qed.

Lemma binary_round_aux_sign sx mx ex lx :
  match binary_round_aux prec emax sx mx ex lx with
  | S754_zero s | S754_infinity s | S754_finite s _ _ => s = sx
  | S754_nan => True
  end.
Proof.
  unfold binary_round_aux.
  destruct (shr_fexp prec emax mx ex lx) as [mrs' e'].
  destruct (shr_fexp prec emax _ e' loc_Exact) as [mrs'' e''].
  destruct (shr_m mrs''); [reflexivity| |exact I].
  destruct (Z.leb e'' _); reflexivity.
Qed.

(** A square root is never below zero. *)
Lemma SFsqrt_sign x :
  match SF64sqrt x with
  | S754_infinity s | S754_finite s _ _ => s = false
  | _ => True
  end.
Proof.
  destruct x as [s|[]| |[] m e]; cbn; try exact I; try reflexivity.
  destruct (SFsqrt_core_binary prec emax (Z.pos m) e) as [[mz ez] lz].
  pose proof (binary_round_aux_sign false mz ez lz) as Hs.
  destruct (binary_round_aux prec emax false mz ez lz); auto.
Qed.

Lemma zero_sub_sqrt_not_positive s : (0 <? 0 - PrimFloat.sqrt s) = false.
Proof.
  rewrite FloatAxioms.ltb_spec, sub_spec, sqrt_spec.
  pose proof (SFsqrt_sign (Prim2SF s)) as Hs.
  change (Prim2SF 0) with (S754_zero false).
  destruct (SF64sqrt (Prim2SF s)) as [[]|sq| |sq m e]; subst; reflexivity.
Qed.


End FloatArith.


(** ** The sign of a rounded difference *)

Section Rounding.
Local Open Scope Z_scope.


Abbreviation emin := (SpecFloat.emin prec emax).

Lemma digits2_pos_bounds (p : positive) :
  2 ^ (Z.pos (digits2_pos p) - 1) <= Z.pos p < 2 ^ Z.pos (digits2_pos p).
Proof.
  induction p as [p IH|p IH|]; cbn [digits2_pos].
  - rewrite Pos2Z.inj_succ. replace (Z.succ (Z.pos (digits2_pos p)) - 1)
      with (Z.succ (Z.pos (digits2_pos p) - 1)) by lia.
    rewrite !Z.pow_succ_r by lia. lia.
  - rewrite Pos2Z.inj_succ. replace (Z.succ (Z.pos (digits2_pos p)) - 1)
      with (Z.succ (Z.pos (digits2_pos p) - 1)) by lia.
    rewrite !Z.pow_succ_r by lia. lia.
  - cbn. lia.
Qed.

Lemma shr_1_m mrs : 0 <= shr_m mrs -> shr_m (shr_1 mrs) = shr_m mrs / 2.
Proof.
  destruct mrs as [m r s]. cbn [shr_m]. intros Hm. unfold shr_1.
  destruct m as [|[p|p|]|p]; cbn [shr_m]; try lia; try reflexivity.
  - apply (Z.div_unique_pos _ _ _ 1); lia.
  - apply (Z.div_unique_pos _ _ _ 0); lia.
Qed.

Lemma iter_shr_1_m (p : positive) :
  forall mrs, 0 <= shr_m mrs ->
    shr_m (SpecFloat.iter_pos shr_1 p mrs) = shr_m mrs / 2 ^ Z.pos p.
Proof.
  assert (Hhalf : forall mrs, 0 <= shr_m mrs -> 0 <= shr_m (shr_1 mrs)).
  { intros mrs Hm. rewrite shr_1_m by assumption. apply Z.div_pos; lia. }
  induction p as [p IH|p IH|]; intros mrs Hm; cbn [SpecFloat.iter_pos].
  - assert (H1 := Hhalf mrs Hm).
    assert (H2 : 0 <= shr_m (SpecFloat.iter_pos shr_1 p (shr_1 mrs)))
      by (rewrite IH by assumption; apply Z.div_pos; lia).
    assert (Hpow : 2 ^ Z.pos p~1 = 2 * 2 ^ Z.pos p * 2 ^ Z.pos p).
    { rewrite (Pos2Z.inj_xI p), Z.add_1_r, Z.pow_succ_r, Z.pow_twice_r by lia. ring. }
    rewrite IH, IH, shr_1_m, Hpow by assumption.
    rewrite !Z.div_div by lia. f_equal. ring.
  - assert (H2 : 0 <= shr_m (SpecFloat.iter_pos shr_1 p mrs))
      by (rewrite IH by assumption; apply Z.div_pos; lia).
    assert (Hpow : 2 ^ Z.pos p~0 = 2 ^ Z.pos p * 2 ^ Z.pos p).
    { rewrite (Pos2Z.inj_xO p), Z.pow_twice_r. reflexivity. }
    rewrite IH, IH, Hpow by assumption.
    rewrite !Z.div_div by lia. f_equal.
  - rewrite shr_1_m by assumption. reflexivity.
Qed.

Lemma shr_record_of_loc_m m l : shr_m (shr_record_of_loc m l) = m.
Proof. destruct l as [|[]]; reflexivity. Qed.

Lemma shr_fexp_positive m e l :
  1 <= m -> emin <= e ->
  1 <= shr_m (shr_fexp prec emax m e l).1 /\ emin <= (shr_fexp prec emax m e l).2.
Proof.
  intros Hm He. unfold shr_fexp, shr.
  destruct m as [|p|p]; try lia. cbn [Zdigits2].
  pose proof (digits2_pos_bounds p) as [Hlow _].
  set (d := Z.pos (digits2_pos p)) in *.
  destruct (fexp prec emax (d + e) - e) as [|n|n] eqn:Hn; cbn [fst snd];
    rewrite ?shr_record_of_loc_m; try lia.
  unfold fexp in Hn. change (SpecFloat.emin prec emax) with (-1074) in *.
  change prec with 53 in *.
  assert (Hd : d - 53 = Z.pos n) by lia.
  split; [|lia].
  rewrite iter_shr_1_m by (rewrite shr_record_of_loc_m; lia).
  rewrite shr_record_of_loc_m.
  apply Z.div_le_lower_bound; [lia|].
  replace (d - 1) with (Z.pos n + 52) in Hlow by lia.
  rewrite Z.pow_add_r in Hlow by lia.
  assert (0 < 2 ^ Z.pos n) by lia. nia.
Qed.

Lemma round_nearest_even_ge m l : m <= round_nearest_even m l.
Proof. destruct l as [|[]]; cbn; try lia. destruct (Z.even m); lia. Qed.

Lemma binary_round_aux_positive m e l :
  1 <= m -> emin <= e ->
  match binary_round_aux prec emax false m e l with
  | S754_finite false _ _ | S754_infinity false => True
  | _ => False
  end.
Proof.
  intros Hm He. unfold binary_round_aux.
  pose proof (shr_fexp_positive m e l Hm He) as [Hm1 He1].
  destruct (shr_fexp prec emax m e l) as [mrs' e']. cbn [fst snd] in *.
  pose proof (round_nearest_even_ge (shr_m mrs') (loc_of_shr_record mrs')) as Hr.
  pose proof (shr_fexp_positive _ e' loc_Exact (Z.le_trans _ _ _ Hm1 Hr) He1)
    as [Hm2 _].
  destruct (shr_fexp prec emax _ e' loc_Exact) as [mrs'' e'']. cbn [fst snd] in *.
  destruct (shr_m mrs''); try lia.
  destruct (_ <=? _); exact I.
Qed.

Lemma binary_round_positive m e :
  emin <= e ->
  match binary_round prec emax false m e with
  | S754_finite false _ _ | S754_infinity false => True
  | _ => False
  end.
Proof.
  intros He. unfold binary_round, shl_align.
  set (target := fexp prec emax (Z.pos (digits2_pos m) + e)).
  assert (Ht : emin <= target) by (unfold target, fexp; lia).
  destruct (target - e); apply binary_round_aux_positive; lia.
Qed.

Lemma shl_align_value m e ez :
  ez <= e -> Z.pos (shl_align m e ez).1 = Z.pos m * 2 ^ (e - ez).
Proof.
  intros Hle. unfold shl_align.
  destruct (ez - e) as [|d|d] eqn:Hd; cbn [fst]; try lia.
  - replace (e - ez) with 0 by lia. lia.
  - replace (e - ez) with (Z.pos d) by lia.
    change (Pos.iter xO m d) with (shift_pos d m).
    rewrite shift_pos_correct. change (Z.pow_pos 2 d) with (2 ^ Z.pos d). lia.
Qed.

(** What validity says about a finite value. *)
Lemma bounded_canonical m e :
  bounded prec emax m e = true ->
  Z.pos (digits2_pos m) <= 53 /\ emin <= e /\
  (Z.pos (digits2_pos m) = 53 \/ e = emin).
Proof.
  unfold bounded, canonical_mantissa, fexp.
  change (SpecFloat.emin prec emax) with (-1074). change prec with 53.
  intros [Hc _]%andb_prop. apply Z.eqb_eq in Hc. lia.
Qed.

(** Aligned mantissas of valid values compare as exponent, then mantissa. *)
Lemma aligned_lt m1 e1 m2 e2 :
  bounded prec emax m1 e1 = true -> bounded prec emax m2 e2 = true ->
  Z.pos (shl_align m1 e1 (Z.min e1 e2)).1 < Z.pos (shl_align m2 e2 (Z.min e1 e2)).1
  <-> e1 < e2 \/ (e1 = e2 /\ Z.pos m1 < Z.pos m2).
Proof.
  intros [Hd1 [He1 Hn1]]%bounded_canonical [Hd2 [He2 Hn2]]%bounded_canonical.
  change (SpecFloat.emin prec emax) with (-1074) in *.
  rewrite !shl_align_value by lia.
  pose proof (digits2_pos_bounds m1) as [Hl1 Hu1].
  pose proof (digits2_pos_bounds m2) as [Hl2 Hu2].
  assert (Hcap : forall d, d <= 53 -> 2 ^ d <= 2 ^ 53)
    by (intros d Hd; apply Z.pow_le_mono_r; lia).
  assert (Hstep : forall k, 1 <= k -> 2 <= 2 ^ k).
  { intros k Hk. change 2 with (2 ^ 1) at 1. apply Z.pow_le_mono_r; lia. }
  change (2 ^ 53) with 9007199254740992 in Hcap.
  destruct (Z.lt_trichotomy e1 e2) as [Hlt|[Heq|Hgt]].
  - rewrite Z.min_l by lia. replace (e1 - e1) with 0 by lia.
    assert (Z.pos (digits2_pos m2) = 53) as Hfull by lia.
    rewrite Hfull in Hl2. change (2 ^ (53 - 1)) with 4503599627370496 in Hl2.
    specialize (Hcap _ Hd1). specialize (Hstep (e2 - e1) ltac:(lia)).
    change (2 ^ 0) with 1. split; [auto|intros _]. nia.
  - subst e2. rewrite Z.min_id. replace (e1 - e1) with 0 by lia.
    change (2 ^ 0) with 1. lia.
  - rewrite Z.min_r by lia. replace (e2 - e2) with 0 by lia.
    assert (Z.pos (digits2_pos m1) = 53) as Hfull by lia.
    rewrite Hfull in Hl1. change (2 ^ (53 - 1)) with 4503599627370496 in Hl1.
    specialize (Hcap _ Hd2). specialize (Hstep (e1 - e2) ltac:(lia)).
    change (2 ^ 0) with 1. split; [nia|lia].
Qed.

Lemma binary_round_sign s m e :
  match binary_round prec emax s m e with
  | S754_zero s' | S754_infinity s' | S754_finite s' _ _ => s' = s
  | S754_nan => True
  end.
Proof.
  unfold binary_round. destruct (shl_align m e _) as [mz ez].
  unfold binary_round_aux.
  destruct (shr_fexp prec emax (Z.pos mz) ez loc_Exact) as [mrs' e'].
  destruct (shr_fexp prec emax _ e' loc_Exact) as [mrs'' e''].
  destruct (shr_m mrs''); [reflexivity| |exact I].
  destruct (Z.leb e'' _); reflexivity.
Qed.

(** The sign of a difference of two valid finite values is decided by
    comparing them: rounding never turns a non-zero difference into zero. *)
Lemma SFsub_positive X Y :
  valid_binary X = true -> valid_binary Y = true ->
  SFltb (S754_zero false) (SF64sub X Y) = SFltb Y X.
Proof.
  intros HX HY.
  destruct X as [sx|sx| |sx mx ex], Y as [sy|sy| |sy my ey];
    try (repeat match goal with b : bool |- _ => destruct b end; reflexivity).
  - cbn [SpecFloat.valid_binary] in HX, HY.
    pose proof (aligned_lt mx ex my ey HX HY) as Hxy.
    pose proof (aligned_lt my ey mx ex HY HX) as Hyx.
    rewrite (Z.min_comm ey ex) in Hyx.
    pose proof (bounded_canonical mx ex HX) as (_ & Hex & _).
    pose proof (bounded_canonical my ey HY) as (_ & Hey & _).
    unfold SF64sub, SFsub.
    set (ax := Z.pos (shl_align mx ex (Z.min ex ey)).1) in *.
    set (ay := Z.pos (shl_align my ey (Z.min ex ey)).1) in *.
    assert (Hax : 0 < ax) by (unfold ax; lia).
    assert (Hay : 0 < ay) by (unfold ay; lia).
    assert (Hsign :
              SFltb (S754_zero false)
                (binary_normalize prec emax (cond_Zopp sx ax - cond_Zopp sy ay)
                   (Z.min ex ey) false)
              = (0 <? cond_Zopp sx ax - cond_Zopp sy ay)).
    { destruct (cond_Zopp sx ax - cond_Zopp sy ay) as [|m|m]; cbn [binary_normalize].
      - reflexivity.
      - pose proof (binary_round_positive m (Z.min ex ey) ltac:(lia)) as Hpos.
        destruct (binary_round prec emax false m (Z.min ex ey)) as [[]|[]| |[] ? ?];
          try contradiction; reflexivity.
      - pose proof (binary_round_sign true m (Z.min ex ey)) as Hneg.
        destruct (binary_round prec emax true m (Z.min ex ey)) as [[]|[]| |[] ? ?];
          try discriminate; reflexivity. }
    rewrite Hsign. unfold SFltb, SFcompare.
    change (Pos.compare_cont Eq my mx) with (Pos.compare my mx).
    destruct sx, sy; cbn [cond_Zopp].
    + (* both negative *)
      destruct (Z.compare_spec ey ex) as [Heq|Hlt|Hgt].
      * destruct (Pos.compare_spec my mx) as [Hm|Hm|Hm]; cbn [CompOpp];
          apply eq_true_iff_eq; rewrite Z.ltb_lt; split; try discriminate;
          try reflexivity; intros; lia.
      * apply eq_true_iff_eq; rewrite Z.ltb_lt; split; try discriminate; intros; lia.
      * apply eq_true_iff_eq; rewrite Z.ltb_lt; split; try reflexivity; intros; lia.
    + apply Z.ltb_ge. lia.
    + apply Z.ltb_lt. lia.
    + destruct (Z.compare_spec ey ex) as [Heq|Hlt|Hgt].
      * destruct (Pos.compare_spec my mx) as [Hm|Hm|Hm];
          apply eq_true_iff_eq; rewrite Z.ltb_lt; split; try discriminate;
          try reflexivity; intros; lia.
      * apply eq_true_iff_eq; rewrite Z.ltb_lt; split; try reflexivity; intros; lia.
      * apply eq_true_iff_eq; rewrite Z.ltb_lt; split; try discriminate; intros; lia.
Qed.

(** The comparator [a - b > 0] of a sort says exactly [b < a]. *)
Lemma sub_positive_ltb (x y : float) : (0 <? x - y)%float = (y <? x)%float.
Proof.
  rewrite !FloatAxioms.ltb_spec, sub_spec.
  change (Prim2SF 0) with (S754_zero false).
  apply SFsub_positive; apply Prim2SF_valid.
Qed.

End Rounding.

(** ** Association lists in creation order *)

Section AssocFacts.
Context {A : Type}.
Implicit Types (l : list (string * A)) (k : string) (v : A).

Lemma assoc_get_set_eq k v l : assoc_get k (assoc_set k v l) = Some v.
Proof.
  induction l as [|[k' v'] l IH]; cbn.
  - rewrite String.eqb_refl. reflexivity.
  - destruct (String.eqb k k') eqn:E; cbn; rewrite ?String.eqb_refl, ?E; auto.
Qed.

Lemma assoc_get_set_ne k k' v l :
  k <> k' -> assoc_get k' (assoc_set k v l) = assoc_get k' l.
Proof.
  intros Hne. induction l as [|[k0 v0] l IH]; cbn.
  - apply String.eqb_neq in Hne. rewrite String.eqb_sym, Hne. reflexivity.
  - destruct (String.eqb k k0) eqn:E; cbn.
    + apply String.eqb_eq in E. subst k0.
      replace (String.eqb k' k) with false; [reflexivity|].
      symmetry. apply String.eqb_neq. congruence.
    + rewrite IH. reflexivity.
Qed.

Lemma assoc_set_keys k v l :
  map fst (assoc_set k v l)
  = if bool_decide (k ∈ map fst l) then map fst l else (map fst l ++ [k])%list.
Proof.
  induction l as [|[k0 v0] l IH]; cbn.
  - rewrite bool_decide_eq_false_2 by apply not_elem_of_nil. reflexivity.
  - destruct (String.eqb k k0) eqn:E; cbn.
    + apply String.eqb_eq in E. subst k0.
      rewrite bool_decide_eq_true_2 by apply list_elem_of_here. reflexivity.
    + apply String.eqb_neq in E. rewrite IH.
      destruct (decide (k ∈ map fst l)) as [Hin|Hnin].
      * rewrite !bool_decide_eq_true_2; auto using list_elem_of_further.
      * rewrite !bool_decide_eq_false_2; auto.
        rewrite elem_of_cons. tauto.
Qed.

Lemma assoc_set_NoDup k v l : NoDup (map fst l) -> NoDup (map fst (assoc_set k v l)).
Proof.
  intros Hnd. rewrite assoc_set_keys. case_bool_decide; [assumption|].
  apply NoDup_app. repeat split; auto.
  - intros x Hx Hk. apply list_elem_of_singleton in Hk. congruence.
  - apply NoDup_singleton.
Qed.

Lemma assoc_get_Some_In k v l : assoc_get k l = Some v -> (k, v) ∈ l.
Proof.
  induction l as [|[k0 v0] l IH]; cbn; [discriminate|].
  destruct (String.eqb k k0) eqn:E.
  - apply String.eqb_eq in E. intros [= ->]. subst. apply list_elem_of_here.
  - intros Hget. apply list_elem_of_further, IH, Hget.
Qed.

Lemma In_assoc_get k v l :
  NoDup (map fst l) -> (k, v) ∈ l -> assoc_get k l = Some v.
Proof.
  induction l as [|[k0 v0] l IH]; cbn; intros Hnd Hin.
  - apply elem_of_nil in Hin. contradiction.
  - apply NoDup_cons in Hnd as [Hk0 Hnd].
    apply elem_of_cons in Hin as [[= -> ->]|Hin].
    + rewrite String.eqb_refl. reflexivity.
    + destruct (String.eqb k k0) eqn:E; [|auto].
      apply String.eqb_eq in E. subst k0. exfalso. apply Hk0.
      apply list_elem_of_fmap. exists (k, v). auto.
Qed.

End AssocFacts.

(** ** Feature extraction *)


Lemma flat_map_pairs_length {A : Type} (f g : nat -> A) (l : list nat) :
  length (flat_map (fun j => [f j; g j]) l) = 2 * length l.
Proof. induction l as [|x l IH]; cbn [flat_map length app]; lia. Qed.

Section FeatureFacts.
Context (H : host).
Local Open Scope float_scope.



End FeatureFacts.



Lemma normalized_features_length (H : host) lm :
  length (normalized_features H lm) = 42.
Proof. unfold normalized_features. rewrite flat_map_pairs_length. reflexivity. Qed.



(** ** The example store: add, undo *)

Section StoreFacts.
Context (H : host).

Lemma addExample_success c l silent st st1 :
  addExample H c l silent st = Returned true st1 ->
  exists feats arr,
    getHandFeatures H (hands st) = Some feats /\
    examples st !! l = Some arr /\
    examples st1 = <[l := (arr ++ [JArr (map JNum feats)])%list]> (examples st) /\
    addHistory st1 = (addHistory st ++ [JStr l])%list.
Proof.
  unfold addExample.
  destruct (negb silent && _); [discriminate|].
  cbn [hands set_lastAddAt].
  destruct (getHandFeatures H (hands st)) as [feats|]; [|discriminate].
  cbn [examples set_lastAddAt].
  destruct (examples st !! l) as [arr|] eqn:Harr; [|discriminate].
  intros Heq. exists feats, arr.
  injection Heq as <-.
  destruct silent; cbn; auto.
Qed.

Lemma undoLast_after_push c st h l arr v :
  addHistory st = (h ++ [JStr l])%list ->
  examples st !! l = Some (arr ++ [v])%list ->
  exists st2,
    undoLast H c st = Returned tt st2 /\
    examples st2 = <[l := arr]> (examples st) /\
    addHistory st2 = h /\
    statusMsg st2 = MsgUndid l.
Proof.
  intros Hh Hex. unfold undoLast.
  destruct (addHistory st) as [|x rest] eqn:Hhist.
  { symmetry in Hh. apply app_eq_nil in Hh as [_ Hh]. discriminate. }
  rewrite Hh, last_last, removelast_last.
  cbn [js_to_string examples set_addHistory].
  rewrite Hex, length_app. cbn [length].
  replace (0 <? length arr + 1)%nat with true
    by (symmetry; apply Nat.ltb_lt; lia).
  rewrite removelast_last.
  eexists; split; [reflexivity|]. cbn. auto.
Qed.

End StoreFacts.

(** C2.  An [addExample] that succeeds, immediately followed by [undoLast],
    leaves the dataset and the add history exactly as they were before the
    add; and [undoLast] on an empty history only sets the status to
    "Nothing to undo". *)
Theorem add_then_undo_restores (H : host) :
  (forall c c' l silent st st1,
      addExample H c l silent st = Returned true st1 ->
      exists st2,
        undoLast H c' st1 = Returned tt st2 /\
        examples st2 = examples st /\
        addHistory st2 = addHistory st)
  /\
  (forall c st,
      addHistory st = [] ->
      undoLast H c st = Returned tt (set_statusMsg MsgNothingToUndo st)).
Proof.
  split.
  - intros c c' l silent st st1 Hadd.
    destruct (addExample_success H c l silent st st1 Hadd)
      as (feats & arr & _ & Harr & Hex & Hhist).
    destruct (undoLast_after_push H c' st1 (addHistory st) l arr
                (JArr (map JNum feats)) Hhist) as (st2 & Hundo & Hex2 & Hh2 & _).
    { rewrite Hex. apply lookup_insert_eq. }
    exists st2. split; [exact Hundo|]. split; [|exact Hh2].
    rewrite Hex2, Hex, insert_insert_eq. apply insert_id, Harr.
  - intros c st Hnil. unfold undoLast. rewrite Hnil. reflexivity.
Qed.

(** The first part of C2 at a concrete state: an open hand in view, the
    letter A, starting from the initial state. *)
Lemma add_then_undo_restores_witness :
  exists st1 st2,
    addExample demo_host (at_time 1000) "A" false
      (gotHands (Some [open_hand]) initial_state) = Returned true st1 /\
    undoLast demo_host (at_time 2000) st1 = Returned tt st2 /\
    examples st2 = empty_examples /\ addHistory st2 = [].
Proof.
  destruct (addExample demo_host (at_time 1000) "A" false
              (gotHands (Some [open_hand]) initial_state)) as [[|] st1|e st1] eqn:Hadd;
    try (vm_compute in Hadd; discriminate).
  destruct (proj1 (add_then_undo_restores demo_host) _ (at_time 2000) _ _ _ _ Hadd)
    as (st2 & Hundo & Hex & Hh).
  exists st1, st2. repeat split; assumption.
Defined.

(** ** The debounce window of [addExample] *)

Section DebounceFacts.
Context (H : host).

Lemma addExample_debounced c l st :
  (millis c - lastAddAt st <? ADD_DEBOUNCE_MS)%float = true ->
  addExample H c l false st = Returned false st.
Proof. intros Hlt. unfold addExample. cbn [negb andb]. rewrite Hlt. reflexivity. Qed.

Lemma addExample_restarts_window c l silent st :
  (negb silent && (millis c - lastAddAt st <? ADD_DEBOUNCE_MS)%float) = false ->
  lastAddAt (final_state (addExample H c l silent st)) = millis c.
Proof.
  intros Hpass. unfold addExample. rewrite Hpass.
  cbn [hands examples set_lastAddAt].
  destruct (getHandFeatures H (hands st)); [|destruct silent; reflexivity].
  destruct (examples st !! l); [destruct silent|]; reflexivity.
Qed.

Lemma addExample_lastAddAt a st :
  lastAddAt (final_state
               (addExample H (call_clock a) (call_label a) (call_silent a) st))
  = if passes_debounce (lastAddAt st) a then millis (call_clock a)
    else lastAddAt st.
Proof.
  unfold passes_debounce.
  destruct (negb (call_silent a)
            && (millis (call_clock a) - lastAddAt st <? ADD_DEBOUNCE_MS)%float)
    eqn:Hgate; cbn [negb].
  - apply andb_prop in Hgate as [Hsilent Hlt].
    apply negb_true_iff in Hsilent. rewrite Hsilent.
    rewrite addExample_debounced by exact Hlt. reflexivity.
  - apply addExample_restarts_window, Hgate.
Qed.

Lemma run_adds_lastAddAt calls :
  forall st, lastAddAt (run_adds H calls st) = last_pass_time (lastAddAt st) calls.
Proof.
  induction calls as [|a calls IH]; intros st; [reflexivity|].
  unfold run_adds, last_pass_time in *. cbn [fold_left].
  rewrite IH, addExample_lastAddAt. reflexivity.
Qed.

End DebounceFacts.

(** C7, as the code has it.  After any sequence of [addExample] calls,
    [lastAddAt] is the time of the last call that got past the debounce
    test, silent or not and whether or not it found a hand.  The next call
    is turned away with no mutation when it is non-silent and less than
    [ADD_DEBOUNCE_MS] has passed since that time; otherwise it restarts the
    window.  A silent call always gets past the test. *)
Theorem debounce_window (H : host) (calls : list add_call) (st : state)
  (a : add_call) :
  let st' := run_adds H calls st in
  let since := last_pass_time (lastAddAt st) calls in
  let out := addExample H (call_clock a) (call_label a) (call_silent a) st' in
  lastAddAt st' = since /\
  passes_debounce since a
  = (call_silent a || negb (millis (call_clock a) - since <? ADD_DEBOUNCE_MS)%float) /\
  (if passes_debounce since a
   then lastAddAt (final_state out) = millis (call_clock a)
   else out = Returned false st').
Proof.
  cbn zeta. rewrite <- (run_adds_lastAddAt H calls st).
  split; [reflexivity|]. split.
  - unfold passes_debounce. destruct (call_silent a), (_ <? _)%float; reflexivity.
  - pose proof (addExample_lastAddAt H a (run_adds H calls st)) as Hlast.
    destruct (passes_debounce (lastAddAt (run_adds H calls st)) a) eqn:Hpass;
      [exact Hlast|].
    unfold passes_debounce in Hpass. apply negb_false_iff, andb_prop in Hpass.
    destruct Hpass as [Hsilent Hlt]. apply negb_true_iff in Hsilent.
    destruct a as [c l silent]. cbn in *. subst silent.
    apply addExample_debounced, Hlt.
Qed.

(** C7 as worded fails: with the window measured from the last non-silent
    add, a non-silent add 100 ms after a silent one (and 4100 ms after the
    last non-silent one) would be let through; the code turns it away. *)
Lemma debounce_counts_silent_adds :
  ~ (exists H : host,
        forall (calls : list add_call) (st : state) (c : clock) (l : string),
          addExample H c l false (run_adds H calls st)
          = Returned false (run_adds H calls st)
          <-> (millis c - spec_last_nonsilent_time (lastAddAt st) calls
               <? ADD_DEBOUNCE_MS)%float = true).
Proof.
  intros [H Hclaim].
  pose
    (calls := [ {| call_clock := at_time 1000; call_label := "A"; call_silent := false |};
                {| call_clock := at_time 5000; call_label := "A"; call_silent := true |} ]).
  specialize (Hclaim calls (gotHands (Some [open_hand]) initial_state)
                (at_time 5100) "B").
  destruct Hclaim as [Hclaim _].
  assert (Hrejected :
            addExample H (at_time 5100) "B" false
              (run_adds H calls (gotHands (Some [open_hand]) initial_state))
            = Returned false
                (run_adds H calls (gotHands (Some [open_hand]) initial_state))).
  { apply addExample_debounced. rewrite run_adds_lastAddAt.
    vm_compute. reflexivity. }
  specialize (Hclaim Hrejected). vm_compute in Hclaim. discriminate.
Qed.
(** ** Import and clear *)

Lemma foldl_insert_lookup (f : string -> list jsval) (labels : list string) :
  forall (m : gmap string (list jsval)) (l : string),
    foldl (fun m l => <[l := f l]> m) m labels !! l
    = if bool_decide (l ∈ labels) then Some (f l) else m !! l.
Proof.
  induction labels as [|x xs IH]; intros m l; cbn [foldl].
  - rewrite bool_decide_eq_false_2 by apply not_elem_of_nil. reflexivity.
  - rewrite IH. destruct (decide (l ∈ xs)) as [Hin|Hnin].
    + rewrite !bool_decide_eq_true_2; auto using list_elem_of_further.
    + rewrite (bool_decide_eq_false_2 (l ∈ xs)) by assumption.
      destruct (decide (l = x)) as [->|Hne].
      * rewrite lookup_insert_eq, bool_decide_eq_true_2; auto using list_elem_of_here.
      * rewrite lookup_insert_ne by congruence.
        rewrite bool_decide_eq_false_2; [reflexivity|].
        rewrite elem_of_cons. tauto.
Qed.

Section ImportFacts.
Context (H : host).

(** A failed [try] block only reaches the [catch]. *)
Lemma handleImport_failure c f st e :
  import_payload H c f (set_importShown false st) = Throw e ->
  exists reason,
    handleImport H c (Some f) st
    = set_statusMsg (MsgImportFailed reason) (set_importShown false st).
Proof.
  intros Hthrow. unfold handleImport. rewrite Hthrow. eexists. reflexivity.
Qed.

Lemma import_payload_cases c f st :
  (exists e, import_payload H c f st = Throw e /\
     ((parseMaybeJSON H f = Throw e) \/
      (exists p, parseMaybeJSON H f = Ok p /\
         (truthy p = false \/ truthy (get_prop p "examples") = false))))
  \/
  (exists p st',
     parseMaybeJSON H f = Ok p /\ truthy p = true /\
     truthy (get_prop p "examples") = true /\
     import_payload H c f st = Ok st' /\
     examples st'
     = foldl (fun m l => <[l := array_or_empty (get_prop (get_prop p "examples") l)]> m)
         (examples st) ALL_LABELS /\
     addHistory st' = array_or_empty (get_prop p "addHistory") /\
     statusMsg st' = MsgImported (totalExamples (examples st')) /\
     smoothQueue st' = [] /\ lastLabel st' = None /\ lastConf st' = 0%float /\
     recordMode st' = false /\ recordLabel st' = None).
Proof.
  unfold import_payload.
  destruct (parseMaybeJSON H f) as [p|e] eqn:Hparse; cbn [mbind result_bind].
  2:{ left. exists e. split; [reflexivity|]. left; reflexivity. }
  destruct (truthy p) eqn:Hp; cbn [negb orb].
  2:{ left. eexists. split; [reflexivity|]. right. exists p. auto. }
  destruct (truthy (get_prop p "examples")) eqn:Hex; cbn [negb].
  2:{ left. eexists. split; [reflexivity|]. right. exists p. auto. }
  right. eexists p, _.
  do 4 (split; [first [reflexivity | assumption]|]).
  repeat split.
Qed.

End ImportFacts.



(** C10.  [clearAll] and every successful import empty the smoothing
    window, clear the last single-frame label and confidence, and turn
    record mode and its held label off; the state they produce does not
    depend on what the smoothing and recording variables held before, so
    the smoothed label right afterwards is the empty one. *)
Theorem import_and_clear_reset_smoothing (H : host) :
  (forall st,
      let st' := clearAll st in
      smoothQueue st' = [] /\ lastLabel st' = None /\ lastConf st' = 0%float /\
      recordMode st' = false /\ recordLabel st' = None /\
      getSmoothedLabel st'
      = {| sm_label := None; sm_conf := 0%float; stable := false |} /\
      forall l cf q m rl,
        clearAll (set_record m rl (set_smoothing l cf q st)) = st')
  /\
  (forall c f st n,
      let st' := handleImport H c (Some f) st in
      statusMsg st' = MsgImported n ->
      smoothQueue st' = [] /\ lastLabel st' = None /\ lastConf st' = 0%float /\
      recordMode st' = false /\ recordLabel st' = None /\
      getSmoothedLabel st'
      = {| sm_label := None; sm_conf := 0%float; stable := false |} /\
      forall l cf q m rl,
        handleImport H c (Some f) (set_record m rl (set_smoothing l cf q st)) = st').
Proof.
  split.
  - intros st. cbn zeta. repeat split; reflexivity.
  - intros c f st n. cbn zeta. intros Hmsg.
    destruct (import_payload_cases H c f (set_importShown false st))
      as [(e & He & _)|(p & st' & Hp & Htp & Hte & Hok & _ & _ & _ & Hq & Hl & Hc & Hm & Hrl)].
    { destruct (handleImport_failure H c f st e He) as [reason Hr].
      rewrite Hr in Hmsg. discriminate. }
    assert (Hst : handleImport H c (Some f) st = st')
      by (unfold handleImport; rewrite Hok; reflexivity).
    rewrite Hst. repeat split; try assumption.
    + unfold getSmoothedLabel. rewrite Hl. reflexivity.
    + intros l cf q m rl. rewrite <- Hst.
      unfold handleImport, import_payload.
      rewrite Hp. cbn [mbind result_bind]. rewrite Htp, Hte. reflexivity.
Qed.

(** C10 at a concrete input: importing an empty dataset into a state whose
    window holds a label. *)
Lemma import_and_clear_reset_smoothing_witness :
  smoothQueue
    (handleImport demo_host (at_time 0) (Some {| data := stray_history_payload |})
       (set_smoothing (Some "A") 1 [Some "A"] initial_state)) = [].
Proof.
  apply (proj2 (import_and_clear_reset_smoothing demo_host) (at_time 0)
           {| data := stray_history_payload |}
           (set_smoothing (Some "A") 1 [Some "A"] initial_state) 0).
  vm_compute. reflexivity.
Defined.

(** ** Faults after an import *)

(** C9.  An import accepts a payload whose add history names a label the
    store does not have, and the next [undoLast] then ends in an uncaught
    [TypeError] (the history entry already popped); likewise an accepted
    payload with a [null] in a label's list makes the next classification
    throw out of the frame loop. *)
Theorem undo_after_import_faults (H : host) (c c' : clock) :
  let st := handleImport H c (Some {| data := stray_history_payload |})
              initial_state in
  let st2 := handleImport H c (Some {| data := null_vector_payload |})
               initial_state in
  statusMsg st = MsgImported 0 /\
  addHistory st = [JStr "foo"] /\
  undoLast H c' st
  = Uncaught (TypeError "Cannot read properties of undefined (reading 'length')")
      (set_addHistory [] st) /\
  statusMsg st2 = MsgImported 1 /\
  forall x rest,
    predict_tick H (Some (x :: rest)) st2
    = Uncaught (TypeError "Cannot read properties of null") st2.
Proof.
  cbn zeta.
  do 4 (split; [vm_compute; reflexivity|]).
  intros x rest. vm_compute. reflexivity.
Qed.


(** ** The scan for the best and second label *)

Section ScanFacts.
Local Open Scope float_scope.

(** While no score seen reaches [s1], the running best stays below it. *)
Lemma scan_step_below s1 acc kv :
  (neg_infinity <? s1) = true ->
  (acc.1.1.2 <? s1) = true ->
  (s1 <=? kv.2) = false ->
  ((scan_step acc kv).1.1.2 <? s1) = true.
Proof.
  intros Hs1 Hacc Hkv. destruct acc as [[[bl bs] sl] ss], kv as [l s].
  cbn in *. destruct (bs <? s) eqn:Hlt; [cbn|destruct (ss <? s); assumption].
  apply ltb_key in Hlt as (a & b & _ & Hb & _).
  apply ltb_key in Hs1 as (n & c & _ & Hc & _).
  apply ltb_key. exists b, c. repeat split; try assumption.
  destruct (key_lt_total b c) as [Hlt|[->|Hgt]]; [assumption| |].
  - exfalso. apply not_true_iff_false in Hkv. apply Hkv, leb_key.
    exists c, c. repeat split; auto using key_lt_irrefl.
  - exfalso. apply not_true_iff_false in Hkv. apply Hkv, leb_key.
    exists c, b. repeat split; auto using key_lt_asym.
Qed.

Lemma scan_below s1 pre :
  forall acc,
    (neg_infinity <? s1) = true ->
    (acc.1.1.2 <? s1) = true ->
    Forall (fun kv => (s1 <=? kv.2) = false) pre ->
    ((fold_left scan_step pre acc).1.1.2 <? s1) = true.
Proof.
  induction pre as [|kv pre IH]; intros acc Hs1 Hacc Hpre; [assumption|].
  apply Forall_cons in Hpre as [Hkv Hpre]. cbn [fold_left].
  apply IH; auto using scan_step_below.
Qed.

(** Once [l1] is the best with score [s1], later scores that do not exceed
    [s1] leave it in place. *)
Lemma scan_keeps_best l1 s1 post :
  forall acc,
    acc.1.1.1 = Some l1 -> acc.1.1.2 = s1 ->
    Forall (fun kv => (s1 <? kv.2) = false) post ->
    (fold_left scan_step post acc).1.1.1 = Some l1 /\
    (fold_left scan_step post acc).1.1.2 = s1.
Proof.
  induction post as [|kv post IH]; intros acc Hl Hs Hpost; [auto|].
  apply Forall_cons in Hpost as [Hkv Hpost]. cbn [fold_left].
  apply IH; [| |assumption];
    destruct acc as [[[bl bs] sl] ss], kv as [l s]; cbn in *; subst;
    rewrite Hkv; destruct (ss <? s); reflexivity.
Qed.

Lemma scan_first_maximal pre l1 s1 post :
  (neg_infinity <? s1) = true ->
  Forall (fun kv => (s1 <=? kv.2) = false) pre ->
  Forall (fun kv => (s1 <? kv.2) = false) post ->
  (scan (pre ++ (l1, s1) :: post)).1.1.1 = Some l1 /\
  (scan (pre ++ (l1, s1) :: post)).1.1.2 = s1.
Proof.
  intros Hs1 Hpre Hpost. unfold scan. rewrite fold_left_app. cbn [fold_left].
  pose proof (scan_below s1 pre (None, neg_infinity, None, neg_infinity)
                Hs1 Hs1 Hpre) as Hbelow.
  destruct (fold_left scan_step pre (None, neg_infinity, None, neg_infinity))
    as [[[bl bs] sl] ss]. cbn in Hbelow.
  apply scan_keeps_best; [| |assumption]; cbn; rewrite Hbelow; reflexivity.
Qed.

End ScanFacts.

Lemma accumulate_keys_from (top : list neighbor) :
  forall sc,
    map fst (fold_left add_score top sc)
    = fold_left (fun acc l => if bool_decide (l ∈ acc) then acc else (acc ++ [l])%list)
        (map nlabel top) (map fst sc).
Proof.
  induction top as [|n top IH]; intros sc; [reflexivity|].
  cbn [fold_left map]. rewrite IH. unfold add_score.
  rewrite assoc_set_keys. reflexivity.
Qed.

(** The keys of [scores] are the labels of the nearest neighbours in the
    order in which they first occur. *)
Lemma accumulate_keys top :
  map fst (accumulate top) = first_occurrences (map nlabel top).
Proof. apply accumulate_keys_from. Qed.

Lemma stats_of_bestLabel sc : bestLabel (stats_of sc) = (scan sc).1.1.1.
Proof. unfold stats_of. destruct (scan sc) as [[[bl bs] sl] ss]. reflexivity. Qed.

Lemma gate_fields sc t :
  best (gate sc t) = bestLabel t /\ second (gate sc t) = secondLabel t /\
  conf (gate sc t) = confidence t /\ scores (gate sc t) = sc.
Proof.
  unfold gate. case_bool_decide; [auto|].
  destruct (_ || _); auto.
Qed.

Lemma classifyKNN_returns H ex feats r :
  classifyKNN H ex feats = Ok (Some r) ->
  exists ns,
    all_neighbors H ex feats ALL_LABELS = Ok ns /\ ns <> [] /\
    r = gate (accumulate (topK_of ns)) (stats_of (accumulate (topK_of ns))).
Proof.
  unfold classifyKNN.
  destruct (all_neighbors H ex feats ALL_LABELS) as [ns|e]; cbn [mbind result_bind];
    [|discriminate].
  destruct ns as [|n ns]; [discriminate|].
  intros [= <-]. exists (n :: ns). auto.
Qed.

(** ** Collecting and sorting the neighbours *)

Section NeighbourFacts.
Context (H : host).

Lemma js_to_number_entry (xs : list float) i :
  exists x, js_to_number H (nth i (map JNum xs) JUndefined) = Ok x.
Proof.
  destruct (nth_in_or_default i (map JNum xs) JUndefined) as [Hin| ->].
  - apply in_map_iff in Hin as (x & <- & _). cbn. eauto.
  - cbn. eauto.
Qed.

Lemma l2_loop_ok b :
  numeric_vector b -> forall a i s, exists d, l2_loop H a i b s = Ok d.
Proof.
  intros [xs ->] a. induction a as [|ai a IH]; intros i s; cbn [l2_loop]; [eauto|].
  cbn [index_get mbind result_bind].
  destruct (js_to_number_entry xs i) as [x ->]. cbn [mbind result_bind]. apply IH.
Qed.

Lemma l2Distance_ok a b : numeric_vector b -> exists d, l2Distance H a b = Ok d.
Proof.
  intros Hb. unfold l2Distance.
  destruct (l2_loop_ok b Hb a 0 0%float) as [s ->]. cbn. eauto.
Qed.

Lemma label_neighbors_ok feats l arr :
  Forall numeric_vector arr ->
  exists ns, label_neighbors H feats l arr = Ok ns /\ length ns = length arr.
Proof.
  induction 1 as [|v arr Hv _ (ns & Hns & Hlen)]; cbn [label_neighbors]; [eauto|].
  destruct (l2Distance_ok feats v Hv) as [d ->]. cbn [mbind result_bind].
  rewrite Hns. cbn [mbind result_bind]. eexists. split; [reflexivity|].
  cbn. rewrite Hlen. reflexivity.
Qed.

Lemma all_neighbors_ok ex feats :
  numeric_dataset ex ->
  forall labels,
    exists ns, all_neighbors H ex feats labels = Ok ns /\
               length ns = foldr (fun l n => label_count ex l + n) 0 labels.
Proof.
  intros Hex. induction labels as [|l labels (ns & Hns & Hlen)];
    cbn [all_neighbors foldr]; [eauto|].
  assert (Harr : Forall numeric_vector (default [] (ex !! l))).
  { destruct (ex !! l) as [arr|] eqn:Hl; cbn; [eapply Hex, Hl|constructor]. }
  destruct (label_neighbors_ok feats l _ Harr) as (here & -> & Hhere).
  cbn [mbind result_bind]. rewrite Hns. cbn [mbind result_bind].
  eexists. split; [reflexivity|]. rewrite length_app, Hhere, Hlen.
  unfold label_count. destruct (ex !! l); reflexivity.
Qed.

Lemma finite_vector_numeric n v : finite_vector n v -> numeric_vector v.
Proof. intros (xs & -> & _). exists xs. reflexivity. Qed.

Lemma finite_dataset_numeric n ex : finite_dataset n ex -> numeric_dataset ex.
Proof.
  intros Hex l arr Hl. eapply Forall_impl; [eapply Hex, Hl|].
  intros v. apply finite_vector_numeric.
Qed.

End NeighbourFacts.

Lemma totalExamples_foldr ex :
  totalExamples ex = foldr (fun l n => label_count ex l + n) 0 ALL_LABELS.
Proof.
  unfold totalExamples. generalize ALL_LABELS as labels.
  assert (Hgen : forall labels a,
            foldl (fun sum l => sum + label_count ex l) a labels
            = a + foldr (fun l n => label_count ex l + n) 0 labels).
  { induction labels as [|l labels IH]; intros a; cbn; [lia|]. rewrite IH. lia. }
  intros labels. apply Hgen.
Qed.

Section SortFacts.
Context {A : Type} (after : A -> A -> bool).

Lemma sort_insert_perm x l : Permutation (sort_insert after x l) (x :: l).
Proof.
  induction l as [|y l IH]; cbn; [reflexivity|].
  destruct (after y x); [reflexivity|].
  rewrite IH. apply perm_swap.
Qed.

Lemma array_sort_perm l : Permutation (array_sort after l) l.
Proof.
  unfold array_sort.
  assert (Hgen : forall l acc,
            Permutation (fold_left (fun acc x => sort_insert after x acc) l acc)
                        (acc ++ l)).
  { clear l. induction l as [|x l IH]; intros acc; cbn [fold_left].
    - rewrite app_nil_r. reflexivity.
    - rewrite IH, sort_insert_perm. apply Permutation_middle. }
  apply (Hgen l []).
Qed.

(** When the comparator is a total preorder on the elements at hand, the
    result is sorted by it. *)
Lemma sort_insert_sorted dom x l :
  consistent_on after dom -> x ∈ dom -> (forall y, y ∈ l -> y ∈ dom) ->
  StronglySorted (not_after after) l ->
  StronglySorted (not_after after) (sort_insert after x l).
Proof.
  intros [Htrans Htot] Hx Hl Hsorted.
  induction Hsorted as [|y l Hsorted IH Hy]; cbn.
  - repeat constructor.
  - assert (Hyd : y ∈ dom) by (apply Hl, list_elem_of_here).
    assert (Hld : forall z, z ∈ l -> z ∈ dom)
      by (intros z Hz; apply Hl, list_elem_of_further, Hz).
    destruct (after y x) eqn:Hyx.
    + constructor; [constructor; assumption|].
      constructor; [apply Htot; assumption|].
      rewrite Forall_forall in Hy |- *. intros z Hz.
      apply (Htrans x y z); [exact Hx|exact Hyd|apply Hld, Hz| |apply Hy, Hz].
      apply Htot; assumption.
    + constructor; [apply IH, Hld|].
      rewrite Forall_forall in Hy |- *. intros z Hz.
      apply list_elem_of_In, (Permutation_in _ (sort_insert_perm x l)) in Hz.
      destruct Hz as [<-|Hz]; [exact Hyx|apply Hy, list_elem_of_In, Hz].
Qed.

Lemma array_sort_sorted l :
  consistent_on after l -> StronglySorted (not_after after) (array_sort after l).
Proof.
  intros Hcons. unfold array_sort.
  assert (Hgen : forall todo acc,
            (forall y, y ∈ acc -> y ∈ l) -> (forall y, y ∈ todo -> y ∈ l) ->
            StronglySorted (not_after after) acc ->
            StronglySorted (not_after after)
              (fold_left (fun acc x => sort_insert after x acc) todo acc)).
  { induction todo as [|x todo IH]; intros acc Hacc Htodo Hsorted; [assumption|].
    cbn [fold_left]. apply IH.
    - intros y Hy.
      apply list_elem_of_In, (Permutation_in _ (sort_insert_perm x acc)) in Hy.
      destruct Hy as [<-|Hy]; [apply Htodo, list_elem_of_here|].
      apply Hacc, list_elem_of_In, Hy.
    - intros y Hy. apply Htodo, list_elem_of_further, Hy.
    - apply (sort_insert_sorted l); auto. apply Htodo, list_elem_of_here. }
  apply Hgen; auto.
  - intros y Hy. apply elem_of_nil in Hy. contradiction.
  - constructor.
Qed.

(** So the first [k] elements are not after any of the others. *)
Lemma array_sort_firstn l k a b :
  consistent_on after l ->
  a ∈ firstn k (array_sort after l) -> b ∈ skipn k (array_sort after l) ->
  after a b = false.
Proof.
  intros Hcons Ha Hb. pose proof (array_sort_sorted l Hcons) as Hsorted.
  rewrite <- (firstn_skipn k (array_sort after l)) in Hsorted.
  revert Hsorted Ha. generalize (firstn k (array_sort after l)) as front.
  induction front as [|x front IH]; intros Hsorted Ha.
  - apply elem_of_nil in Ha. contradiction.
  - cbn in Hsorted. apply StronglySorted_inv in Hsorted as [Hrest Hx].
    apply elem_of_cons in Ha as [->|Ha]; [|auto].
    rewrite Forall_forall in Hx. apply Hx, elem_of_app. right. exact Hb.
Qed.

End SortFacts.

Lemma topK_of_length ns : length (topK_of ns) = Nat.min K (length ns).
Proof.
  unfold topK_of. rewrite length_firstn.
  rewrite (Permutation_length (array_sort_perm by_distance ns)). lia.
Qed.

Lemma gate_label sc t :
  (label (gate sc t) = Some NONE_LABEL
   <-> bestLabel t = Some NONE_LABEL
       \/ (confidence t <? MIN_CONF)%float = true
       \/ (margin t <? MIN_MARGIN)%float = true)
  /\ (label (gate sc t) = Some NONE_LABEL \/ label (gate sc t) = bestLabel t).
Proof.
  unfold gate. case_bool_decide as Hnone; cbn [label].
  { split; [tauto|auto]. }
  destruct (confidence t <? MIN_CONF)%float; cbn [orb label].
  { split; [tauto|auto]. }
  destruct (margin t <? MIN_MARGIN)%float; cbn [label].
  { split; [tauto|auto]. }
  split; [|auto]. split; [contradiction|].
  intros [?|[?|?]]; [contradiction|discriminate|discriminate].
Qed.

Lemma stats_of_formulas sc :
  let t := stats_of sc in
  total t = sum_scores sc /\
  confidence t = (if 0 <? total t then bestScore t / total t else 0)%float /\
  secondConf t = (if 0 <? total t then secondScore t / total t else 0)%float /\
  margin t = (confidence t - secondConf t)%float.
Proof.
  unfold stats_of. destruct (scan sc) as [[[bl bs] sl] ss]. cbn. auto.
Qed.

Lemma gate_matches_spec sc t :
  (0 <? total t)%float = true ->
  confidence t = (if 0 <? total t then bestScore t / total t else 0)%float ->
  secondConf t = (if 0 <? total t then secondScore t / total t else 0)%float ->
  margin t = (confidence t - secondConf t)%float ->
  label (gate sc t) = spec_gate t.
Proof.
  intros Htot Hc Hs Hm. rewrite Htot in Hc, Hs.
  unfold gate, spec_gate, spec_confidence, spec_margin.
  rewrite Hm, Hs, Hc.
  case_bool_decide; cbn [orb label]; [reflexivity|].
  destruct (_ || _); reflexivity.
Qed.


(** ** Distances between finite vectors are not NaN *)

Section NoNaN.
Local Open Scope Z_scope.

Lemma shr_fexp_nonneg m e l : 0 <= m -> 0 <= shr_m (shr_fexp prec emax m e l).1.
Proof.
  intros Hm. unfold shr_fexp, shr.
  destruct (fexp prec emax (Zdigits2 m + e) - e) as [|n|n]; cbn [fst];
    rewrite ?iter_shr_1_m by (rewrite shr_record_of_loc_m; exact Hm);
    rewrite shr_record_of_loc_m; try exact Hm.
  apply Z.div_pos; lia.
Qed.

Lemma binary_round_aux_not_nan s m e l :
  0 <= m -> binary_round_aux prec emax s m e l <> S754_nan.
Proof.
  intros Hm. unfold binary_round_aux.
  pose proof (shr_fexp_nonneg m e l Hm) as Hm1.
  destruct (shr_fexp prec emax m e l) as [mrs' e']. cbn [fst] in Hm1.
  pose proof (round_nearest_even_ge (shr_m mrs') (loc_of_shr_record mrs')) as Hr.
  pose proof (shr_fexp_nonneg _ e' loc_Exact (Z.le_trans _ _ _ Hm1 Hr)) as Hm2.
  destruct (shr_fexp prec emax _ e' loc_Exact) as [mrs'' e'']. cbn [fst] in Hm2.
  destruct (shr_m mrs''); [discriminate| |lia].
  destruct (_ <=? _); discriminate.
Qed.

Lemma binary_round_not_nan s m e : binary_round prec emax s m e <> S754_nan.
Proof.
  unfold binary_round. destruct (shl_align m e _) as [mz ez].
  apply binary_round_aux_not_nan. lia.
Qed.

Lemma binary_normalize_not_nan m e sz : binary_normalize prec emax m e sz <> S754_nan.
Proof.
  destruct m; cbn [binary_normalize]; [discriminate| |]; apply binary_round_not_nan.
Qed.

Lemma SFsub_finite_not_nan X Y :
  finite_sf X -> finite_sf Y -> SF64sub X Y <> S754_nan.
Proof.
  destruct X as [sx|sx| |sx mx ex], Y as [sy|sy| |sy my ey]; cbn;
    try contradiction; intros _ _.
  - destruct sx, sy; discriminate.
  - discriminate.
  - discriminate.
  - apply binary_normalize_not_nan.
Qed.

Lemma SFmul_self_nonneg X : X <> S754_nan -> nonneg_sf (SF64mul X X).
Proof.
  destruct X as [s|s| |s m e]; intros Hnan; try contradiction.
  - destruct s; exact I.
  - destruct s; exact I.
  - unfold SF64mul, SFmul.
    pose proof (binary_round_aux_sign (xorb s s) (Z.pos (m * m)) (e + e) loc_Exact) as Hs.
    pose proof (binary_round_aux_not_nan (xorb s s) (Z.pos (m * m)) (e + e) loc_Exact
                  ltac:(lia)) as Hn.
    rewrite xorb_nilpotent in *.
    destruct (binary_round_aux prec emax false _ _ _) as [[]|[]| |[] ? ?];
      try discriminate; try contradiction; exact I.
Qed.

Lemma SFadd_nonneg X Y : nonneg_sf X -> nonneg_sf Y -> nonneg_sf (SF64add X Y).
Proof.
  destruct X as [[]|[]| |[] mx ex], Y as [[]|[]| |[] my ey]; cbn;
    try contradiction; intros _ _; try exact I.
  pose proof (binary_round_sign false) as Hs.
  pose proof (binary_round_not_nan false) as Hn.
  match goal with
  | |- context [binary_normalize _ _ ?M ?E _] =>
      destruct M as [|m|m] eqn:HM; [exact I| |lia]
  end.
  cbn [binary_normalize]. specialize (Hs m (Z.min ex ey)). specialize (Hn m (Z.min ex ey)).
  destruct (binary_round prec emax false m (Z.min ex ey)) as [[]|[]| |[] ? ?];
    try discriminate; try contradiction; exact I.
Qed.

Lemma SFsqrt_nonneg X : nonneg_sf X -> nonneg_sf (SF64sqrt X).
Proof.
  destruct X as [[]|[]| |[] m e]; cbn; try contradiction; intros _; try exact I.
  unfold SFsqrt_core_binary.
  match goal with
  | |- context [Z.sqrtrem ?M] =>
      pose proof (Z.sqrtrem_sqrt M) as Hq; pose proof (Z.sqrt_nonneg M) as Hpos;
      destruct (Z.sqrtrem M) as [q r]
  end.
  cbn [fst] in Hq. subst q.
  match goal with
  | |- context [binary_round_aux _ _ false ?Q ?E ?L] =>
      pose proof (binary_round_aux_sign false Q E L) as Hs;
      pose proof (binary_round_aux_not_nan false Q E L Hpos) as Hn;
      destruct (binary_round_aux prec emax false Q E L) as [[]|[]| |[] ? ?]
  end; try discriminate; try contradiction; exact I.
Qed.

End NoNaN.

Section NoNaNFloat.
Local Open Scope float_scope.

Lemma is_nan_SF x :
  is_nan x = match Prim2SF x with S754_nan => true | _ => false end.
Proof.
  unfold is_nan. rewrite FloatAxioms.eqb_spec.
  pose proof (SFeqb_refl_finite (Prim2SF x)) as Hrefl.
  destruct (Prim2SF x) as [s|s| |s m e]; try rewrite Hrefl; try reflexivity.
  destruct s; reflexivity.
Qed.

Lemma nonneg_not_nan x : nonneg_sf (Prim2SF x) -> is_nan x = false.
Proof. rewrite is_nan_SF. destruct (Prim2SF x); [reflexivity..|contradiction|reflexivity]. Qed.

Lemma sub_finite_not_nan x y :
  is_finite x = true -> is_finite y = true -> is_nan (x - y) = false.
Proof.
  rewrite !is_finite_SF, is_nan_SF, sub_spec. intros Hx Hy.
  pose proof (SFsub_finite_not_nan (Prim2SF x) (Prim2SF y)) as Hsub.
  destruct (SF64sub (Prim2SF x) (Prim2SF y)); try reflexivity.
  exfalso. apply Hsub; [destruct (Prim2SF x)|destruct (Prim2SF y)|reflexivity];
    first [exact I | discriminate].
Qed.

Lemma mul_self_nonneg d : is_nan d = false -> nonneg_sf (Prim2SF (d * d)).
Proof.
  rewrite is_nan_SF, mul_spec. intros Hd. apply SFmul_self_nonneg.
  intros Heq. rewrite Heq in Hd. discriminate.
Qed.

Lemma add_nonneg x y :
  nonneg_sf (Prim2SF x) -> nonneg_sf (Prim2SF y) -> nonneg_sf (Prim2SF (x + y)).
Proof. rewrite add_spec. apply SFadd_nonneg. Qed.

Lemma sqrt_nonneg x : nonneg_sf (Prim2SF x) -> nonneg_sf (Prim2SF (PrimFloat.sqrt x)).
Proof. rewrite sqrt_spec. apply SFsqrt_nonneg. Qed.

End NoNaNFloat.

Section FiniteDistances.
Context (H : host).

Lemma l2_loop_nonneg (bs : list float) :
  Forall (fun x => is_finite x = true) bs ->
  forall a i s,
    Forall (fun x => is_finite x = true) a ->
    i + length a <= length bs ->
    nonneg_sf (Prim2SF s) ->
    exists s', l2_loop H a i (JArr (map JNum bs)) s = Ok s' /\ nonneg_sf (Prim2SF s').
Proof.
  intros Hbs a. induction a as [|ai a IH]; intros i s Ha Hlen Hs; cbn [l2_loop].
  - eauto.
  - apply Forall_cons in Ha as [Hai Ha]. cbn [length] in Hlen.
    cbn [index_get mbind result_bind].
    rewrite (nth_indep _ JUndefined (JNum 0)) by (rewrite length_map; lia).
    rewrite (map_nth JNum bs 0%float i). cbn [js_to_number].
    apply IH; [assumption|lia|].
    apply add_nonneg; [assumption|]. apply mul_self_nonneg, sub_finite_not_nan;
      [assumption|].
    rewrite Forall_forall in Hbs. apply Hbs, list_elem_of_In, nth_In. lia.
Qed.

Lemma l2Distance_not_nan a v :
  Forall (fun x => is_finite x = true) a ->
  finite_vector (length a) v ->
  exists d, l2Distance H a v = Ok d /\ is_nan d = false.
Proof.
  intros Ha (bs & -> & Hlen & Hbs). unfold l2Distance.
  destruct (l2_loop_nonneg bs Hbs a 0 0%float Ha ltac:(lia) I) as (s & -> & Hs).
  cbn [mbind result_bind]. eexists. split; [reflexivity|].
  apply nonneg_not_nan, sqrt_nonneg, Hs.
Qed.

Lemma label_neighbors_not_nan feats l arr :
  Forall (fun x => is_finite x = true) feats ->
  Forall (finite_vector (length feats)) arr ->
  exists ns, label_neighbors H feats l arr = Ok ns /\
             Forall (fun n => is_nan (nd n) = false) ns.
Proof.
  intros Hf. induction 1 as [|v arr Hv _ (ns & Hns & Hnan)]; cbn [label_neighbors].
  - eexists. split; [reflexivity|constructor].
  - destruct (l2Distance_not_nan feats v Hf Hv) as (d & -> & Hd).
    cbn [mbind result_bind]. rewrite Hns. cbn [mbind result_bind].
    eexists. split; [reflexivity|]. constructor; assumption.
Qed.

Lemma all_neighbors_not_nan ex feats :
  Forall (fun x => is_finite x = true) feats ->
  finite_dataset (length feats) ex ->
  forall labels,
    exists ns, all_neighbors H ex feats labels = Ok ns /\
               Forall (fun n => is_nan (nd n) = false) ns.
Proof.
  intros Hf Hex. induction labels as [|l labels (ns & Hns & Hnan)];
    cbn [all_neighbors].
  - eexists. split; [reflexivity|constructor].
  - assert (Harr : Forall (finite_vector (length feats)) (default [] (ex !! l))).
    { destruct (ex !! l) as [arr|] eqn:Hl; cbn; [eapply Hex, Hl|constructor]. }
    destruct (label_neighbors_not_nan feats l _ Hf Harr) as (here & -> & Hhere).
    cbn [mbind result_bind]. rewrite Hns. cbn [mbind result_bind].
    eexists. split; [reflexivity|]. apply Forall_app. split; assumption.
Qed.

End FiniteDistances.

(** Without NaN among the distances, the comparator of the sort orders
    the neighbours. *)
Lemma not_nan_key x : is_nan x = false -> exists k, fkey x = Some k.
Proof.
  unfold is_nan. intros Hn%negb_false_iff.
  apply eqb_key in Hn as (k & Hk & _). eauto.
Qed.

Lemma ltb_false_key x y kx ky :
  fkey x = Some kx -> fkey y = Some ky -> (x <? y)%float = false -> ~ key_lt kx ky.
Proof.
  intros Hx Hy Hlt Hk. apply not_true_iff_false in Hlt. apply Hlt, ltb_key. eauto.
Qed.

Lemma ltb_asym x y : (x <? y)%float = true -> (y <? x)%float = false.
Proof.
  intros (kx & ky & Hx & Hy & Hlt)%ltb_key.
  apply not_true_is_false. intros (ky' & kx' & Hy' & Hx' & Hlt')%ltb_key.
  assert (kx' = kx) as -> by congruence. assert (ky' = ky) as -> by congruence.
  exact (key_lt_asym _ _ Hlt Hlt').
Qed.

Lemma by_distance_consistent ns :
  Forall (fun n => is_nan (nd n) = false) ns -> consistent_on by_distance ns.
Proof.
  rewrite Forall_forall. intros Hns. split.
  - intros a b c Ha Hb Hc. unfold by_distance. rewrite !sub_positive_ltb.
    intros Hab Hbc.
    destruct (not_nan_key _ (Hns a Ha)) as [ka Hka].
    destruct (not_nan_key _ (Hns b Hb)) as [kb Hkb].
    destruct (not_nan_key _ (Hns c Hc)) as [kc Hkc].
    pose proof (ltb_false_key _ _ _ _ Hkb Hka Hab) as Hba.
    pose proof (ltb_false_key _ _ _ _ Hkc Hkb Hbc) as Hcb.
    apply not_true_is_false. intros (kc' & ka' & Hkc' & Hka' & Hlt)%ltb_key.
    assert (kc' = kc) as -> by congruence. assert (ka' = ka) as -> by congruence.
    destruct (key_lt_total kb ka) as [?|[->|Hab']]; [contradiction|contradiction|].
    destruct (key_lt_total kc kb) as [?|[->|Hbc']]; [contradiction| |].
    + exact (key_lt_asym _ _ Hab' Hlt).
    + exact (key_lt_asym _ _ (key_lt_trans _ _ _ Hab' Hbc') Hlt).
  - intros a b _ _. unfold by_distance. rewrite !sub_positive_ltb. apply ltb_asym.
Qed.

(** ** The classifier as a whole *)

Lemma add_score_default l sc n :
  default 0%float (assoc_get l (add_score sc n))
  = if bool_decide (nlabel n = l)
    then (num_or (default 0 (assoc_get l sc)) 0 + weight n)%float
    else default 0%float (assoc_get l sc).
Proof.
  unfold add_score. case_bool_decide as Hl.
  - subst l. rewrite assoc_get_set_eq. cbn.
    destruct (assoc_get (nlabel n) sc); reflexivity.
  - rewrite assoc_get_set_ne by assumption. reflexivity.
Qed.

(** Each label's entry of [scores] is the sum of the weights of its
    neighbours among the nearest ones. *)
Lemma accumulate_score l top :
  default 0%float (assoc_get l (accumulate top)) = weight_sum l top.
Proof.
  unfold accumulate, weight_sum.
  assert (Hgen : forall sc,
            default 0%float (assoc_get l (fold_left add_score top sc))
            = fold_left
                (fun acc n =>
                   if bool_decide (nlabel n = l)
                   then (num_or acc 0 + weight n)%float else acc)
                top (default 0%float (assoc_get l sc))).
  { induction top as [|n top IH]; intros sc; [reflexivity|].
    cbn [fold_left]. rewrite IH, add_score_default. reflexivity. }
  apply (Hgen []).
Qed.

Lemma dataset_ok_empty (labels : list string) :
  dataset_ok (foldr (fun l m => <[l := []]> m) ∅ labels).
Proof.
  induction labels as [|l labels IH]; intros k arr; cbn [foldr].
  - rewrite lookup_empty. discriminate.
  - destruct (decide (l = k)) as [->|Hne].
    + rewrite lookup_insert_eq. intros [= <-]. constructor.
    + rewrite lookup_insert_ne by assumption. apply IH.
Qed.

Lemma dataset_ok_insert l arr ex :
  Forall indexable arr -> dataset_ok ex -> dataset_ok (<[l := arr]> ex).
Proof.
  intros Harr Hex k arr'. destruct (decide (l = k)) as [->|Hne].
  - rewrite lookup_insert_eq. intros [= <-]. exact Harr.
  - rewrite lookup_insert_ne by assumption. apply Hex.
Qed.

Lemma finite_dataset_empty n (labels : list string) :
  finite_dataset n (foldr (fun l m => <[l := []]> m) ∅ labels).
Proof.
  induction labels as [|l labels IH]; intros k arr; cbn [foldr].
  - rewrite lookup_empty. discriminate.
  - destruct (decide (l = k)) as [->|Hne].
    + rewrite lookup_insert_eq. intros [= <-]. constructor.
    + rewrite lookup_insert_ne by assumption. apply IH.
Qed.

Lemma finite_dataset_insert n l arr ex :
  Forall (finite_vector n) arr -> finite_dataset n ex ->
  finite_dataset n (<[l := arr]> ex).
Proof.
  intros Harr Hex k arr'. destruct (decide (l = k)) as [->|Hne].
  - rewrite lookup_insert_eq. intros [= <-]. exact Harr.
  - rewrite lookup_insert_ne by assumption. apply Hex.
Qed.

Lemma finite_query x :
  is_finite x = true -> Forall (fun y => is_finite y = true) (query x).
Proof.
  intros Hx. constructor; [exact Hx|].
  apply Forall_forall. intros y Hy%list_elem_of_In%repeat_spec. subst. reflexivity.
Qed.

Lemma finite_stored x :
  is_finite x = true -> finite_vector 42 (stored x).
Proof.
  intros Hx. exists (query x). split; [reflexivity|].
  split; [reflexivity|apply finite_query, Hx].
Qed.

(** C1, as the code has it.  On a non-empty dataset of finite vectors
    that have the length of the finite query, [classifyKNN] returns a
    result and no distance is NaN.  The result is computed from the first
    [min(K, n)] entries of the stored examples sorted by distance, none
    of them farther than any of the others, each weighted
    [1 / (d + EPS)], the weights added up per label.  Confidence and
    second confidence are the best and second score divided by the total
    when the total is positive, and 0 otherwise; margin is their
    difference.  The label is NONE exactly when the raw best label is
    NONE, or confidence < MIN_CONF, or margin < MIN_MARGIN, and the raw
    best label otherwise; when the total is positive this is the gate of
    the specification. *)
Theorem classify_gating (H : host) (ex : gmap string (list jsval))
  (feats : list float) :
  Forall (fun x => is_finite x = true) feats ->
  finite_dataset (length feats) ex ->
  0 < totalExamples ex ->
  exists ns r,
    all_neighbors H ex feats ALL_LABELS = Ok ns /\
    length ns = totalExamples ex /\
    Forall (fun n => is_nan (nd n) = false) ns /\
    classifyKNN H ex feats = Ok (Some r) /\
    let top := topK_of ns in
    let t := stats_of (scores r) in
    length top = Nat.min K (totalExamples ex) /\
    (forall a b,
       a ∈ top -> b ∈ skipn (length top) (array_sort by_distance ns) ->
       (nd b <? nd a)%float = false) /\
    (forall l, default 0%float (assoc_get l (scores r)) = weight_sum l top) /\
    best r = bestLabel t /\ second r = secondLabel t /\ conf r = confidence t /\
    total t = sum_scores (scores r) /\
    confidence t = (if 0 <? total t then bestScore t / total t else 0)%float /\
    secondConf t = (if 0 <? total t then secondScore t / total t else 0)%float /\
    margin t = (confidence t - secondConf t)%float /\
    (label r = Some NONE_LABEL
     <-> bestLabel t = Some NONE_LABEL
         \/ (confidence t <? MIN_CONF)%float = true
         \/ (margin t <? MIN_MARGIN)%float = true) /\
    (label r = Some NONE_LABEL \/ label r = bestLabel t) /\
    ((0 <? total t)%float = true -> label r = spec_gate t).
Proof.
  intros Hfeats Hfin Hpos.
  destruct (all_neighbors_ok H ex feats (finite_dataset_numeric _ _ Hfin) ALL_LABELS)
    as (ns & Hns & Hlen).
  rewrite <- totalExamples_foldr in Hlen.
  assert (Hnan : Forall (fun n => is_nan (nd n) = false) ns).
  { destruct (all_neighbors_not_nan H ex feats Hfeats Hfin ALL_LABELS)
      as (ns' & Hns' & Hnan).
    congruence. }
  set (sc := accumulate (topK_of ns)).
  exists ns, (gate sc (stats_of sc)).
  split; [exact Hns|]. split; [exact Hlen|]. split; [exact Hnan|]. split.
  { unfold classifyKNN. rewrite Hns. cbn [mbind result_bind].
    destruct ns; [rewrite <- Hlen in Hpos; inversion Hpos|reflexivity]. }
  cbn zeta.
  destruct (gate_fields sc (stats_of sc)) as (Hbest & Hsecond & Hconf & Hscores).
  destruct (stats_of_formulas sc) as (Htot & Hcf & Hscf & Hm).
  destruct (gate_label sc (stats_of sc)) as [Hiff Hor].
  rewrite Hscores.
  split; [rewrite topK_of_length, Hlen; reflexivity|].
  split.
  { intros a b Ha Hb. rewrite topK_of_length in Hb.
    rewrite <- sub_positive_ltb.
    apply (array_sort_firstn by_distance ns (Nat.min K (length ns)));
      auto using by_distance_consistent. }
  split; [intros l; apply accumulate_score|].
  do 7 (split; [assumption|]).
  split; [exact Hiff|]. split; [exact Hor|].
  intros Hgt. apply gate_matches_spec; assumption.
Qed.

(** C1 at a concrete input: the scenario dataset, queried at its A vector. *)
Lemma classify_gating_witness :
  exists r,
    classifyKNN demo_host (scenario_dataset (query 0) (stored 100)) (query 0)
    = Ok (Some r) /\
    (label r = Some NONE_LABEL \/ label r = bestLabel (stats_of (scores r))).
Proof.
  destruct (classify_gating demo_host (scenario_dataset (query 0) (stored 100))
              (query 0))
    as (ns & r & _ & _ & _ & Hr & _ & _ & _ & _ & _ & _ & _ & _ & _ & _ & _ & Hor & _).
  - apply finite_query. reflexivity.
  - unfold scenario_dataset.
    apply finite_dataset_insert;
      [apply Forall_forall; intros v Hv%list_elem_of_In%repeat_spec; subst;
       apply (finite_stored 0); reflexivity|].
    apply finite_dataset_insert;
      [apply Forall_forall; intros v Hv%list_elem_of_In%repeat_spec; subst;
       apply (finite_stored 100); reflexivity|].
    apply finite_dataset_empty.
  - vm_compute. lia.
  - exists r. split; assumption.
Defined.

(** C1 as worded fails where the total score is not positive: one example
    of A, a query so far away that the distance overflows to infinity, so
    weight and total are 0.  The code's confidence is then 0 and the label
    NONE; the quotient bestScore / totalScore is 0/0, which is below no
    threshold, so the gate as worded would let A through. *)
Lemma gate_guards_zero_total :
  ~ (exists H : host,
        forall (ex : gmap string (list jsval)) (feats : list float)
               (r : knn_result),
          Forall (fun x => is_finite x = true) feats ->
          finite_dataset (length feats) ex ->
          0 < totalExamples ex ->
          classifyKNN H ex feats = Ok (Some r) ->
          label r = spec_gate (stats_of (scores r))).
Proof.
  intros [H Hclaim].
  destruct (classifyKNN H far_dataset (query 1e200)) as [[r|]|e] eqn:Hr;
    try (vm_compute in Hr; discriminate).
  specialize (Hclaim far_dataset (query 1e200) r).
  vm_compute in Hr. injection Hr as <-.
  assert (Habs : Some NONE_LABEL = Some "A").
  { apply Hclaim.
    - apply finite_query. reflexivity.
    - apply finite_dataset_insert; [|apply finite_dataset_empty].
      repeat constructor. apply (finite_stored 0). reflexivity.
    - vm_compute. lia.
    - reflexivity. }
  discriminate.
Qed.


(** ** The scenario of the specification *)

Section ScenarioFacts.
Context (H : host).

Lemma l2_loop_self (a : list float) :
  Forall (fun x => is_finite x = true) a ->
  forall pre,
    l2_loop H a (length pre) (JArr (map JNum (pre ++ a))) 0%float = Ok 0%float.
Proof.
  induction 1 as [|ai a Hai _ IH]; intros pre; cbn [l2_loop]; [reflexivity|].
  cbn [index_get mbind result_bind mret].
  rewrite map_app, app_nth2 by (rewrite length_map; lia).
  rewrite length_map, Nat.sub_diag. cbn [map nth js_to_number mbind result_bind].
  rewrite (sub_diag ai Hai).
  change (0 + 0 * 0)%float with 0%float.
  specialize (IH (pre ++ [ai])%list).
  rewrite length_app, Nat.add_1_r, <- app_assoc, map_app in IH. exact IH.
Qed.

Lemma l2Distance_self (a : list float) :
  Forall (fun x => is_finite x = true) a ->
  l2Distance H a (JArr (map JNum a)) = Ok 0%float.
Proof.
  intros Ha. unfold l2Distance.
  pose proof (l2_loop_self a Ha []) as Hloop. cbn [length app] in Hloop.
  rewrite Hloop. reflexivity.
Qed.

Lemma label_neighbors_repeat feats l v d n :
  l2Distance H feats v = Ok d ->
  label_neighbors H feats l (repeat v n) = Ok (repeat {| nlabel := l; nd := d |} n).
Proof.
  intros Hd. induction n as [|n IH]; cbn [repeat label_neighbors]; [reflexivity|].
  rewrite Hd. cbn [mbind result_bind]. rewrite IH. reflexivity.
Qed.

Lemma all_neighbors_app ex feats labels1 labels2 :
  all_neighbors H ex feats (labels1 ++ labels2)
  = (ns1 ← all_neighbors H ex feats labels1;
     ns2 ← all_neighbors H ex feats labels2;
     Ok (ns1 ++ ns2)%list).
Proof.
  induction labels1 as [|l labels1 IH]; cbn [app all_neighbors].
  - cbn. destruct (all_neighbors H ex feats labels2); reflexivity.
  - destruct (label_neighbors H feats l (default [] (ex !! l))) as [here|e];
      cbn [mbind result_bind]; [|reflexivity].
    rewrite IH.
    destruct (all_neighbors H ex feats labels1) as [ns1|e];
      cbn [mbind result_bind]; [|reflexivity].
    destruct (all_neighbors H ex feats labels2) as [ns2|e];
      cbn [mbind result_bind]; [|reflexivity].
    rewrite app_assoc. reflexivity.
Qed.

Lemma all_neighbors_none ex feats labels :
  Forall (fun l => default [] (ex !! l) = []) labels ->
  all_neighbors H ex feats labels = Ok [].
Proof.
  induction 1 as [|l labels Hl _ IH]; cbn [all_neighbors]; [reflexivity|].
  rewrite Hl, IH. reflexivity.
Qed.

End ScenarioFacts.

Lemma sort_insert_last {A : Type} (after : A -> A -> bool) x l :
  Forall (fun y => after y x = false) l -> sort_insert after x l = (l ++ [x])%list.
Proof.
  induction 1 as [|y l Hy _ IH]; cbn; [reflexivity|].
  rewrite Hy, IH. reflexivity.
Qed.

(** A list the comparator already orders is left as it is. *)
Lemma array_sort_id {A : Type} (after : A -> A -> bool) l :
  StronglySorted (not_after after) l -> array_sort after l = l.
Proof.
  intros Hsorted. unfold array_sort.
  assert (Hgen : forall todo acc,
            StronglySorted (not_after after) (acc ++ todo) ->
            fold_left (fun acc x => sort_insert after x acc) todo acc
            = (acc ++ todo)%list).
  { induction todo as [|x todo IH]; intros acc Hs; cbn [fold_left].
    - rewrite app_nil_r. reflexivity.
    - rewrite sort_insert_last.
      + rewrite IH; rewrite <- app_assoc; [reflexivity|exact Hs].
      + clear IH. induction acc as [|y acc IHacc]; [constructor|].
        cbn in Hs. apply StronglySorted_inv in Hs as [Hrest Hy].
        constructor; [|apply IHacc, Hrest].
        rewrite Forall_forall in Hy. apply Hy, elem_of_app. right.
        apply list_elem_of_here. }
  apply (Hgen l []). exact Hsorted.
Qed.

Lemma StronglySorted_two_blocks {A : Type} (R : A -> A -> Prop) a b n m :
  R a a -> R a b -> R b b -> StronglySorted R (repeat a n ++ repeat b m).
Proof.
  intros Haa Hab Hbb.
  assert (Hb : StronglySorted R (repeat b m)).
  { induction m as [|m IH]; cbn; constructor; [exact IH|].
    apply Forall_forall. intros y Hy%list_elem_of_In%repeat_spec. subst. exact Hbb. }
  induction n as [|n IH]; cbn; [exact Hb|].
  constructor; [exact IH|].
  apply Forall_forall. intros y Hy. apply elem_of_app in Hy as [Hy|Hy];
    apply list_elem_of_In, repeat_spec in Hy; subst; assumption.
Qed.

Lemma scenario_result (H : host) (vA : list float) (vN : jsval) :
  Forall (fun x => is_finite x = true) vA ->
  numeric_vector vN ->
  classifyKNN H (scenario_dataset vA vN) vA
  = Ok (Some {| label := Some "A"; conf := 1; best := Some "A"; second := None;
                scores := [("A", 7000000%float)] |}).
Proof.
  intros HvA HvN.
  destruct (l2_loop_ok H vN HvN vA 0 0%float) as [sN HsN].
  assert (HdN : l2Distance H vA vN = Ok (PrimFloat.sqrt sN))
    by (unfold l2Distance; rewrite HsN; reflexivity).
  set (nA := {| nlabel := "A"; nd := 0 |}).
  set (nN := {| nlabel := NONE_LABEL; nd := PrimFloat.sqrt sN |}).
  assert (Hns : all_neighbors H (scenario_dataset vA vN) vA ALL_LABELS
                = Ok (repeat nA 7 ++ repeat nN 7)%list).
  { change ALL_LABELS with (["A"] ++ tail LABELS ++ [NONE_LABEL])%list.
    rewrite !all_neighbors_app.
    assert (Hmid : all_neighbors H (scenario_dataset vA vN) vA (tail LABELS) = Ok []).
    { apply all_neighbors_none. unfold scenario_dataset.
      repeat (constructor;
              [rewrite !lookup_insert_ne by discriminate; vm_compute; reflexivity|]).
      constructor. }
    rewrite Hmid. cbn [all_neighbors]. unfold scenario_dataset at 1 2.
    rewrite lookup_insert_eq, lookup_insert_ne, lookup_insert_eq by discriminate.
    cbn [default from_option id]. erewrite !label_neighbors_repeat by eauto using l2Distance_self.
    cbn [mbind result_bind]. rewrite !app_nil_r. reflexivity. }
  unfold classifyKNN. rewrite Hns. cbn [mbind result_bind].
  assert (Htop : topK_of (repeat nA 7 ++ repeat nN 7) = repeat nA 7).
  { unfold topK_of. rewrite array_sort_id; [reflexivity|].
    apply StronglySorted_two_blocks; unfold not_after, by_distance; cbn [nd nA nN].
    - reflexivity.
    - apply zero_sub_sqrt_not_positive.
    - apply sub_diag_not_positive. }
  change (repeat nA 7 ++ repeat nN 7)%list
    with (nA :: (repeat nA 6 ++ repeat nN 7))%list at 1.
  cbv iota beta. change (nA :: (repeat nA 6 ++ repeat nN 7))%list
    with (repeat nA 7 ++ repeat nN 7)%list.
  rewrite Htop. vm_compute. reflexivity.
Qed.


(** C5, as the code has it.  The object [classifyKNN] returns has exactly
    the properties [label], [conf], [best], [second] and [scores]: the
    confidence, the raw best and second labels from before the gate (also
    when the gated label is NONE) and the per-label scores.  It has no
    [margin] property; the margin the gate used is the one recomputed from
    [scores].  In the scenario of seven examples of A at a finite vector
    [vA] and seven of NONE at any array of numbers [vN], the query [vA]
    gives label A with confidence 1, no second label, and margin 1. *)
Theorem result_exposes_raw_labels (H : host) :
  (forall ex feats r,
      classifyKNN H ex feats = Ok (Some r) ->
      let t := stats_of (scores r) in
      result_object r
      = JObj [("label", option_label (label r));
              ("conf", JNum (confidence t));
              ("best", option_label (bestLabel t));
              ("second", option_label (secondLabel t));
              ("scores", JObj (map (fun kv => (kv.1, JNum kv.2)) (scores r)))] /\
      get_prop (result_object r) "margin" = JUndefined /\
      (label r = Some NONE_LABEL \/ label r = bestLabel t))
  /\
  (forall (vA vN : list float),
      Forall (fun x => is_finite x = true) vA ->
      exists r,
        classifyKNN H (scenario_dataset vA (JArr (map JNum vN))) vA = Ok (Some r) /\
        label r = Some "A" /\ conf r = 1%float /\
        best r = Some "A" /\ second r = None /\
        margin (stats_of (scores r)) = 1%float).
Proof.
  split.
  - intros ex feats r Hr. cbn zeta.
    destruct (classifyKNN_returns H ex feats r Hr) as (ns & _ & _ & ->).
    set (sc := accumulate (topK_of ns)).
    destruct (gate_fields sc (stats_of sc)) as (Hbest & Hsecond & Hconf & Hscores).
    destruct (gate_label sc (stats_of sc)) as [_ Hor].
    rewrite Hscores. unfold result_object.
    rewrite Hbest, Hsecond, Hconf, Hscores. auto.
  - intros vA vN HvA. eexists.
    split; [apply scenario_result; [assumption|exists vN; reflexivity]|].
    cbn [label conf best second scores].
    do 4 (split; [reflexivity|]). vm_compute. reflexivity.
Qed.

(** C5 at a concrete input: [vA] the origin, the NONE examples at 100. *)
Lemma result_exposes_raw_labels_witness :
  exists r,
    classifyKNN demo_host (scenario_dataset (query 0) (stored 100)) (query 0)
    = Ok (Some r) /\
    label r = Some "A" /\ conf r = 1%float /\
    best r = Some "A" /\ second r = None /\
    margin (stats_of (scores r)) = 1%float.
Proof.
  apply (proj2 (result_exposes_raw_labels demo_host) (query 0) (query 100)).
  apply Forall_forall. intros x Hx. apply list_elem_of_In in Hx.
  destruct Hx as [<-|Hx%repeat_spec]; [|subst]; reflexivity.
Defined.

(** C5 as worded fails: in that very scenario the returned object has no
    [margin] property. *)
Lemma result_has_no_margin :
  ~ (exists H : host,
        forall (ex : gmap string (list jsval)) (feats : list float)
               (r : knn_result),
          classifyKNN H ex feats = Ok (Some r) ->
          get_prop (result_object r) "conf" <> JUndefined /\
          get_prop (result_object r) "margin" <> JUndefined /\
          get_prop (result_object r) "best" <> JUndefined /\
          get_prop (result_object r) "second" <> JUndefined).
Proof.
  intros [H Hclaim].
  destruct (classifyKNN H (scenario_dataset (query 0) (stored 100))
              (query 0)) as [[r|]|e] eqn:Hr;
    try (vm_compute in Hr; discriminate).
  destruct (Hclaim _ _ _ Hr) as (_ & Hmargin & _).
  apply Hmargin. reflexivity.
Qed.

(** ** The tie-break between equal scores *)

(** C6, as the code has it.  The labels are scanned in the order in which
    they were inserted into [scores]; the best label is the first one in
    that order whose score no later score exceeds and no earlier score
    reaches.  Between two labels with exactly equal top scores the one
    inserted first wins, whatever their place in the alphabet.  When no
    distance is NaN, the order of insertion is the order in which the
    labels first occur among the nearest neighbours sorted by distance. *)
Theorem tie_break_first_inserted (H : host) (ex : gmap string (list jsval))
  (feats : list float) (r : knn_result)
  (pre post : list (string * float)) (l1 : string) (s1 : float) :
  classifyKNN H ex feats = Ok (Some r) ->
  scores r = (pre ++ (l1, s1) :: post)%list ->
  (neg_infinity <? s1)%float = true ->
  Forall (fun kv => (s1 <=? kv.2)%float = false) pre ->
  Forall (fun kv => (s1 <? kv.2)%float = false) post ->
  best r = Some l1 /\
  exists ns,
    all_neighbors H ex feats ALL_LABELS = Ok ns /\
    (Forall (fun n => is_nan (nd n) = false) ns ->
     map fst (scores r) = first_occurrences (map nlabel (topK_of ns))).
Proof.
  intros Hr Hsc Hs1 Hpre Hpost.
  destruct (classifyKNN_returns H ex feats r Hr) as (ns & Hns & _ & ->).
  destruct (gate_fields (accumulate (topK_of ns))
              (stats_of (accumulate (topK_of ns)))) as (Hbest & _ & _ & Hscores).
  rewrite Hscores in Hsc. split.
  - rewrite Hbest, stats_of_bestLabel, Hsc.
    apply scan_first_maximal; assumption.
  - exists ns. split; [assumption|]. intros _. rewrite Hscores.
    apply accumulate_keys.
Qed.

(** C6 at a concrete input: the tie between B (inserted first) and A. *)
Lemma tie_break_first_inserted_witness :
  exists r,
    classifyKNN demo_host tie_dataset (query 0) = Ok (Some r) /\
    scores r = [("B", 1000000%float); ("A", 1000000%float)] /\
    best r = Some "B" /\
    map fst (scores r) = ["B"; "A"].
Proof.
  destruct (classifyKNN demo_host tie_dataset (query 0)) as [[r|]|e] eqn:Hr;
    try (vm_compute in Hr; discriminate).
  assert (Hsc : scores r = ([] ++ ("B", 1000000%float) :: [("A", 1000000%float)])%list)
    by (vm_compute in Hr; injection Hr as <-; reflexivity).
  exists r. split; [reflexivity|]. split; [exact Hsc|].
  destruct (tie_break_first_inserted demo_host tie_dataset (query 0) r
              [] [("A", 1000000%float)] "B" 1000000%float Hr Hsc)
    as (Hbest & ns & Hns & Hkeys).
  - vm_compute. reflexivity.
  - constructor.
  - repeat constructor.
  - split; [exact Hbest|].
    vm_compute in Hns. injection Hns as <-. rewrite Hkeys.
    + vm_compute. reflexivity.
    + repeat constructor.
Defined.

(** C6 as worded fails: with B at the query and two examples of A at
    distance [EPS], A and B both score 1000000; the canonical order would
    pick A, the code returns B as [best]. *)
Lemma tie_break_not_canonical :
  ~ (exists H : host,
        forall (ex : gmap string (list jsval)) (feats : list float)
               (r : knn_result) (l1 l2 : string) (s1 s2 : float),
          classifyKNN H ex feats = Ok (Some r) ->
          l1 <> l2 ->
          assoc_get l1 (scores r) = Some s1 ->
          assoc_get l2 (scores r) = Some s2 ->
          (s1 =? s2)%float = true ->
          is_top (scores r) l1 = true ->
          best r = spec_canonical_best (scores r)).
Proof.
  intros [H Hclaim].
  destruct (classifyKNN H tie_dataset (query 0)) as [[r|]|e] eqn:Hr;
    try (vm_compute in Hr; discriminate).
  specialize (Hclaim tie_dataset (query 0) r "A" "B"
                1000000%float 1000000%float Hr).
  vm_compute in Hr. injection Hr as <-.
  vm_compute in Hclaim.
  assert (Habs : Some "B" = Some "A") by (apply Hclaim; congruence).
  discriminate.
Qed.

(** ** Smoothing *)

Lemma occurrences_snoc k q l :
  occurrences k (q ++ [l])
  = occurrences k q + (if bool_decide (key_of l = k) then 1 else 0).
Proof.
  unfold occurrences. rewrite filter_app, length_app. f_equal.
  rewrite filter_cons, filter_nil. case_decide.
  - rewrite bool_decide_eq_true_2 by assumption. reflexivity.
  - rewrite bool_decide_eq_false_2 by assumption. reflexivity.
Qed.

(** The table built by the counting loop holds, for every key, the number
    of entries counted under it, and lists every key once. *)
Lemma tally_spec q :
  NoDup (map fst (tally q)) /\
  forall k, default 0 (assoc_get k (tally q)) = occurrences k q.
Proof.
  unfold tally. induction q as [|l q IH] using rev_ind.
  - split; [apply NoDup_nil_2|reflexivity].
  - rewrite fold_left_app. cbn [fold_left]. destruct IH as [Hnd Hcount].
    unfold count_step at 1 3. split; [apply assoc_set_NoDup, Hnd|].
    intros k. rewrite occurrences_snoc.
    destruct (decide (key_of l = k)) as [->|Hne].
    + rewrite assoc_get_set_eq, bool_decide_eq_true_2 by reflexivity.
      cbn. rewrite Hcount. reflexivity.
    + rewrite assoc_get_set_ne, bool_decide_eq_false_2 by assumption.
      rewrite Hcount. lia.
Qed.

Lemma mode_of_threshold (t : nat) (counts : list (string * nat)) :
  forall acc,
    t <= (fold_left mode_step counts acc).2
    <-> t <= acc.2 \/ exists kv, kv ∈ counts /\ t <= kv.2.
Proof.
  induction counts as [|kv counts IH]; intros acc; cbn [fold_left].
  - split; [auto|]. intros [Hacc|(kv & Hin & _)]; [assumption|].
    apply elem_of_nil in Hin. contradiction.
  - rewrite IH. unfold mode_step.
    destruct (Nat.ltb_spec acc.2 kv.2) as [Hlt|Hge]; cbn [snd]; split.
    + intros [Hkv|(kv' & Hin & Hle)].
      * right. exists kv. split; [apply list_elem_of_here|assumption].
      * right. exists kv'. split; [apply list_elem_of_further, Hin|assumption].
    + intros [Hacc|(kv' & Hin & Hle)]; [left; lia|].
      apply elem_of_cons in Hin as [->|Hin]; [left; assumption|].
      right. exists kv'. auto.
    + intros [Hacc|(kv' & Hin & Hle)]; [left; assumption|].
      right. exists kv'. split; [apply list_elem_of_further, Hin|assumption].
    + intros [Hacc|(kv' & Hin & Hle)]; [left; assumption|].
      apply elem_of_cons in Hin as [->|Hin]; [left; lia|].
      right. exists kv'. auto.
Qed.

Lemma mode_count_threshold (t : nat) (q : list (option string)) :
  0 < t ->
  t <= (mode_of (tally q)).2 <-> exists k, t <= occurrences k q.
Proof.
  intros Hpos. unfold mode_of. rewrite mode_of_threshold. cbn [snd].
  destruct (tally_spec q) as [Hnd Hcount]. split.
  - intros [Hzero|([k n] & Hin & Hle)]; [lia|].
    exists k. rewrite <- Hcount, (In_assoc_get k n _ Hnd Hin). exact Hle.
  - intros [k Hle]. right. exists (k, occurrences k q). split; [|exact Hle].
    apply assoc_get_Some_In. specialize (Hcount k).
    destruct (assoc_get k (tally q)) as [n|]; cbn in Hcount; [congruence|lia].
Qed.

(** C8, as the code has it.  For a window of labels the classifier can
    produce, [getSmoothedLabel] reports [stable] exactly when some label
    fills at least [STABLE_MIN] places of the window and, in addition, the
    last single-frame confidence is at least [MIN_CONF] (and a last label
    is set).  So fewer than [STABLE_MIN] occurrences of every label give
    [stable = false], but [STABLE_MIN] occurrences alone do not give
    [stable = true]. *)
Theorem smoothed_stable_iff (st : state) :
  Forall gated_label (smoothQueue st) ->
  stable (getSmoothedLabel st) = true
  <-> (exists k, STABLE_MIN <= occurrences k (smoothQueue st))
      /\ (MIN_CONF <=? lastConf st)%float = true
      /\ label_truthy (lastLabel st) = true.
Proof.
  intros _. unfold getSmoothedLabel.
  destruct (label_truthy (lastLabel st)); cbn [negb stable].
  2:{ split; [discriminate|]. intros (_ & _ & Hf). discriminate. }
  pose proof (mode_count_threshold STABLE_MIN (smoothQueue st)) as Hmode.
  destruct (mode_of (tally (smoothQueue st))) as [b bestCount]. cbn [snd stable] in *.
  rewrite andb_true_iff, Nat.leb_le, Hmode by (unfold STABLE_MIN; lia).
  tauto.
Qed.

(** C8 at a concrete input: nine frames of A at confidence 1. *)
Lemma smoothed_stable_iff_witness :
  stable (getSmoothedLabel
            (set_smoothing (Some "A") 1 (repeat (Some "A") 9) initial_state))
  = true.
Proof.
  apply (proj2 (smoothed_stable_iff
                  (set_smoothing (Some "A") 1 (repeat (Some "A") 9) initial_state)
                  ltac:(repeat constructor; apply (bool_decide_unpack _);
                        vm_compute; exact I))).
  split; [exists "A"; vm_compute; lia|].
  split; reflexivity.
Defined.

(** C8 as worded fails: after twelve frames that the gate turned into NONE
    at confidence 0.5, NONE fills the whole window and yet the smoothed
    label is not stable. *)
Lemma stable_needs_confidence :
  ~ (forall st,
        Forall gated_label (smoothQueue st) ->
        (exists k, STABLE_MIN <= occurrences k (smoothQueue st)) ->
        stable (getSmoothedLabel st) = true).
Proof.
  intros Hclaim. specialize (Hclaim twelve_ambiguous_frames).
  assert (Hq : smoothQueue twelve_ambiguous_frames = repeat (Some NONE_LABEL) 12)
    by (vm_compute; reflexivity).
  assert (Hc : lastConf twelve_ambiguous_frames = 0.5%float)
    by (vm_compute; reflexivity).
  assert (Hunstable : stable (getSmoothedLabel twelve_ambiguous_frames) = false)
    by (vm_compute; reflexivity).
  rewrite Hclaim in Hunstable; [discriminate| |].
  - rewrite Hq. apply Forall_forall. intros l Hl%list_elem_of_In%repeat_spec.
    subst l. apply (bool_decide_unpack _). vm_compute. exact I.
  - exists NONE_LABEL. rewrite Hq. vm_compute. lia.
Qed.


(** * Further properties of the code *)

(** ** What the store functions change *)

Lemma NoDup_ALL_LABELS : NoDup ALL_LABELS.
Proof. apply (bool_decide_unpack _). vm_compute. exact I. Qed.

Lemma LABELS_canonical l : l ∈ LABELS -> l ∈ ALL_LABELS.
Proof. intros Hl. unfold ALL_LABELS. apply elem_of_app. left. exact Hl. Qed.

Lemma NONE_canonical : NONE_LABEL ∈ ALL_LABELS.
Proof. unfold ALL_LABELS. apply elem_of_app. right. apply list_elem_of_here. Qed.

Lemma NONE_not_letter : NONE_LABEL ∉ LABELS.
Proof. apply (bool_decide_unpack _). vm_compute. exact I. Qed.

Section StoreEffects.
Context (H : host).

(** The variables [addExample] never assigns. *)
Lemma addExample_frame c l silent st :
  let st' := final_state (addExample H c l silent st) in
  hands st' = hands st /\ isPredicting st' = isPredicting st /\
  lastLabel st' = lastLabel st /\ lastConf st' = lastConf st /\
  smoothQueue st' = smoothQueue st /\ recordMode st' = recordMode st /\
  recordLabel st' = recordLabel st /\ lastRecordAt st' = lastRecordAt st /\
  importShown st' = importShown st.
Proof.
  cbn zeta. unfold addExample.
  destruct (negb silent && _); [cbn; tauto|].
  cbn [hands set_lastAddAt].
  destruct (getHandFeatures H (hands st)); [|destruct silent; cbn; tauto].
  cbn [examples set_lastAddAt].
  destruct (examples st !! l); [destruct silent|]; cbn; tauto.
Qed.

(** The ways [addExample] can end. *)
Lemma addExample_cases c l silent st :
  let o := addExample H c l silent st in
  (exists feats arr st1,
      o = Returned true st1 /\
      getHandFeatures H (hands st) = Some feats /\
      examples st !! l = Some arr /\
      examples st1 = <[l := (arr ++ [JArr (map JNum feats)])%list]> (examples st) /\
      addHistory st1 = (addHistory st ++ [JStr l])%list /\
      storage st1
      = Some {| version := 2; savedAt := isoNow c;
                snap_examples := examples st1; snap_addHistory := addHistory st1;
                meta_feature := "xy_rot_norm"; meta_k := K |})
  \/
  (exists st1,
      (o = Returned false st1 \/
       exists e, o = Uncaught e st1 /\ examples st !! l = None) /\
      examples st1 = examples st /\ addHistory st1 = addHistory st /\
      storage st1 = storage st).
Proof.
  cbn zeta. unfold addExample.
  destruct (negb silent && _).
  { right. exists st. auto. }
  cbn [hands set_lastAddAt].
  destruct (getHandFeatures H (hands st)) as [feats|].
  2:{ right. eexists. split; [left; reflexivity|]. destruct silent; cbn; auto. }
  cbn [examples set_lastAddAt].
  destruct (examples st !! l) as [arr|] eqn:Harr.
  2:{ right. eexists. split; [right; eexists; split; reflexivity|]. cbn. auto. }
  left. exists feats, arr. eexists. split; [reflexivity|].
  destruct silent; cbn; auto 10.
Qed.

(** The variables [undoLast] never assigns. *)
Lemma undoLast_frame c st :
  let st' := final_state (undoLast H c st) in
  hands st' = hands st /\ isPredicting st' = isPredicting st /\
  lastLabel st' = lastLabel st /\ lastConf st' = lastConf st /\
  smoothQueue st' = smoothQueue st /\ recordMode st' = recordMode st /\
  recordLabel st' = recordLabel st /\ lastRecordAt st' = lastRecordAt st /\
  lastAddAt st' = lastAddAt st /\ importShown st' = importShown st.
Proof.
  cbn zeta. unfold undoLast.
  destruct (addHistory st) as [|x rest]; [cbn; tauto|].
  destruct (js_to_string H _) as [key|e]; [|cbn; tauto].
  cbn [examples set_addHistory].
  destruct (examples st !! _) as [arr|].
  - destruct (0 <? length arr)%nat; cbn; tauto.
  - destruct (Object_prototype _) as [[[|n]|]|]; cbn; tauto.
Qed.


End StoreEffects.

(** ** Counting examples *)

Lemma label_count_insert_eq ex l arr :
  label_count (<[l := arr]> ex) l = length arr.
Proof. unfold label_count. rewrite lookup_insert_eq. reflexivity. Qed.

Lemma label_count_insert_ne ex l k arr :
  l <> k -> label_count (<[l := arr]> ex) k = label_count ex k.
Proof. intros Hne. unfold label_count. rewrite lookup_insert_ne by exact Hne. reflexivity. Qed.

Lemma sum_counts_insert ex k arr (labels : list string) :
  NoDup labels ->
  foldr (fun l n => label_count (<[k := arr]> ex) l + n) 0 labels
  + (if bool_decide (k ∈ labels) then label_count ex k else 0)
  = foldr (fun l n => label_count ex l + n) 0 labels
    + (if bool_decide (k ∈ labels) then length arr else 0).
Proof.
  induction 1 as [|l labels Hnin Hnd IH]; cbn [foldr].
  - rewrite bool_decide_eq_false_2 by apply not_elem_of_nil. reflexivity.
  - destruct (decide (k = l)) as [->|Hne].
    + rewrite bool_decide_eq_true_2 by apply list_elem_of_here.
      rewrite bool_decide_eq_false_2 in IH by exact Hnin.
      rewrite label_count_insert_eq. lia.
    + rewrite label_count_insert_ne by exact Hne.
      destruct (decide (k ∈ labels)) as [Hin|Hout].
      * rewrite bool_decide_eq_true_2 in IH by exact Hin.
        rewrite bool_decide_eq_true_2 by (apply list_elem_of_further, Hin). lia.
      * rewrite bool_decide_eq_false_2 in IH by exact Hout.
        rewrite bool_decide_eq_false_2
          by (rewrite elem_of_cons; intros [?|?]; contradiction).
        lia.
Qed.

Lemma totalExamples_insert ex l arr :
  l ∈ ALL_LABELS ->
  totalExamples (<[l := arr]> ex) + label_count ex l
  = totalExamples ex + length arr.
Proof.
  intros Hl. rewrite !totalExamples_foldr.
  pose proof (sum_counts_insert ex l arr ALL_LABELS NoDup_ALL_LABELS) as Hsum.
  rewrite !bool_decide_eq_true_2 in Hsum by exact Hl. exact Hsum.
Qed.

(** X1.  An [addExample] that returns [true] appends one vector, the
    features of the hand in view, to the list of its label and leaves every
    other list alone; the total grows by one when the label is canonical,
    the add history gets the label at its end, and the store as it now is
    has been saved. *)
Theorem add_appends_one (H : host) (c : clock) (l : string) (silent : bool)
  (st st1 : state) :
  addExample H c l silent st = Returned true st1 ->
  (exists feats arr,
      getHandFeatures H (hands st) = Some feats /\
      examples st !! l = Some arr /\
      examples st1 !! l = Some (arr ++ [JArr (map JNum feats)])%list) /\
  label_count (examples st1) l = label_count (examples st) l + 1 /\
  (forall k, k <> l -> examples st1 !! k = examples st !! k) /\
  (l ∈ ALL_LABELS ->
   totalExamples (examples st1) = totalExamples (examples st) + 1) /\
  addHistory st1 = (addHistory st ++ [JStr l])%list /\
  (exists p, storage st1 = Some p /\ snap_examples p = examples st1 /\
             snap_addHistory p = addHistory st1) /\
  lastAddAt st1 = millis c.
Proof.
  intros Hadd.
  destruct (addExample_cases H c l silent st)
    as [(feats & arr & st1' & Ho & Hf & Harr & Hex & Hh & Hsave)
       |(st1' & [Ho|(e & Ho & _)] & _)];
    rewrite Hadd in Ho; try discriminate.
  injection Ho as <-.
  assert (Hcount : label_count (examples st1) l = label_count (examples st) l + 1).
  { rewrite Hex, label_count_insert_eq, length_app. unfold label_count.
    rewrite Harr. reflexivity. }
  split.
  { exists feats, arr. rewrite Hex, lookup_insert_eq. auto. }
  split; [exact Hcount|].
  split.
  { intros k Hk. rewrite Hex. apply lookup_insert_ne. congruence. }
  split.
  { intros Hl. pose proof (totalExamples_insert (examples st) l
                             (arr ++ [JArr (map JNum feats)])%list Hl) as Ht.
    rewrite <- Hex in Ht. rewrite length_app in Ht. cbn [length] in Ht.
    unfold label_count in Ht at 1. rewrite Harr in Ht. lia. }
  split; [exact Hh|].
  split.
  { eexists. split; [exact Hsave|]. split; reflexivity. }
  pose proof (addExample_restarts_window H c l silent st) as Hwin.
  rewrite Hadd in Hwin. apply Hwin.
  unfold addExample in Hadd.
  destruct (negb silent && _); [discriminate|reflexivity].
Qed.

(** X1 at a concrete input: the letter A added with an open hand in view. *)
Lemma add_appends_one_witness :
  totalExamples (examples one_added) = totalExamples (examples initial_state) + 1.
Proof.
  refine (proj1 (proj2 (proj2 (proj2
            (add_appends_one demo_host (at_time 1000) "A" false
               (gotHands (Some [open_hand]) initial_state) one_added _)))) _).
  - vm_compute. reflexivity.
  - apply (bool_decide_unpack _). vm_compute. exact I.
Defined.

(** ** Undo is a stack *)

Lemma undo_times_app H c n m st :
  undo_times H c (n + m) st
  = match undo_times H c n st with
    | Returned _ st' => undo_times H c m st'
    | Uncaught e st' => Uncaught e st'
    end.
Proof.
  revert st. induction n as [|n IH]; intros st; cbn [undo_times Nat.add]; [reflexivity|].
  destruct (undoLast H c st); [apply IH|reflexivity].
Qed.

(** X2.  After any run of [addExample] calls that all returned [true]
    (any labels, silent or not), as many [undoLast] calls take the examples
    back off in reverse order: the dataset and the add history are again
    what they were before the first add. *)
Theorem undo_is_lifo (H : host) (c : clock) (calls : list add_call) :
  forall st st1,
    add_all H calls st = Some st1 ->
    exists st2,
      undo_times H c (length calls) st1 = Returned tt st2 /\
      examples st2 = examples st /\ addHistory st2 = addHistory st.
Proof.
  induction calls as [|a calls IH]; intros st st1 Hall; cbn [add_all] in Hall.
  - injection Hall as <-. exists st. auto.
  - destruct (addExample H (call_clock a) (call_label a) (call_silent a) st)
      as [[|] sta|e sta] eqn:Hadd; try discriminate.
    destruct (IH sta st1 Hall) as (stb & Hundo & Hex & Hh).
    destruct (addExample_success H _ _ _ _ _ Hadd)
      as (feats & arr & _ & Harr & Hexa & Hha).
    destruct (undoLast_after_push H c stb (addHistory st) (call_label a) arr
                (JArr (map JNum feats))) as (st2 & Hlast & Hex2 & Hh2 & _).
    { rewrite Hh. exact Hha. }
    { rewrite Hex, Hexa. apply lookup_insert_eq. }
    exists st2. split; [|split; [|exact Hh2]].
    + cbn [length]. replace (S (length calls)) with (length calls + 1) by lia.
      rewrite undo_times_app, Hundo. cbn [undo_times]. rewrite Hlast. reflexivity.
    + rewrite Hex2, Hex, Hexa, insert_insert_eq. apply insert_id, Harr.
Qed.

(** X2 at a concrete input: A, then B recorded silently, then two undos. *)
Lemma undo_is_lifo_witness :
  exists st2,
    undo_times demo_host (at_time 9000) 2
      (run_adds demo_host
         [ {| call_clock := at_time 1000; call_label := "A"; call_silent := false |};
           {| call_clock := at_time 1100; call_label := "B"; call_silent := true |} ]
         (gotHands (Some [open_hand]) initial_state))
    = Returned tt st2 /\
    examples st2 = empty_examples /\ addHistory st2 = [].
Proof.
  apply (undo_is_lifo demo_host (at_time 9000)
           [ {| call_clock := at_time 1000; call_label := "A"; call_silent := false |};
             {| call_clock := at_time 1100; call_label := "B"; call_silent := true |} ]
           (gotHands (Some [open_hand]) initial_state)).
  vm_compute. reflexivity.
Defined.

(** ** States the sketch reaches on its own *)

Lemma history_count_snoc l h k :
  history_count l (h ++ [JStr k])
  = history_count l h + (if String.eqb k l then 1 else 0).
Proof.
  unfold history_count. rewrite List.filter_app, length_app. cbn.
  destruct (String.eqb k l); reflexivity.
Qed.

Lemma healthy_fields st st' :
  examples st' = examples st -> addHistory st' = addHistory st ->
  recordMode st' = recordMode st -> recordLabel st' = recordLabel st ->
  healthy st -> healthy st'.
Proof.
  unfold healthy, history_tracked, record_ok.
  intros -> -> -> ->. auto.
Qed.

Lemma store_keys_insert ex l arr arr' :
  ex !! l = Some arr -> store_keys ex -> store_keys (<[l := arr']> ex).
Proof.
  intros Hl Hkeys k. specialize (Hkeys k).
  destruct (decide (l = k)) as [->|Hne].
  - rewrite lookup_insert_eq. rewrite Hl in Hkeys. split; [intros _|eauto].
    apply Hkeys. eauto.
  - rewrite lookup_insert_ne by exact Hne. exact Hkeys.
Qed.

Lemma healthy_initial : healthy initial_state.
Proof.
  split; [|split; [|split]].
  - intros l. cbn [examples initial_state]. unfold empty_examples.
    generalize ALL_LABELS as labels. induction labels as [|x xs IH]; cbn [foldr].
    + rewrite lookup_empty, elem_of_nil. split; [intros [? ?]; discriminate|tauto].
    + rewrite elem_of_cons. destruct (decide (x = l)) as [->|Hne].
      * rewrite lookup_insert_eq. split; eauto.
      * rewrite lookup_insert_ne by exact Hne. split.
        -- intros Hs. right. apply IH, Hs.
        -- intros [?|Hin]; [congruence|apply IH, Hin].
  - split; [constructor|]. intros l. cbn. lia.
  - apply dataset_ok_empty.
  - exact I.
Qed.

Section Healthy.
Context (H : host).

Lemma healthy_add c l silent st :
  healthy st -> l ∈ ALL_LABELS ->
  exists ok st',
    addExample H c l silent st = Returned ok st' /\ healthy st'.
Proof.
  intros (Hkeys & [Hlabels Hcount] & Hdata & Hrec) Hl.
  destruct (addExample_frame H c l silent st)
    as (_ & _ & _ & _ & _ & Hmode & Hrl & _).
  destruct (addExample_cases H c l silent st)
    as [(feats & arr & st1 & Ho & Hf & Harr & Hex & Hh & _)
       |(st1 & [Ho|(e & Ho & Hnone)] & Hex & Hh & _)].
  - exists true, st1. split; [exact Ho|].
    rewrite Ho in Hmode, Hrl. cbn [final_state] in Hmode, Hrl.
    split; [|split; [|split]].
    + rewrite Hex. eapply store_keys_insert; eassumption.
    + split.
      * rewrite Hh. apply Forall_app. split; [exact Hlabels|].
        repeat constructor. eauto.
      * intros k. rewrite Hh, history_count_snoc, Hex. specialize (Hcount k).
        destruct (String.eqb_spec l k) as [Heq|Hne].
        -- subst k. rewrite label_count_insert_eq, length_app. cbn [length].
           unfold label_count in Hcount. rewrite Harr in Hcount. lia.
        -- rewrite label_count_insert_ne by exact Hne. lia.
    + rewrite Hex. apply dataset_ok_insert; [|exact Hdata].
      apply Forall_app. split; [eapply Hdata, Harr|].
      repeat constructor; discriminate.
    + unfold record_ok. rewrite Hrl, Hmode. exact Hrec.
  - exists false, st1. split; [exact Ho|].
    rewrite Ho in Hmode, Hrl. cbn [final_state] in Hmode, Hrl.
    apply (healthy_fields st); auto.
    unfold healthy, history_tracked. auto.
  - exfalso. apply Hkeys in Hl as [arr Harr]. congruence.
Qed.










End Healthy.






Lemma healthy_one_added : healthy one_added.
Proof.
  destruct (healthy_add demo_host (at_time 1000) "A" false
              (gotHands (Some [open_hand]) initial_state)) as (ok & st' & Ho & Hst).
  - apply (healthy_fields initial_state); auto using healthy_initial.
  - apply (bool_decide_unpack _). vm_compute. exact I.
  - unfold one_added. rewrite Ho. exact Hst.
Qed.



(** ** The classifier: what it returns, when it throws *)

Section NeighbourLists.
Context (H : host).

Lemma label_neighbors_inv feats l arr ns :
  label_neighbors H feats l arr = Ok ns ->
  length ns = length arr /\ Forall (fun n => nlabel n = l) ns.
Proof.
  revert ns. induction arr as [|v arr IH]; intros ns; cbn [label_neighbors].
  - intros [= <-]. split; [reflexivity|constructor].
  - destruct (l2Distance H feats v) as [d|e]; cbn [mbind result_bind]; [|discriminate].
    destruct (label_neighbors H feats l arr) as [more|e]; cbn [mbind result_bind];
      [|discriminate].
    intros [= <-]. destruct (IH more eq_refl) as [Hlen Hall].
    split; [cbn; congruence|]. constructor; [reflexivity|exact Hall].
Qed.

Lemma all_neighbors_inv ex feats labels :
  forall ns,
    all_neighbors H ex feats labels = Ok ns ->
    length ns = foldr (fun l n => label_count ex l + n) 0 labels /\
    Forall (fun n => nlabel n ∈ labels /\ 0 < label_count ex (nlabel n)) ns.
Proof.
  induction labels as [|l labels IH]; intros ns; cbn [all_neighbors foldr].
  - intros [= <-]. split; [reflexivity|constructor].
  - destruct (label_neighbors H feats l (default [] (ex !! l))) as [here|e] eqn:Hhere;
      cbn [mbind result_bind]; [|discriminate].
    destruct (all_neighbors H ex feats labels) as [more|e];
      cbn [mbind result_bind]; [|discriminate].
    intros [= <-]. destruct (IH more eq_refl) as [Hlen Hall].
    apply label_neighbors_inv in Hhere as [Hlen' Hall'].
    assert (Hcount : label_count ex l = length here).
    { rewrite Hlen'. unfold label_count. destruct (ex !! l); reflexivity. }
    split; [rewrite length_app; lia|].
    apply Forall_app. split.
    + apply Forall_forall. intros n Hn.
      assert (Hnl : nlabel n = l)
        by (rewrite Forall_forall in Hall'; apply Hall', Hn).
      rewrite Hnl. split; [apply list_elem_of_here|].
      rewrite Hcount. destruct here; [apply elem_of_nil in Hn; contradiction|cbn; lia].
    + eapply Forall_impl; [exact Hall|]. cbn. intros n [Hin Hpos].
      split; [apply list_elem_of_further, Hin|exact Hpos].
Qed.

Lemma all_neighbors_empty ex feats labels :
  foldr (fun l n => label_count ex l + n) 0 labels = 0 ->
  all_neighbors H ex feats labels = Ok [].
Proof.
  induction labels as [|l labels IH]; cbn [all_neighbors foldr]; [reflexivity|].
  intros Hsum. rewrite IH by lia.
  assert (Hl : label_count ex l = 0) by lia.
  unfold label_count in Hl. destruct (ex !! l) as [[|v arr]|]; cbn in Hl |- *;
    [reflexivity|lia|reflexivity].
Qed.

End NeighbourLists.

(** X5.  [classifyKNN] returns [null] exactly when no canonical label has
    an example, that is when [totalExamples()] is 0: under the guard
    [totalExamples() > 0] of [draw] a classification that returns has a
    result. *)
Theorem classify_null_iff_empty (H : host) (ex : gmap string (list jsval))
  (feats : list float) :
  classifyKNN H ex feats = Ok None <-> totalExamples ex = 0.
Proof.
  rewrite totalExamples_foldr. unfold classifyKNN. split.
  - destruct (all_neighbors H ex feats ALL_LABELS) as [ns|e] eqn:Hns;
      cbn [mbind result_bind]; [|discriminate].
    destruct ns as [|n ns]; [|discriminate]. intros _.
    apply all_neighbors_inv in Hns as [Hlen _]. rewrite <- Hlen. reflexivity.
  - intros Hzero. rewrite all_neighbors_empty by exact Hzero. reflexivity.
Qed.

(** *** Labels of a result *)

Lemma first_occurrences_from (ls : list string) :
  forall acc,
    NoDup acc ->
    let out := fold_left (fun acc l => if bool_decide (l ∈ acc) then acc
                                       else (acc ++ [l])%list) ls acc in
    NoDup out /\ (forall x, x ∈ out <-> x ∈ acc \/ x ∈ ls) /\
    length out <= length acc + length ls.
Proof.
  induction ls as [|l ls IH]; intros acc Hacc; cbn [fold_left].
  - split; [exact Hacc|]. split; [|cbn; lia].
    intros x. rewrite elem_of_nil. tauto.
  - case_bool_decide as Hin.
    + destruct (IH acc Hacc) as (Hnd & Hmem & Hlen). split; [exact Hnd|].
      split; [|cbn [length]; lia].
      intros x. rewrite Hmem, elem_of_cons. split; [tauto|].
      intros [?|[->|?]]; auto.
    + destruct (IH (acc ++ [l])%list) as (Hnd & Hmem & Hlen).
      { apply NoDup_app. split; [exact Hacc|]. split; [|apply NoDup_singleton].
        intros x Hx Hxl. apply list_elem_of_singleton in Hxl. subst x. contradiction. }
      split; [exact Hnd|]. split.
      * intros x. rewrite Hmem, elem_of_app, list_elem_of_singleton, elem_of_cons. tauto.
      * rewrite length_app in Hlen. cbn [length] in Hlen |- *. lia.
Qed.

Lemma first_occurrences_spec (ls : list string) :
  NoDup (first_occurrences ls) /\
  (forall x, x ∈ first_occurrences ls <-> x ∈ ls) /\
  length (first_occurrences ls) <= length ls.
Proof.
  destruct (first_occurrences_from ls [] (@NoDup_nil_2 string)) as (Hnd & Hmem & Hlen).
  split; [exact Hnd|]. split; [|exact Hlen].
  intros x. rewrite (Hmem x), elem_of_nil. tauto.
Qed.

Lemma topK_of_subset ns n : n ∈ topK_of ns -> n ∈ ns.
Proof.
  unfold topK_of. intros Hn.
  apply list_elem_of_In. eapply Permutation_in; [apply array_sort_perm|].
  rewrite <- (firstn_skipn (Nat.min K (length ns)) (array_sort by_distance ns)).
  apply in_or_app. left. apply list_elem_of_In, Hn.
Qed.

Section ScanLabels.
Local Open Scope float_scope.

(** What the scan leaves in [bestLabel] and [secondLabel]. *)
Lemma scan_labels (sc : list (string * float)) :
  NoDup (map fst sc) ->
  (forall l, (scan sc).1.1.1 = Some l -> l ∈ map fst sc) /\
  (forall l, (scan sc).1.2 = Some l ->
             l ∈ map fst sc /\ (scan sc).1.1.1 <> Some l) /\
  ((scan sc).1.1.1 = None ->
   (scan sc).1.1.2 = neg_infinity /\ (scan sc).1.2 = None /\
   (scan sc).2 = neg_infinity /\
   Forall (fun kv => (neg_infinity <? kv.2) = false) sc).
Proof.
  unfold scan. induction sc as [|[l s] sc IH] using rev_ind.
  - intros _. cbn. repeat split; try discriminate. constructor.
  - rewrite map_app, fold_left_app. cbn [map fold_left fst].
    intros Hnd. apply NoDup_app in Hnd as (Hnd & Hfresh & _).
    assert (Hl : l ∉ map fst sc).
    { intros Hin. apply (Hfresh l Hin), list_elem_of_here. }
    destruct (IH Hnd) as (Hbest & Hsecond & Hnone). clear IH.
    destruct (fold_left scan_step sc (None, neg_infinity, None, neg_infinity))
      as [[[bl bs] sl] ss].
    cbn [fst snd] in Hbest, Hsecond, Hnone. cbn [scan_step].
    destruct (bs <? s) eqn:Hbs; cbn [fst snd].
    + split; [|split].
      * intros k [= <-]. apply elem_of_app. right. apply list_elem_of_here.
      * intros k Hk. split.
        -- apply elem_of_app. left. apply Hbest, Hk.
        -- intros [= ->]. apply Hl, Hbest, Hk.
      * discriminate.
    + destruct (ss <? s) eqn:Hss; cbn [fst snd].
      * split; [|split].
        -- intros k Hk. apply elem_of_app. left. apply Hbest, Hk.
        -- intros k [= <-]. split.
           ++ apply elem_of_app. right. apply list_elem_of_here.
           ++ intros Hk. apply Hl, Hbest, Hk.
        -- intros Hbl. destruct (Hnone Hbl) as (_ & _ & -> & _).
           destruct (Hnone Hbl) as (-> & _). congruence.
      * split; [|split].
        -- intros k Hk. apply elem_of_app. left. apply Hbest, Hk.
        -- intros k Hk. destruct (Hsecond k Hk) as [Hin Hne].
           split; [apply elem_of_app; left; exact Hin|exact Hne].
        -- intros Hbl. destruct (Hnone Hbl) as (Hbs' & Hsl & Hss' & Hall).
           repeat (split; [assumption|]).
           apply Forall_app. split; [exact Hall|].
           repeat constructor. cbn [snd]. rewrite Hbs' in Hbs. exact Hbs.
Qed.

(** Scores that are all NaN or minus infinity do not add up to a positive
    total. *)
Lemma sum_not_positive (sc : list (string * float)) :
  Forall (fun kv => (neg_infinity <? kv.2) = false) sc ->
  (0 <? sum_scores sc) = false.
Proof.
  unfold sum_scores.
  assert (Hgen : forall t,
            (Prim2SF t = S754_zero false \/ Prim2SF t = S754_nan
             \/ Prim2SF t = S754_infinity true) ->
            Forall (fun kv => (neg_infinity <? kv.2) = false) sc ->
            (0 <? fold_left (fun t kv => t + kv.2) sc t) = false).
  { induction sc as [|[l s] sc IH]; intros t Ht Hall; cbn [fold_left].
    - rewrite FloatAxioms.ltb_spec.
      destruct Ht as [->|[->| ->]]; reflexivity.
    - apply Forall_cons in Hall as [Hs Hall]. apply IH; [|exact Hall].
      cbn [snd] in *. rewrite FloatAxioms.ltb_spec in Hs. rewrite add_spec.
      change (Prim2SF neg_infinity) with (S754_infinity true) in Hs.
      destruct (Prim2SF s) as [[]|[]| |[] m e]; try discriminate;
        destruct Ht as [->|[->| ->]]; cbn; auto. }
  apply Hgen. left. reflexivity.
Qed.

Lemma gate_label_canonical (sc : list (string * float)) :
  NoDup (map fst sc) -> (forall l, l ∈ map fst sc -> l ∈ ALL_LABELS) ->
  exists l, label (gate sc (stats_of sc)) = Some l /\ l ∈ ALL_LABELS.
Proof.
  intros Hnd Hkeys. destruct (scan_labels sc Hnd) as (Hbest & _ & Hnone).
  unfold gate, stats_of.
  destruct (scan sc) as [[[bl bs] sl] ss]. cbn [fst snd] in Hbest, Hnone.
  cbn [bestLabel confidence margin secondLabel].
  case_bool_decide as Hb; cbn [label].
  { exists NONE_LABEL. split; [reflexivity|apply NONE_canonical]. }
  match goal with |- context [if ?b then _ else _] => destruct b eqn:Hgate end;
    cbn [label].
  { exists NONE_LABEL. split; [reflexivity|apply NONE_canonical]. }
  destruct bl as [l|].
  { exists l. split; [reflexivity|]. apply Hkeys, Hbest. reflexivity. }
  exfalso. destruct (Hnone eq_refl) as (_ & _ & _ & Hall).
  rewrite (sum_not_positive sc Hall) in Hgate.
  apply orb_false_iff in Hgate as [Hconf _]. vm_compute in Hconf. discriminate.
Qed.

End ScanLabels.

Lemma accumulate_NoDup top : NoDup (map fst (accumulate top)).
Proof. rewrite accumulate_keys. apply first_occurrences_spec. Qed.

(** X6.  Every result of [classifyKNN] has a label that is not [null] and
    is canonical; its [scores] table has between one and [K] entries, one
    per label among the nearest neighbours, each a canonical label that has
    examples; [best], when set, is one of these labels, and [second], when
    set, is another one. *)
Theorem classify_result_labels (H : host) (ex : gmap string (list jsval))
  (feats : list float) (r : knn_result) :
  classifyKNN H ex feats = Ok (Some r) ->
  (exists l, label r = Some l /\ l ∈ ALL_LABELS) /\
  NoDup (map fst (scores r)) /\
  0 < length (scores r) <= K /\
  (forall l, l ∈ map fst (scores r) -> l ∈ ALL_LABELS /\ 0 < label_count ex l) /\
  (forall l, best r = Some l -> l ∈ map fst (scores r)) /\
  (forall l, second r = Some l -> l ∈ map fst (scores r) /\ best r <> Some l).
Proof.
  intros Hr. apply classifyKNN_returns in Hr as (ns & Hns & Hne & ->).
  apply all_neighbors_inv in Hns as [_ Hall].
  set (top := topK_of ns). set (sc := accumulate top).
  destruct (gate_fields sc (stats_of sc)) as (Hbest & Hsecond & _ & Hscores).
  rewrite Hbest, Hsecond, Hscores, !stats_of_bestLabel.
  assert (Hnd : NoDup (map fst sc)) by apply accumulate_NoDup.
  assert (Hkeys : forall l, l ∈ map fst sc -> l ∈ ALL_LABELS /\ 0 < label_count ex l).
  { intros l. unfold sc. rewrite accumulate_keys.
    rewrite (proj1 (proj2 (first_occurrences_spec _)) l).
    intros (n & -> & Hn)%list_elem_of_fmap.
    rewrite Forall_forall in Hall. apply Hall, topK_of_subset, Hn. }
  destruct (scan_labels sc Hnd) as (Hb & Hs & _).
  split; [apply gate_label_canonical; [exact Hnd|intros l Hl; apply Hkeys, Hl]|].
  split; [exact Hnd|]. split; [|split; [exact Hkeys|split; [exact Hb|]]].
  - rewrite <- (length_map fst sc). unfold sc. rewrite accumulate_keys.
    pose proof (proj2 (proj2 (first_occurrences_spec (map nlabel top)))) as Hle.
    rewrite length_map in Hle. unfold top in *. rewrite topK_of_length in Hle.
    split; [|lia].
    destruct (first_occurrences (map nlabel (topK_of ns))) as [|k ks] eqn:Hfirst;
      [|cbn; lia].
    exfalso.
    assert (Htop : topK_of ns <> []).
    { intros Hnil. pose proof (topK_of_length ns) as Hlen. rewrite Hnil in Hlen.
      destruct ns; [contradiction|]. cbn in Hlen. unfold K in Hlen. lia. }
    destruct (topK_of ns) as [|n rest]; [contradiction|].
    assert (Hin : nlabel n ∈ first_occurrences (map nlabel (n :: rest))).
    { apply first_occurrences_spec. apply list_elem_of_here. }
    rewrite Hfirst in Hin. apply elem_of_nil in Hin. exact Hin.
  - intros l Hl. unfold stats_of in Hl.
    destruct (scan sc) as [[[bl bs] sl] ss]. cbn in Hl, Hs. apply Hs, Hl.
Qed.

(** X6 at a concrete input: the scenario dataset, queried at its A vector. *)
Lemma classify_result_labels_witness :
  exists r l,
    classifyKNN demo_host (scenario_dataset (query 0) (stored 100)) (query 0)
    = Ok (Some r) /\ label r = Some l /\ l ∈ ALL_LABELS.
Proof.
  destruct (classifyKNN demo_host (scenario_dataset (query 0) (stored 100)) (query 0))
    as [[r|]|e] eqn:Hr; try (vm_compute in Hr; discriminate).
  destruct (classify_result_labels demo_host _ _ r Hr) as ((l & Hl & Hcan) & _).
  exists r, l. auto.
Defined.

(** *** Faults *)

Section Conversions.
Context (H : host).

Let element_string (e : jsval) : result string :=
  match e with
  | JUndefined | JNull => Ok ""
  | _ => js_to_string H e
  end.

Lemma element_strings_ok items :
  Forall (fun v => exists s, element_string v = Ok s) items ->
  exists parts, element_strings element_string items = Ok parts.
Proof.
  induction 1 as [|v items [s Hs] _ [parts Hparts]]; cbn [element_strings]; [eauto|].
  rewrite Hs. cbn [mbind result_bind]. rewrite Hparts. cbn. eauto.
Qed.

Lemma element_strings_throw items e :
  Forall (fun v => forall e', element_string v = Throw e' -> e' = e) items ->
  Exists (fun v => exists e', element_string v = Throw e') items ->
  element_strings element_string items = Throw e.
Proof.
  intros Hall. induction 1 as [v items [e' He']|v items _ IH];
    cbn [element_strings]; apply Forall_cons in Hall as [Hv Hall].
  - rewrite He', (Hv e' He'). reflexivity.
  - destruct (element_string v) as [s|e'] eqn:Hs; cbn [mbind result_bind].
    + rewrite (IH Hall). reflexivity.
    + rewrite (Hv e' eq_refl). reflexivity.
Qed.

(** The conversion to a string throws on the unconvertible values, and
    on them only. *)
Lemma js_to_string_cases :
  forall v,
    if unconvertible v
    then js_to_string H v = Throw (TypeError "Cannot convert object to primitive value")
    else exists s, js_to_string H v = Ok s.
Proof.
  fix IH 1. intros [| |[]|x|s|items|props]; cbn [unconvertible js_to_string]; eauto.
  - assert (Hitems : Forall (fun v =>
                       if unconvertible v
                       then js_to_string H v
                            = Throw (TypeError "Cannot convert object to primitive value")
                       else exists s, js_to_string H v = Ok s) items).
    { induction items as [|v items IHitems]; constructor; [apply IH|exact IHitems]. }
    clear IH. fold element_string.
    destruct (existsb unconvertible items) eqn:Hex.
    + rewrite (element_strings_throw items
                 (TypeError "Cannot convert object to primitive value"));
        [reflexivity| |].
      * eapply Forall_impl; [exact Hitems|]. intros v Hv e' He'.
        assert (Hs : element_string v = js_to_string H v \/ element_string v = Ok "")
          by (destruct v; auto).
        destruct Hs as [Hs|Hs]; rewrite Hs in He'; [|discriminate].
        cbv beta in Hv.
        destruct (unconvertible v); [congruence|destruct Hv; congruence].
      * apply existsb_exists in Hex as (v & Hin & Hv).
        apply Exists_exists. exists v. split; [apply list_elem_of_In, Hin|].
        rewrite Forall_forall in Hitems.
        specialize (Hitems v (proj2 (list_elem_of_In _ _) Hin)).
        rewrite Hv in Hitems.
        destruct v; cbn in Hv; try discriminate; eexists; exact Hitems.
    + destruct (element_strings_ok items) as [parts ->]; [|cbn; eauto].
      rewrite Forall_forall in Hitems |- *. intros v Hv.
      specialize (Hitems v Hv).
      assert (Hconv : unconvertible v = false).
      { destruct (unconvertible v) eqn:Hu; [|reflexivity].
        rewrite <- Hex. symmetry. apply existsb_exists. exists v.
        split; [apply list_elem_of_In, Hv|exact Hu]. }
      rewrite Hconv in Hitems. destruct Hitems as [s Hs].
      destruct v; try (eexists; exact Hs); eexists; reflexivity.
  - destruct (assoc_get "toString" props); eauto.
Qed.

Lemma js_to_string_throws v :
  (exists e, js_to_string H v = Throw e) <-> unconvertible v = true.
Proof.
  pose proof (js_to_string_cases v) as Hv.
  destruct (unconvertible v); split; eauto; try discriminate.
  intros [e He]. destruct Hv as [s Hs]. congruence.
Qed.

Lemma js_to_number_throws v :
  (exists e, js_to_number H v = Throw e) <-> unconvertible v = true.
Proof.
  rewrite <- js_to_string_throws.
  destruct v as [| |[]|x|s|items|props];
    try (cbn; split; intros [e He]; discriminate); unfold js_to_number.
  - destruct (js_to_string H (JArr items)) as [s|e]; cbn [mbind result_bind];
      split; intros [e' He']; try discriminate; eauto.
  - destruct (js_to_string H (JObj props)) as [s|e]; cbn [mbind result_bind];
      split; intros [e' He']; try discriminate; eauto.
Qed.

End Conversions.

Section Faults.
Context (H : host).

Lemma index_get_throws b i :
  (exists e, index_get b i = Throw e) <-> unreadable b.
Proof.
  unfold unreadable. destruct b; cbn; split;
    try (intros [e He]; discriminate); try (intros [Hb|Hb]; discriminate); eauto.
Qed.

Lemma l2_loop_throws b a :
  forall i s,
    (exists e, l2_loop H a i b s = Throw e)
    <-> a <> [] /\
        (unreadable b \/
         exists j v, i <= j < i + length a /\ index_get b j = Ok v /\
                     unconvertible v = true).
Proof.
  induction a as [|ai a IH]; intros i s; cbn [l2_loop].
  - split; [intros [e He]; discriminate|intros [Ha _]; contradiction].
  - pose proof (index_get_throws b i) as Hget.
    destruct (index_get b i) as [v|e] eqn:Hv; cbn [mbind result_bind].
    2:{ split; [|eauto]. intros _. split; [discriminate|].
        left. apply Hget. eauto. }
    assert (Hb : ~ unreadable b).
    { intros Hb. apply Hget in Hb as [e He]. discriminate. }
    pose proof (js_to_number_throws H v) as Hnum.
    destruct (js_to_number H v) as [x|e]; cbn [mbind result_bind].
    2:{ split; [|eauto]. intros _. split; [discriminate|].
        right. exists i, v. cbn [length].
        split; [lia|]. split; [exact Hv|]. apply Hnum. eauto. }
    rewrite IH. cbn [length]. split.
    + intros [_ [Hu|(j & w & Hj & Hw & Hconv)]]; [contradiction|].
      split; [discriminate|]. right. exists j, w. split; [lia|auto].
    + intros [_ [Hu|(j & w & Hj & Hw & Hconv)]]; [contradiction|].
      destruct (decide (j = i)) as [->|Hne].
      { exfalso. assert (w = v) by congruence. subst w.
        apply Hnum in Hconv as [e He]. discriminate. }
      split; [destruct a; [cbn [length] in Hj; lia|discriminate]|].
      right. exists j, w. split; [lia|auto].
Qed.

Lemma l2Distance_throws a b :
  (exists e, l2Distance H a b = Throw e) <-> a <> [] /\ faulty (length a) b.
Proof.
  unfold l2Distance, faulty.
  pose proof (l2_loop_throws b a 0 0%float) as Hloop.
  destruct (l2_loop H a 0 b 0) as [s|e]; cbn [mbind result_bind].
  - split; [intros [e He]; discriminate|].
    intros [Ha [Hu|(j & v & Hj & Hv)]];
      destruct (proj2 Hloop) as [e He];
      try discriminate; split; eauto.
    right. exists j, v. split; [lia|exact Hv].
  - split; [|eauto]. intros _.
    destruct (proj1 Hloop) as [Ha [Hu|(j & v & Hj & Hv)]]; eauto.
    split; [exact Ha|]. right. exists j, v. split; [lia|exact Hv].
Qed.

Lemma label_neighbors_throws feats l arr :
  (exists e, label_neighbors H feats l arr = Throw e)
  <-> feats <> [] /\ Exists (faulty (length feats)) arr.
Proof.
  induction arr as [|v arr IH]; cbn [label_neighbors].
  - split; [intros [e He]; discriminate|].
    intros [_ Hex]. apply Exists_nil in Hex. contradiction.
  - rewrite Exists_cons.
    destruct (l2Distance H feats v) as [d|e] eqn:Hd; cbn [mbind result_bind].
    + assert (Hv : ~ (feats <> [] /\ faulty (length feats) v)).
      { intros Hv. apply l2Distance_throws in Hv as [e He]. congruence. }
      destruct (label_neighbors H feats l arr) as [more|e];
        cbn [mbind result_bind].
      * split; [intros [e He]; discriminate|].
        intros [Hf [Hu|Hrest]]; [tauto|].
        destruct (proj2 IH (conj Hf Hrest)) as [e He]. discriminate.
      * split; [|eauto]. intros _.
        destruct (proj1 IH) as [Hf Hrest]; eauto.
    + split; [|eauto]. intros _.
      destruct (proj1 (l2Distance_throws feats v)) as [Hf Hu]; eauto.
Qed.

Lemma all_neighbors_throws ex feats labels :
  (exists e, all_neighbors H ex feats labels = Throw e)
  <-> feats <> [] /\
      exists l arr, l ∈ labels /\ ex !! l = Some arr /\
                    Exists (faulty (length feats)) arr.
Proof.
  induction labels as [|l labels IH]; cbn [all_neighbors].
  - split; [intros [e He]; discriminate|].
    intros (_ & l & arr & Hl & _). apply elem_of_nil in Hl. contradiction.
  - pose proof (label_neighbors_throws feats l (default [] (ex !! l))) as Hhere.
    destruct (label_neighbors H feats l (default [] (ex !! l))) as [here|e];
      cbn [mbind result_bind].
    + assert (Hl : ~ (feats <> [] /\
                      Exists (faulty (length feats)) (default [] (ex !! l)))).
      { intros Hl. apply Hhere in Hl as [e He]. discriminate. }
      destruct (all_neighbors H ex feats labels) as [more|e];
        cbn [mbind result_bind].
      * split; [intros [e He]; discriminate|].
        intros (Hf & k & arr & Hk & Harr & Hex).
        apply elem_of_cons in Hk as [->|Hk].
        -- exfalso. apply Hl. rewrite Harr. auto.
        -- destruct (proj2 IH) as [e He]; [eauto 6|discriminate].
      * split; [|eauto]. intros _.
        destruct (proj1 IH) as (Hf & k & arr & Hk & Harr & Hex); [eauto|].
        split; [exact Hf|]. exists k, arr.
        split; [apply list_elem_of_further, Hk|auto].
    + split; [|eauto]. intros _.
      destruct (proj1 Hhere) as [Hf Hex]; [eauto|].
      split; [exact Hf|].
      destruct (ex !! l) as [arr|] eqn:Harr; cbn in Hex.
      * exists l, arr. split; [apply list_elem_of_here|auto].
      * apply Exists_nil in Hex. contradiction.
Qed.

End Faults.

(** X7.  [l2Distance] throws exactly when the query is not empty and the
    stored value is faulty for it: it is [null] or [undefined], or one of
    its entries at an index of the query cannot be converted to a number,
    being an object with an own [toString] property or an array that
    holds one.  [classifyKNN] throws exactly when the query is not empty
    and the list of some canonical label holds such a value.  Anything
    else in the store (numbers, strings, other objects, vectors of the
    wrong length) is classified without an exception. *)
Theorem classifier_throws_iff (H : host) (ex : gmap string (list jsval))
  (feats : list float) :
  (forall b, (exists e, l2Distance H feats b = Throw e)
             <-> feats <> [] /\ faulty (length feats) b) /\
  ((exists e, classifyKNN H ex feats = Throw e)
   <-> feats <> [] /\
       exists l arr, l ∈ ALL_LABELS /\ ex !! l = Some arr /\
                     Exists (faulty (length feats)) arr).
Proof.
  split; [intros b; apply l2Distance_throws|].
  rewrite <- (all_neighbors_throws H ex feats ALL_LABELS). unfold classifyKNN.
  destruct (all_neighbors H ex feats ALL_LABELS) as [ns|e]; cbn [mbind result_bind].
  - split; intros [e He]; [destruct ns; discriminate He|discriminate He].
  - split; eauto.
Qed.

(** X7 at a concrete input: one example of A whose first entry is an object
    with an own [toString] property. *)
Lemma classifier_throws_iff_witness :
  exists e,
    classifyKNN demo_host
      (<["A" := [JArr [JObj [("toString", JNum 0)]]]]> empty_examples) (query 0)
    = Throw e.
Proof.
  apply (proj2 (classifier_throws_iff demo_host _ (query 0))).
  split; [discriminate|].
  exists "A", [JArr [JObj [("toString", JNum 0)]]].
  split; [apply LABELS_canonical, list_elem_of_here|].
  split; [apply lookup_insert_eq|].
  apply Exists_cons_hd. right.
  exists 0, (JObj [("toString", JNum 0)]).
  split; [cbn; lia|]. split; reflexivity.
Defined.

(** ** Distances between vectors of different lengths *)

Section NaNArith.
Local Open Scope float_scope.

Lemma sub_nan_r x y : is_nan y = true -> is_nan (x - y) = true.
Proof.
  rewrite !is_nan_SF, sub_spec.
  destruct (Prim2SF y); try discriminate. intros _.
  destruct (Prim2SF x) as [[]|[]| |[] m e]; reflexivity.
Qed.

Lemma mul_nan d : is_nan d = true -> is_nan (d * d) = true.
Proof.
  rewrite !is_nan_SF, mul_spec.
  destruct (Prim2SF d); try discriminate. reflexivity.
Qed.

Lemma add_nan_r x y : is_nan y = true -> is_nan (x + y) = true.
Proof.
  rewrite !is_nan_SF, add_spec.
  destruct (Prim2SF y); try discriminate. intros _.
  destruct (Prim2SF x) as [[]|[]| |[] m e]; reflexivity.
Qed.

Lemma add_nan_l x y : is_nan x = true -> is_nan (x + y) = true.
Proof.
  rewrite !is_nan_SF, add_spec.
  destruct (Prim2SF x); try discriminate. reflexivity.
Qed.

Lemma sqrt_nan x : is_nan x = true -> is_nan (PrimFloat.sqrt x) = true.
Proof.
  rewrite !is_nan_SF, sqrt_spec.
  destruct (Prim2SF x); try discriminate. reflexivity.
Qed.

End NaNArith.

Section LengthMismatch.
Context (H : host).

(** Once the running sum is NaN it stays NaN. *)
Lemma l2_loop_nan bs a :
  forall i s s',
    is_nan s = true -> l2_loop H a i (JArr bs) s = Ok s' -> is_nan s' = true.
Proof.
  induction a as [|ai a IH]; intros i s s' Hs;
    cbn [l2_loop index_get mbind result_bind].
  - intros [= <-]. exact Hs.
  - destruct (js_to_number H _) as [x|e]; cbn [mbind result_bind]; [|discriminate].
    apply IH, add_nan_l, Hs.
Qed.

(** A query longer than the stored array reads [undefined] past its end. *)
Lemma l2_loop_short bs a :
  forall i s s',
    i <= length bs -> length bs < i + length a ->
    l2_loop H a i (JArr bs) s = Ok s' -> is_nan s' = true.
Proof.
  induction a as [|ai a IH]; intros i s s' Hi Hlen;
    cbn [l2_loop index_get mbind result_bind].
  - cbn in Hlen. lia.
  - destruct (Nat.le_gt_cases (length bs) i) as [Hout|Hin].
    + rewrite (nth_overflow bs JUndefined Hout).
      cbn [js_to_number mbind result_bind].
      apply l2_loop_nan, add_nan_r, mul_nan, sub_nan_r. reflexivity.
    + destruct (js_to_number H _) as [x|e]; cbn [mbind result_bind];
        [|discriminate].
      apply IH; cbn [length] in Hlen; lia.
Qed.

(** The loop returns on an array whose entries can all be converted. *)
Lemma l2_loop_returns bs a :
  existsb unconvertible bs = false ->
  forall i s, exists s', l2_loop H a i (JArr bs) s = Ok s'.
Proof.
  intros Hbs i s. destruct (l2_loop H a i (JArr bs) s) as [s'|e] eqn:Hloop; [eauto|].
  exfalso.
  destruct (proj1 (l2_loop_throws H (JArr bs) a i s)) as [_ [[Hu|Hu]|Hex]];
    [eauto|discriminate|discriminate|].
  destruct Hex as (j & v & _ & Hv & Hconv). cbn in Hv. injection Hv as <-.
  destruct (nth_in_or_default j bs JUndefined) as [Hin|Hd].
  - assert (Hex : existsb unconvertible bs = true)
      by (apply existsb_exists; eauto).
    congruence.
  - rewrite Hd in Hconv. discriminate.
Qed.

(** Entries of the stored array past the length of the query are not read. *)
Lemma l2_loop_prefix bs extra a :
  forall i s,
    i + length a <= length bs ->
    l2_loop H a i (JArr (bs ++ extra)) s = l2_loop H a i (JArr bs) s.
Proof.
  induction a as [|ai a IH]; intros i s Hlen; cbn [l2_loop index_get mbind result_bind].
  - reflexivity.
  - cbn [length] in Hlen. rewrite app_nth1 by lia.
    destruct (js_to_number H _) as [x|e]; cbn [mbind result_bind]; [|reflexivity].
    apply IH. lia.
Qed.

End LengthMismatch.

(** X8.  [l2Distance] runs over the indices of the query only.  Against a
    stored array that is longer, the extra entries are ignored; against one
    that is shorter, the missing entries read as [undefined]: no distance
    other than NaN is returned, and NaN is returned when the entries the
    array has can be converted to numbers, whatever they are. *)
Theorem distance_length_mismatch (H : host) (a : list float) (bs : list jsval) :
  (forall extra,
      length a <= length bs ->
      l2Distance H a (JArr (bs ++ extra)) = l2Distance H a (JArr bs)) /\
  (length bs < length a ->
   (forall d, l2Distance H a (JArr bs) = Ok d -> is_nan d = true) /\
   (existsb unconvertible bs = false ->
    exists d, l2Distance H a (JArr bs) = Ok d /\ is_nan d = true)).
Proof.
  split.
  - intros extra Hlen. unfold l2Distance.
    rewrite l2_loop_prefix by (cbn; lia). reflexivity.
  - intros Hlen.
    assert (Hnan : forall d, l2Distance H a (JArr bs) = Ok d -> is_nan d = true).
    { intros d. unfold l2Distance.
      destruct (l2_loop H a 0 (JArr bs) 0) as [s|e] eqn:Hloop;
        cbn [mbind result_bind]; [|discriminate].
      intros [= <-]. apply sqrt_nan.
      apply (l2_loop_short H bs a 0 0%float s); [lia|cbn; lia|exact Hloop]. }
    split; [exact Hnan|]. intros Hbs.
    destruct (l2_loop_returns H bs a Hbs 0 0%float) as [s Hs].
    assert (Hd : l2Distance H a (JArr bs) = Ok (PrimFloat.sqrt s))
      by (unfold l2Distance; rewrite Hs; reflexivity).
    eexists. split; [exact Hd|]. apply Hnan, Hd.
Qed.

(** X8 at a concrete input: a 42-entry query against a stored pair. *)
Lemma distance_length_mismatch_witness :
  exists d,
    l2Distance demo_host (query 0) (JArr [JNum 0; JNum 0]) = Ok d /\
    is_nan d = true.
Proof.
  destruct (distance_length_mismatch demo_host (query 0) [JNum 0; JNum 0])
    as [_ Hshort].
  apply Hshort; [vm_compute; lia|reflexivity].
Defined.

(** ** The smoothing window and the frame loop *)

Lemma classifyKNN_label H ex feats r :
  classifyKNN H ex feats = Ok (Some r) ->
  exists l, label r = Some l /\ l ∈ ALL_LABELS.
Proof.
  intros Hr. apply classifyKNN_returns in Hr as (ns & Hns & _ & ->).
  apply all_neighbors_inv in Hns as [_ Hall].
  apply gate_label_canonical; [apply accumulate_NoDup|].
  intros l. rewrite accumulate_keys.
  rewrite (proj1 (proj2 (first_occurrences_spec _)) l).
  intros (n & -> & Hn)%list_elem_of_fmap.
  rewrite Forall_forall in Hall. apply Hall, topK_of_subset, Hn.
Qed.

Lemma push_window_skipn l q :
  length q <= SMOOTH_N ->
  push_window l q = skipn (length q + 1 - SMOOTH_N) (q ++ [l]).
Proof.
  intros Hlen. unfold push_window. rewrite length_app. cbn [length].
  destruct (Nat.ltb_spec SMOOTH_N (length q + 1)) as [Hfull|Hroom].
  - replace (length q + 1 - SMOOTH_N) with 1 by lia.
    destruct (q ++ [l])%list; reflexivity.
  - replace (length q + 1 - SMOOTH_N) with 0 by lia. reflexivity.
Qed.

Lemma push_window_ok l k q :
  k ∈ ALL_LABELS -> l = Some k ->
  length q <= SMOOTH_N ->
  Forall (fun e => exists l, e = Some l /\ l ∈ ALL_LABELS) q ->
  length (push_window l q) <= SMOOTH_N /\
  Forall (fun e => exists l, e = Some l /\ l ∈ ALL_LABELS) (push_window l q) /\
  List.last (push_window l q) None = l.
Proof.
  intros Hk Hl Hlen Hall.
  assert (Hall' : Forall (fun e => exists l, e = Some l /\ l ∈ ALL_LABELS) (q ++ [l])).
  { apply Forall_app. split; [exact Hall|]. repeat constructor. eauto. }
  unfold push_window. rewrite length_app. cbn [length].
  destruct (Nat.ltb_spec SMOOTH_N (length q + 1)) as [Hfull|Hroom].
  - destruct q as [|x q]; [cbn in Hfull; unfold SMOOTH_N in Hfull; lia|].
    cbn [app tail]. cbn [length] in Hlen, Hfull.
    split; [rewrite length_app; cbn [length]; lia|].
    split; [cbn [app] in Hall'; apply Forall_cons in Hall'; tauto|].
    apply last_last.
  - split; [rewrite length_app; cbn [length]; lia|].
    split; [exact Hall'|apply last_last].
Qed.

Lemma window_ok_fields st st' :
  smoothQueue st' = smoothQueue st -> lastLabel st' = lastLabel st ->
  window_ok st -> window_ok st'.
Proof. unfold window_ok. intros -> ->. auto. Qed.

Lemma window_ok_reset st :
  smoothQueue st = [] -> lastLabel st = None -> window_ok st.
Proof.
  unfold window_ok. intros -> ->. cbn. split; [unfold SMOOTH_N; lia|].
  split; [constructor|reflexivity].
Qed.

Section FrameFacts.
Context (H : host).

(** The ways [predict_tick] can end. *)
Lemma predict_tick_cases feats st :
  predict_tick H feats st = Returned tt st
  \/ (exists e, predict_tick H feats st = Uncaught e st)
  \/ (exists f r,
        feats = Some f /\ isPredicting st = true /\
        0 < totalExamples (examples st) /\
        classifyKNN H (examples st) f = Ok (Some r) /\
        predict_tick H feats st
        = Returned tt (set_smoothing (label r) (conf r)
                         (push_window (label r) (smoothQueue st)) st)).
Proof.
  unfold predict_tick. destruct feats as [f|]; [|auto].
  destruct (isPredicting st) eqn:Hp; cbn [andb]; [|auto].
  destruct (Nat.ltb_spec 0 (totalExamples (examples st))) as [Hpos|Hzero]; [|auto].
  destruct (classifyKNN H (examples st) f) as [[r|]|e] eqn:Hr; [|auto|eauto].
  right. right. exists f, r. auto.
Qed.

(** The variables the recording part of [draw] never assigns. *)
Lemma record_tick_frame c cAdd st :
  let st' := final_state (record_tick H c cAdd st) in
  hands st' = hands st /\ isPredicting st' = isPredicting st /\
  lastLabel st' = lastLabel st /\ lastConf st' = lastConf st /\
  smoothQueue st' = smoothQueue st /\ recordMode st' = recordMode st /\
  recordLabel st' = recordLabel st /\ importShown st' = importShown st.
Proof.
  cbn zeta. unfold record_tick.
  destruct (recordMode st) eqn:Hm; [|cbn; auto 10].
  destruct (recordLabel st) as [l|] eqn:Hrl; [|cbn; auto 10].
  destruct (negb (String.eqb l "") && _); [|cbn; auto 10].
  pose proof (addExample_frame H cAdd l true st) as Hframe. cbn zeta in Hframe.
  rewrite Hm, Hrl in Hframe.
  destruct (addExample H cAdd l true st) as [ok st1|e st1];
    cbn [final_state] in *; cbn; tauto.
Qed.

(** The recording part does nothing at all unless a label is being
    recorded and the recording interval has passed. *)
Lemma record_tick_idle c cAdd st :
  recordMode st = false \/ recordLabel st = None
  \/ (RECORD_EVERY_MS <=? millis c - lastRecordAt st)%float = false ->
  record_tick H c cAdd st = Returned tt st.
Proof.
  unfold record_tick. intros [->|[->|Hwait]]; [reflexivity|destruct (recordMode st); reflexivity|].
  destruct (recordMode st); [|reflexivity].
  destruct (recordLabel st) as [l|]; [|reflexivity].
  rewrite Hwait, andb_false_r. reflexivity.
Qed.

Lemma predict_tick_frame feats st :
  let st' := final_state (predict_tick H feats st) in
  hands st' = hands st /\ examples st' = examples st /\
  addHistory st' = addHistory st /\ isPredicting st' = isPredicting st /\
  statusMsg st' = statusMsg st /\ recordMode st' = recordMode st /\
  recordLabel st' = recordLabel st /\ lastRecordAt st' = lastRecordAt st /\
  lastAddAt st' = lastAddAt st /\ storage st' = storage st /\
  importShown st' = importShown st.
Proof.
  cbn zeta.
  destruct (predict_tick_cases feats st) as [->|[[e ->]|(f & r & _ & _ & _ & _ & ->)]];
    cbn; tauto.
Qed.

Lemma window_ok_predict feats st :
  window_ok st -> window_ok (final_state (predict_tick H feats st)).
Proof.
  intros Hst.
  destruct (predict_tick_cases feats st)
    as [->|[[e ->]|(f & r & _ & _ & _ & Hr & ->)]]; try exact Hst.
  destruct (classifyKNN_label H _ _ _ Hr) as (k & Hk & Hcan).
  destruct Hst as (Hlen & Hall & _).
  destruct (push_window_ok (label r) k (smoothQueue st) Hcan Hk Hlen Hall)
    as (Hlen' & Hall' & Hlast).
  unfold window_ok. cbn. auto.
Qed.

Lemma draw_split c cAdd st :
  (exists e, draw H c cAdd st = Uncaught e (final_state (record_tick H c cAdd st)))
  \/ draw H c cAdd st
     = predict_tick H (getHandFeatures H (hands st))
         (final_state (record_tick H c cAdd st)).
Proof.
  unfold draw. destruct (record_tick H c cAdd st) as [u st1|e st1]; cbn; eauto.
Qed.

Lemma window_ok_draw c cAdd st :
  window_ok st -> window_ok (final_state (draw H c cAdd st)).
Proof.
  intros Hst.
  destruct (record_tick_frame c cAdd st) as (_ & _ & Hl & _ & Hq & _).
  assert (Hst1 : window_ok (final_state (record_tick H c cAdd st)))
    by (apply (window_ok_fields st); assumption).
  destruct (draw_split c cAdd st) as [[e ->]| ->]; [exact Hst1|].
  apply window_ok_predict, Hst1.
Qed.

Lemma window_ok_import c f st :
  window_ok st -> window_ok (handleImport H c f st).
Proof.
  intros Hst. destruct f as [f|]; [|apply (window_ok_fields st); auto].
  destruct (import_payload_cases H c f (set_importShown false st))
    as [(e & He & _)|(p & st' & _ & _ & _ & Hok & _ & _ & _ & Hq & Hl & _)].
  - destruct (handleImport_failure H c f st e He) as [reason ->].
    apply (window_ok_fields st); auto.
  - unfold handleImport. rewrite Hok. apply window_ok_reset; assumption.
Qed.

(** The ways [loadDataset] can end. *)
Lemma loadDataset_cases raw st :
  loadDataset H raw st = (false, st)
  \/ exists s p,
       raw = Some s /\ s <> "" /\ JSON_parse H s = Ok p /\
       truthy (get_prop p "examples") = true /\
       loadDataset H raw st
       = (true,
          set_record false None
            (set_smoothing None 0 []
               (set_addHistory (array_or_empty (get_prop p "addHistory"))
                  (set_examples
                     (foldl (fun m l =>
                               <[l := array_or_empty
                                        (get_prop (get_prop p "examples") l)]> m)
                        (examples st) ALL_LABELS) st)))).
Proof.
  unfold loadDataset. destruct raw as [s|]; [|auto].
  destruct (String.eqb_spec s "") as [->|Hne]; [auto|].
  unfold load_payload.
  destruct (JSON_parse H s) as [p|e] eqn:Hp; cbn [mbind result_bind]; [|auto].
  destruct p; cbn [member mbind result_bind]; auto;
    match goal with |- context [truthy ?v] => destruct (truthy v) eqn:Ht end;
    cbn [negb]; auto;
    right; eexists s, _; (split; [reflexivity|]); (split; [exact Hne|]);
    (split; [exact Hp|]); (split; [exact Ht|]); reflexivity.
Qed.

Lemma window_ok_load raw st :
  window_ok st -> window_ok (loadDataset H raw st).2.
Proof.
  intros Hst.
  destruct (loadDataset_cases raw st) as [->|(s & p & _ & _ & _ & _ & ->)];
    [exact Hst|].
  apply window_ok_reset; reflexivity.
Qed.

End FrameFacts.

(** ** What the key handlers do to the state *)

Section KeyFacts.
Context (H : host) (toUpperCase : string -> string).

(** The ways [keyTyped] can end, as far as the state goes. *)
Lemma keyTyped_cases c key hd st :
  let o := keyTyped H toUpperCase c key hd st in
  (exists h, o = Returned h st)
  \/ (exists l, l ∈ ALL_LABELS /\ recordMode st = false /\
                o = and_return (quiet hd false) (addExample H c l false st))
  \/ o = and_return (quiet hd false) (undoLast H c st)
  \/ (exists h, o = Returned h (set_isPredicting (negb (isPredicting st)) st))
  \/ (exists h, o = Returned h (set_importShown true st)).
Proof.
  cbn zeta. unfold keyTyped.
  case_bool_decide as Hletter.
  { destruct (recordMode st) eqn:Hm; cbn [negb]; [eauto|].
    right. left. exists (toUpperCase key). auto using LABELS_canonical. }
  destruct (String.eqb _ "/").
  { destruct (recordMode st) eqn:Hm; cbn [negb]; [eauto|].
    right. left. exists NONE_LABEL. auto using NONE_canonical. }
  destruct (String.eqb _ "."); [auto|].
  destruct (String.eqb _ " "); [eauto 6|].
  destruct (String.eqb _ "1"); [eauto|].
  destruct (String.eqb _ "0"); eauto 6.
Qed.

(** The ways [keyPressed] can end; it never throws, and the branch that
    would record NONE is never taken, N being a letter. *)
Lemma keyPressed_cases key keyCode hd st :
  exists h st',
    keyPressed toUpperCase key keyCode hd st = Returned h st' /\
    (st' = st
     \/ st' = clearAll st
     \/ st' = set_record (negb (recordMode st))
                (if recordMode st then None else recordLabel st) st
     \/ exists k, k ∈ LABELS /\ recordMode st = true /\
                  toUpperCase key = k /\
                  st' = set_lastRecordAt 0 (set_record true (Some k) st)).
Proof.
  unfold keyPressed.
  destruct (keyCode =? BACKSPACE)%nat; [eauto 6|].
  destruct (String.eqb key "-" || String.eqb key "_").
  { cbn [recordMode set_record]. destruct (recordMode st); cbn [negb]; eauto 8. }
  destruct (recordMode st) eqn:Hm; [|eauto 6].
  case_bool_decide as Hletter.
  { eexists _, _. split; [reflexivity|]. do 3 right.
    exists (toUpperCase key). auto. }
  destruct (String.eqb_spec (toUpperCase key) "N") as [HN|_]; [|eauto 6].
  exfalso. apply Hletter. rewrite HN.
  apply (bool_decide_unpack _). vm_compute. exact I.
Qed.

(** The ways [keyReleased] can end. *)
Lemma keyReleased_cases key hd st :
  exists h st',
    keyReleased toUpperCase key hd st = Returned h st' /\
    (st' = st \/ st' = set_record (recordMode st) None st).
Proof.
  unfold keyReleased.
  destruct (recordMode st); [|eauto].
  destruct (_ || _); eauto.
Qed.

End KeyFacts.

(** X9.  The smoothing window never holds more than [SMOOTH_N] entries,
    every entry is a canonical label (never [null]), and [lastLabel] is its
    newest entry, or [null] when it is empty: every handler of the sketch
    keeps this, whether it returns or throws.  A frame that classifies
    appends its label and keeps the newest [SMOOTH_N] entries. *)
Theorem smoothing_window_invariant (H : host) (toUpperCase : string -> string)
  (c cAdd : clock) (st : state) :
  window_ok st ->
  window_ok (final_state (draw H c cAdd st)) /\
  (forall l silent, window_ok (final_state (addExample H c l silent st))) /\
  window_ok (final_state (undoLast H c st)) /\
  window_ok (clearAll st) /\
  (forall f, window_ok (handleImport H c f st)) /\
  (forall raw, window_ok (loadDataset H raw st).2) /\
  (forall key hd, window_ok (final_state (keyTyped H toUpperCase c key hd st))) /\
  (forall key keyCode hd,
      window_ok (final_state (keyPressed toUpperCase key keyCode hd st))) /\
  (forall key hd, window_ok (final_state (keyReleased toUpperCase key hd st))) /\
  (forall f r,
      isPredicting st = true -> 0 < totalExamples (examples st) ->
      classifyKNN H (examples st) f = Ok (Some r) ->
      let st' := final_state (predict_tick H (Some f) st) in
      smoothQueue st'
      = skipn (length (smoothQueue st) + 1 - SMOOTH_N)
          (smoothQueue st ++ [label r]) /\
      lastLabel st' = label r /\ lastConf st' = conf r) /\
  Forall gated_label (smoothQueue st) /\
  (smoothQueue st = [] <-> lastLabel st = None).
Proof.
  intros Hst.
  assert (Hadd : forall l silent, window_ok (final_state (addExample H c l silent st))).
  { intros l silent.
    destruct (addExample_frame H c l silent st) as (_ & _ & Hl & _ & Hq & _).
    apply (window_ok_fields st); assumption. }
  assert (Hundo : window_ok (final_state (undoLast H c st))).
  { destruct (undoLast_frame H c st) as (_ & _ & Hl & _ & Hq & _).
    apply (window_ok_fields st); assumption. }
  assert (Hclear : window_ok (clearAll st)) by (apply window_ok_reset; reflexivity).
  split; [apply window_ok_draw, Hst|].
  split; [exact Hadd|]. split; [exact Hundo|]. split; [exact Hclear|].
  split; [intros f; apply window_ok_import, Hst|].
  split; [intros raw; apply window_ok_load, Hst|].
  split.
  { intros key hd.
    destruct (keyTyped_cases H toUpperCase c key hd st)
      as [[h ->]|[(l & _ & _ & ->)|[->|[[h ->]|[h ->]]]]];
      try exact Hst; try (apply (window_ok_fields st); [reflexivity|reflexivity|exact Hst]).
    - specialize (Hadd l false).
      destruct (addExample H c l false st); exact Hadd.
    - destruct (undoLast H c st); exact Hundo. }
  split.
  { intros key keyCode hd.
    destruct (keyPressed_cases toUpperCase key keyCode hd st)
      as (h & st' & -> & [->|[->|[->|(k & _ & _ & _ & ->)]]]);
      try exact Hst; try exact Hclear;
      apply (window_ok_fields st); auto. }
  split.
  { intros key hd.
    destruct (keyReleased_cases toUpperCase key hd st) as (h & st' & -> & [->| ->]);
      [exact Hst|apply (window_ok_fields st); auto]. }
  destruct Hst as (Hlen & Hall & Hlast).
  split.
  { intros f r Hp Hpos Hr. cbn zeta. unfold predict_tick.
    rewrite Hp, Hr. cbn [andb].
    replace (0 <? totalExamples (examples st))%nat with true
      by (symmetry; apply Nat.ltb_lt, Hpos).
    cbn. split; [apply push_window_skipn, Hlen|auto]. }
  split.
  { eapply Forall_impl; [exact Hall|]. intros e (l & -> & Hl). exact Hl. }
  rewrite Hlast. split; [intros ->; reflexivity|].
  destruct (smoothQueue st) as [|x q] using rev_ind; [reflexivity|].
  rewrite last_last. intros ->.
  apply Forall_app in Hall as [_ Hx]. apply Forall_cons in Hx as [(l & Hl & _) _].
  discriminate.
Qed.

(** X9 at a concrete input: a frame that classifies an open hand against
    one example of A, so that the window gets its first entry. *)
Lemma smoothing_window_invariant_witness :
  window_ok (final_state (draw demo_host (at_time 0) (at_time 0) one_added)) /\
  smoothQueue (final_state (draw demo_host (at_time 0) (at_time 0) one_added))
  = [Some "A"] /\
  lastLabel (final_state (draw demo_host (at_time 0) (at_time 0) one_added))
  = Some "A".
Proof.
  split; [|split; vm_compute; reflexivity].
  apply (smoothing_window_invariant demo_host (fun s => s) (at_time 0) (at_time 0)
           one_added).
  apply window_ok_reset; vm_compute; reflexivity.
Defined.

(** X10.  What a frame leaves alone.  [draw] never assigns [hands],
    [isPredicting], [recordMode], [recordLabel]; it does not touch the
    store, the saved copy, the timers or the status unless a label is
    being recorded and [RECORD_EVERY_MS] has passed since the last
    recording; and it does not touch the smoothing state while prediction
    is off or no hand gives features: the last prediction stays on
    display. *)
Theorem draw_leaves_alone (H : host) (c cAdd : clock) (st : state) :
  let st' := final_state (draw H c cAdd st) in
  (hands st' = hands st /\ isPredicting st' = isPredicting st /\
   recordMode st' = recordMode st /\ recordLabel st' = recordLabel st /\
   importShown st' = importShown st) /\
  (recordMode st = false \/ recordLabel st = None
   \/ (RECORD_EVERY_MS <=? millis c - lastRecordAt st)%float = false ->
   examples st' = examples st /\ addHistory st' = addHistory st /\
   storage st' = storage st /\ statusMsg st' = statusMsg st /\
   lastAddAt st' = lastAddAt st /\ lastRecordAt st' = lastRecordAt st) /\
  (isPredicting st = false \/ getHandFeatures H (hands st) = None ->
   lastLabel st' = lastLabel st /\ lastConf st' = lastConf st /\
   smoothQueue st' = smoothQueue st /\
   getSmoothedLabel st' = getSmoothedLabel st).
Proof.
  cbn zeta.
  pose proof (record_tick_frame H c cAdd st) as Hrec. cbn zeta in Hrec.
  pose proof (predict_tick_frame H (getHandFeatures H (hands st))
                (final_state (record_tick H c cAdd st))) as Hpred.
  cbn zeta in Hpred.
  split; [|split].
  - destruct (draw_split H c cAdd st) as [[e ->]| ->]; cbn [final_state]; [tauto|].
    destruct Hpred as (-> & _ & _ & -> & _ & -> & -> & _ & _ & _ & ->).
    tauto.
  - intros Hidle. unfold draw. rewrite (record_tick_idle H c cAdd st Hidle).
    rewrite (record_tick_idle H c cAdd st Hidle) in Hpred. cbn [final_state] in Hpred.
    tauto.
  - intros Hoff.
    assert (Hsame : lastLabel (final_state (draw H c cAdd st)) = lastLabel st /\
                    lastConf (final_state (draw H c cAdd st)) = lastConf st /\
                    smoothQueue (final_state (draw H c cAdd st)) = smoothQueue st).
    { destruct (draw_split H c cAdd st) as [[e ->]| ->]; cbn [final_state]; [tauto|].
      unfold predict_tick.
      destruct Hrec as (_ & Hp' & Hl' & Hc' & Hq' & _).
      destruct Hoff as [Hp| ->]; [|cbn; tauto].
      rewrite Hp', Hp. cbn [andb].
      destruct (getHandFeatures H (hands st)); cbn; tauto. }
    destruct Hsame as (Hl & Hc & Hq). repeat (split; [assumption|]).
    unfold getSmoothedLabel. rewrite Hl, Hc, Hq. reflexivity.
Qed.

(** X10 at a concrete input: prediction switched off, a hand in view. *)
Lemma draw_leaves_alone_witness :
  smoothQueue
    (final_state
       (draw demo_host (at_time 0) (at_time 0)
          (set_isPredicting false (gotHands (Some [open_hand]) one_added))))
  = [].
Proof.
  refine (proj1 (proj2 (proj2 (proj2 (proj2
            (draw_leaves_alone demo_host (at_time 0) (at_time 0)
               (set_isPredicting false (gotHands (Some [open_hand]) one_added))))
            _)))).
  left. reflexivity.
Defined.

(** ** The label the smoothing reports *)

Lemma tally_keys q : map fst (tally q) = first_occurrences (map key_of q).
Proof.
  unfold tally, first_occurrences.
  assert (Hgen : forall counts,
            map fst (fold_left count_step q counts)
            = fold_left (fun acc l => if bool_decide (l ∈ acc) then acc
                                      else (acc ++ [l])%list)
                (map key_of q) (map fst counts)).
  { induction q as [|l q IH]; intros counts; [reflexivity|].
    cbn [fold_left map]. rewrite IH. unfold count_step.
    rewrite assoc_set_keys. reflexivity. }
  apply (Hgen []).
Qed.

Lemma tally_entry q k n : (k, n) ∈ tally q -> n = occurrences k q.
Proof.
  intros Hin. destruct (tally_spec q) as [Hnd Hcount].
  rewrite <- Hcount, (In_assoc_get k n _ Hnd Hin). reflexivity.
Qed.

(** Later entries only add keys after the ones already listed. *)
Lemma first_occurrences_extends (ls : list string) :
  forall acc,
    exists rest,
      fold_left (fun acc l => if bool_decide (l ∈ acc) then acc
                              else (acc ++ [l])%list) ls acc
      = (acc ++ rest)%list /\
      forall x, x ∈ rest -> x ∈ ls.
Proof.
  induction ls as [|l ls IH]; intros acc; cbn [fold_left].
  - exists []. rewrite app_nil_r. split; [reflexivity|].
    intros x Hx. apply elem_of_nil in Hx. contradiction.
  - case_bool_decide as Hin.
    + destruct (IH acc) as (rest & -> & Hrest). exists rest.
      split; [reflexivity|]. intros x Hx. apply list_elem_of_further, Hrest, Hx.
    + destruct (IH (acc ++ [l])%list) as (rest & -> & Hrest). exists (l :: rest).
      split; [rewrite <- app_assoc; reflexivity|].
      intros x [->|Hx]%elem_of_cons;
        [apply list_elem_of_here|apply list_elem_of_further, Hrest, Hx].
Qed.

(** The first entry with the largest count wins the scan of the table. *)
Lemma mode_of_first_max (pre post : list (string * nat)) k n :
  0 < n ->
  Forall (fun kv => kv.2 < n) pre -> Forall (fun kv => kv.2 <= n) post ->
  mode_of (pre ++ (k, n) :: post) = (Some k, n).
Proof.
  intros Hpos Hpre Hpost. unfold mode_of. rewrite fold_left_app. cbn [fold_left].
  assert (Hbelow : forall acc,
            acc.2 < n -> (fold_left mode_step pre acc).2 < n).
  { induction Hpre as [|kv pre Hkv _ IH]; intros acc Hacc; [exact Hacc|].
    cbn [fold_left]. apply IH. unfold mode_step.
    destruct (acc.2 <? kv.2)%nat; [exact Hkv|exact Hacc]. }
  specialize (Hbelow (None, 0) Hpos).
  unfold mode_step at 2.
  replace ((fold_left mode_step pre (None, 0)).2 <? (k, n).2)%nat with true
    by (symmetry; apply Nat.ltb_lt; exact Hbelow).
  cbn [fst snd]. clear Hbelow Hpre.
  induction Hpost as [|kv post Hkv _ IH]; [reflexivity|].
  cbn [fold_left]. unfold mode_step at 2. cbn [snd].
  replace (n <? kv.2)%nat with false by (symmetry; apply Nat.ltb_ge; exact Hkv).
  exact IH.
Qed.

(** X11.  The label [getSmoothedLabel] reports is the one counted most
    often in the window, and among labels counted equally often the one
    that appears first in the window: if everything before the first
    occurrence of [l] is counted strictly less often than [l], and nothing
    after it more often, then [l] is reported, with the last single-frame
    confidence. *)
Theorem smoothed_label_is_mode (st : state) (pre post : list (option string))
  (l : option string) :
  Forall gated_label (smoothQueue st) ->
  label_truthy (lastLabel st) = true ->
  smoothQueue st = (pre ++ l :: post)%list ->
  key_of l ∉ map key_of pre ->
  (forall x, x ∈ pre ->
     occurrences (key_of x) (smoothQueue st) < occurrences (key_of l) (smoothQueue st)) ->
  (forall x, x ∈ post ->
     occurrences (key_of x) (smoothQueue st) <= occurrences (key_of l) (smoothQueue st)) ->
  sm_label (getSmoothedLabel st) = Some (key_of l) /\
  sm_conf (getSmoothedLabel st) = lastConf st /\
  stable (getSmoothedLabel st)
  = (STABLE_MIN <=? occurrences (key_of l) (smoothQueue st))%nat
    && (MIN_CONF <=? lastConf st)%float.
Proof.
  intros _ Htruthy Hq Hfirst Hpre Hpost.
  set (q := smoothQueue st) in *. set (n := occurrences (key_of l) q) in *.
  assert (Hpos : 0 < n).
  { unfold n, occurrences. rewrite Hq, filter_app, length_app, filter_cons.
    rewrite decide_True by reflexivity. cbn [length]. lia. }
  (* the keys of the table, split at the key of [l] *)
  pose proof (tally_keys q) as Hkeys.
  unfold first_occurrences in Hkeys.
  rewrite Hq, map_app, fold_left_app in Hkeys. cbn [map fold_left] in Hkeys.
  fold (first_occurrences (map key_of pre)) in Hkeys.
  rewrite bool_decide_eq_false_2 in Hkeys
    by (rewrite (proj1 (proj2 (first_occurrences_spec _))); exact Hfirst).
  destruct (first_occurrences_extends (map key_of post)
              (first_occurrences (map key_of pre) ++ [key_of l])%list)
    as (rest & Hrest & Hin_rest).
  rewrite Hrest, <- app_assoc in Hkeys. cbn [app] in Hkeys. rewrite <- Hq in Hkeys.
  apply map_eq_app in Hkeys as (tpre & tmid & Htally & Htpre & Htmid).
  apply map_eq_cons in Htmid as ([k v] & tpost & -> & Hk & Htpost).
  cbn [fst] in Hk. subst k.
  assert (Hentry : forall kv, kv ∈ tally q -> kv.2 = occurrences kv.1 q).
  { intros [k' n'] Hin. apply tally_entry, Hin. }
  assert (Hv : v = n).
  { apply (Hentry (key_of l, v)). rewrite Htally.
    apply elem_of_app. right. apply list_elem_of_here. }
  subst v.
  assert (Hmode : mode_of (tally q) = (Some (key_of l), n)).
  { rewrite Htally. apply mode_of_first_max; [exact Hpos| |].
    - apply Forall_forall. intros kv Hkv.
      assert (Hkv' : kv ∈ tally q)
        by (rewrite Htally; apply elem_of_app; left; exact Hkv).
      rewrite (Hentry kv Hkv').
      assert (Hkey : kv.1 ∈ first_occurrences (map key_of pre)).
      { rewrite <- Htpre. apply list_elem_of_fmap. exists kv.
        split; [reflexivity|exact Hkv]. }
      apply (proj1 (proj1 (proj2 (first_occurrences_spec _)) _)) in Hkey.
      apply list_elem_of_fmap in Hkey as (x & -> & Hx). apply Hpre, Hx.
    - apply Forall_forall. intros kv Hkv.
      assert (Hkv' : kv ∈ tally q).
      { rewrite Htally. apply elem_of_app. right.
        apply list_elem_of_further, Hkv. }
      rewrite (Hentry kv Hkv').
      assert (Hkey : kv.1 ∈ rest).
      { rewrite <- Htpost. apply list_elem_of_fmap. exists kv.
        split; [reflexivity|exact Hkv]. }
      apply Hin_rest in Hkey.
      apply list_elem_of_fmap in Hkey as (x & -> & Hx). apply Hpost, Hx. }
  unfold getSmoothedLabel. rewrite Htruthy. cbn [negb].
  fold q. rewrite Hmode. cbn. auto.
Qed.

(** X11 at a concrete input: A and B both counted twice, A seen first. *)
Lemma smoothed_label_is_mode_witness :
  sm_label
    (getSmoothedLabel
       (set_smoothing (Some "A") 1 [Some "A"; Some "B"; Some "B"; Some "A"]
          initial_state))
  = Some "A".
Proof.
  refine (proj1 (smoothed_label_is_mode
                   (set_smoothing (Some "A") 1
                      [Some "A"; Some "B"; Some "B"; Some "A"] initial_state)
                   [] [Some "B"; Some "B"; Some "A"] (Some "A") _ _ _ _ _ _)).
  - repeat constructor; apply (bool_decide_unpack _); vm_compute; exact I.
  - reflexivity.
  - reflexivity.
  - apply not_elem_of_nil.
  - intros x Hx. apply elem_of_nil in Hx. contradiction.
  - intros x Hx. repeat (apply elem_of_cons in Hx as [->|Hx]); try (vm_compute; lia).
    apply elem_of_nil in Hx. contradiction.
Defined.

(** ** Frames and keys on a state the sketch built on its own *)

Section HealthyHandlers.
Context (H : host) (toUpperCase : string -> string).






Lemma record_ok_keyPressed key keyCode hd st :
  record_ok st -> record_ok (final_state (keyPressed toUpperCase key keyCode hd st)).
Proof.
  intros Hrec.
  destruct (keyPressed_cases toUpperCase key keyCode hd st)
    as (h & st' & -> & [->|[->|[->|(k & Hk & _ & _ & ->)]]]); cbn [final_state].
  - exact Hrec.
  - exact I.
  - unfold record_ok in *. cbn.
    destruct (recordMode st); [exact I|].
    destruct (recordLabel st); [destruct Hrec; discriminate|exact I].
  - unfold record_ok. cbn. auto.
Qed.






End HealthyHandlers.





(** ** Recording and the NONE class *)

Section RecordFacts.
Context (H : host) (toUpperCase : string -> string).

Lemma record_ok_fields st st' :
  recordMode st' = recordMode st -> recordLabel st' = recordLabel st ->
  record_ok st -> record_ok st'.
Proof. unfold record_ok. intros -> ->. auto. Qed.

Lemma record_ok_draw c cAdd st :
  record_ok st -> record_ok (final_state (draw H c cAdd st)).
Proof.
  intros Hrec.
  destruct (record_tick_frame H c cAdd st) as (_ & _ & _ & _ & _ & Hm & Hl & _).
  pose proof (predict_tick_frame H (getHandFeatures H (hands st))
                (final_state (record_tick H c cAdd st))) as Hpred.
  cbn zeta in Hpred. destruct Hpred as (_ & _ & _ & _ & _ & Hm' & Hl' & _).
  destruct (draw_split H c cAdd st) as [[e ->]| ->]; cbn [final_state];
    apply (record_ok_fields st); congruence.
Qed.

(** An add under a label other than [k] leaves the list of [k] alone. *)
Lemma addExample_other_label c l silent st k :
  l <> k ->
  examples (final_state (addExample H c l silent st)) !! k = examples st !! k.
Proof.
  intros Hne.
  destruct (addExample_cases H c l silent st)
    as [(feats & arr & st1 & -> & _ & _ & Hex & _)
       |(st1 & [->|(e & -> & _)] & Hex & _)]; cbn [final_state]; rewrite Hex;
    try reflexivity.
  apply lookup_insert_ne, Hne.
Qed.

End RecordFacts.

(** X14.  NONE is never recorded.  The label being recorded is always a
    letter and is set only in record mode: every key handler and [draw]
    keep this, since in record mode the key N selects the letter N (the
    branch of [keyPressed] that would select NONE is never reached).  So a
    frame never adds an example to NONE, and typing N adds none either. *)
Theorem none_is_never_recorded (H : host) (toUpperCase : string -> string)
  (c cAdd : clock) (st : state) :
  record_ok st ->
  (forall key keyCode hd,
      record_ok (final_state (keyPressed toUpperCase key keyCode hd st))) /\
  (forall key hd, record_ok (final_state (keyReleased toUpperCase key hd st))) /\
  (forall key hd, record_ok (final_state (keyTyped H toUpperCase c key hd st))) /\
  record_ok (final_state (draw H c cAdd st)) /\
  (forall key keyCode hd,
      recordLabel (final_state (keyPressed toUpperCase key keyCode hd st))
      <> Some NONE_LABEL) /\
  (forall key keyCode hd,
      toUpperCase key = "N" -> (keyCode =? BACKSPACE)%nat = false ->
      key <> "-" -> key <> "_" -> recordMode st = true ->
      recordLabel (final_state (keyPressed toUpperCase key keyCode hd st))
      = Some "N") /\
  examples (final_state (draw H c cAdd st)) !! NONE_LABEL
  = examples st !! NONE_LABEL /\
  (forall key hd,
      toUpperCase key = "N" ->
      examples (final_state (keyTyped H toUpperCase c key hd st)) !! NONE_LABEL
      = examples st !! NONE_LABEL).
Proof.
  intros Hrec.
  assert (Hpressed : forall key keyCode hd,
            record_ok (final_state (keyPressed toUpperCase key keyCode hd st)))
    by (intros; apply record_ok_keyPressed, Hrec).
  split; [exact Hpressed|]. split; [|split; [|split; [|split; [|split; [|split]]]]].
  - intros key hd.
    destruct (keyReleased_cases toUpperCase key hd st) as (h & st' & -> & [->| ->]);
      [exact Hrec|exact I].
  - intros key hd.
    destruct (keyTyped_cases H toUpperCase c key hd st)
      as [[h ->]|[(l & _ & _ & ->)|[->|[[h ->]|[h ->]]]]];
      try exact Hrec; try (apply (record_ok_fields st); [reflexivity|reflexivity|exact Hrec]).
    + destruct (addExample_frame H c l false st) as (_ & _ & _ & _ & _ & Hm & Hl & _).
      destruct (addExample H c l false st); apply (record_ok_fields st); assumption.
    + destruct (undoLast_frame H c st) as (_ & _ & _ & _ & _ & Hm & Hl & _).
      destruct (undoLast H c st); apply (record_ok_fields st); assumption.
  - apply record_ok_draw, Hrec.
  - intros key keyCode hd Hnone. specialize (Hpressed key keyCode hd).
    unfold record_ok in Hpressed. rewrite Hnone in Hpressed.
    apply NONE_not_letter, Hpressed.
  - intros key keyCode hd HN Hcode Hminus Hunder Hmode. unfold keyPressed.
    rewrite Hcode.
    replace (String.eqb key "-") with false by (symmetry; apply String.eqb_neq, Hminus).
    replace (String.eqb key "_") with false by (symmetry; apply String.eqb_neq, Hunder).
    cbn [orb]. rewrite Hmode, HN. reflexivity.
  - pose proof (predict_tick_frame H (getHandFeatures H (hands st))
                  (final_state (record_tick H c cAdd st))) as Hpred.
    cbn zeta in Hpred. destruct Hpred as (_ & Hex & _).
    assert (Htick : examples (final_state (record_tick H c cAdd st)) !! NONE_LABEL
                    = examples st !! NONE_LABEL).
    { unfold record_tick.
      destruct (recordMode st); [|reflexivity].
      destruct (recordLabel st) as [l|] eqn:Hl; [|reflexivity].
      destruct (negb (String.eqb l "") && _); [|reflexivity].
      assert (Hne : l <> NONE_LABEL).
      { intros ->. unfold record_ok in Hrec. rewrite Hl in Hrec.
        apply NONE_not_letter, Hrec. }
      pose proof (addExample_other_label H cAdd l true st NONE_LABEL Hne) as Hadd.
      destruct (addExample H cAdd l true st); cbn in *; exact Hadd. }
    destruct (draw_split H c cAdd st) as [[e ->]| ->]; cbn [final_state];
      [exact Htick|]. rewrite Hex. exact Htick.
  - intros key hd HN. unfold keyTyped. rewrite HN.
    rewrite bool_decide_eq_true_2 by (apply (bool_decide_unpack _); vm_compute; exact I).
    destruct (recordMode st); cbn [negb]; [reflexivity|].
    pose proof (addExample_other_label H c "N" false st NONE_LABEL) as Hadd.
    destruct (addExample H c "N" false st); cbn in *; apply Hadd; discriminate.
Qed.

(** X14 at a concrete input: the key N held in record mode. *)
Lemma none_is_never_recorded_witness :
  recordLabel
    (final_state
       (keyPressed (fun s => s) "N" 78 ∅ (set_record true None initial_state)))
  = Some "N".
Proof.
  refine (proj1 (proj2 (proj2 (proj2 (proj2 (proj2
            (none_is_never_recorded demo_host (fun s => s) (at_time 0) (at_time 0)
               (set_record true None initial_state) I))))))
            "N" 78 ∅ _ _ _ _ _);
    first [reflexivity | discriminate].
Defined.




(** ** The saved copy *)

Ltac state_simpl :=
  cbn [hands examples addHistory isPredicting lastLabel lastConf smoothQueue
       statusMsg recordMode recordLabel lastRecordAt lastAddAt storage importShown
       set_hands set_examples set_addHistory set_smoothing set_statusMsg
       set_record set_lastRecordAt set_lastAddAt set_storage set_importShown
       set_isPredicting saveDataset snap_examples snap_addHistory final_state].

Lemma Ok_inj {A : Type} (a b : A) : Ok a = Ok b -> a = b.
Proof. intros [= ->]. reflexivity. Qed.

Section SyncFacts.
Context (H : host).






End SyncFacts.



(** ** Clearing *)

Lemma sum_counts_zero ex (labels : list string) :
  (forall l, l ∈ labels -> label_count ex l = 0) ->
  foldr (fun l n => label_count ex l + n) 0 labels = 0.
Proof.
  induction labels as [|l labels IH]; intros Hzero; cbn [foldr]; [reflexivity|].
  rewrite Hzero by apply list_elem_of_here.
  apply IH. intros k Hk. apply Hzero, list_elem_of_further, Hk.
Qed.

Lemma clearAll_lookup st l :
  examples (clearAll st) !! l
  = if bool_decide (l ∈ ALL_LABELS) then Some [] else examples st !! l.
Proof.
  cbn [clearAll examples set_examples set_addHistory set_smoothing
       set_record set_storage set_statusMsg].
  apply foldl_insert_lookup.
Qed.

(** X17.  [clearAll] empties the list of every canonical label (and
    touches no other key), empties the add history and removes the saved
    copy.  Right after it there are no examples, so the classifier returns
    [null] for every query, a frame leaves the smoothing state alone, and
    [undoLast] has nothing to undo. *)
Theorem clear_empties_the_store (H : host) (st : state) :
  let st' := clearAll st in
  (forall l, l ∈ ALL_LABELS -> examples st' !! l = Some []) /\
  (forall l, l ∉ ALL_LABELS -> examples st' !! l = examples st !! l) /\
  addHistory st' = [] /\ storage st' = None /\
  totalExamples (examples st') = 0 /\
  (forall feats, classifyKNN H (examples st') feats = Ok None) /\
  (forall feats, predict_tick H feats st' = Returned tt st') /\
  (forall c, undoLast H c st'
             = Returned tt (set_statusMsg MsgNothingToUndo st')).
Proof.
  cbn zeta.
  assert (Hzero : foldr (fun l n => label_count (examples (clearAll st)) l + n) 0
                    ALL_LABELS = 0).
  { apply sum_counts_zero. intros l Hl. unfold label_count.
    rewrite clearAll_lookup, bool_decide_eq_true_2 by exact Hl. reflexivity. }
  split.
  { intros l Hl. rewrite clearAll_lookup, bool_decide_eq_true_2 by exact Hl.
    reflexivity. }
  split.
  { intros l Hl. rewrite clearAll_lookup, bool_decide_eq_false_2 by exact Hl.
    reflexivity. }
  split; [reflexivity|]. split; [reflexivity|].
  split; [rewrite totalExamples_foldr; exact Hzero|].
  split.
  { intros feats. unfold classifyKNN.
    rewrite all_neighbors_empty by exact Hzero. reflexivity. }
  split; [|reflexivity].
  intros feats. unfold predict_tick. destruct feats as [f|]; [|reflexivity].
  rewrite totalExamples_foldr, Hzero, andb_false_r. reflexivity.
Qed.

(** ** Import, export and reload *)

Lemma foldl_insert_idem (f : string -> list jsval) (labels : list string)
  (m : gmap string (list jsval)) :
  foldl (fun m l => <[l := f l]> m) (foldl (fun m l => <[l := f l]> m) m labels) labels
  = foldl (fun m l => <[l := f l]> m) m labels.
Proof.
  apply map_eq. intros k. rewrite !foldl_insert_lookup.
  case_bool_decide; reflexivity.
Qed.

Section ImportAgain.
Context (H : host).

(** Whether the [try] block of [handleImport] throws, and what, does not
    depend on the state. *)
Lemma import_payload_throw c f st st' e :
  import_payload H c f st = Throw e -> import_payload H c f st' = Throw e.
Proof.
  unfold import_payload.
  destruct (parseMaybeJSON H f) as [p|e']; cbn [mbind result_bind]; [|auto].
  destruct (negb (truthy p) || _); [auto|discriminate].
Qed.

Lemma import_payload_ok c f st p :
  parseMaybeJSON H f = Ok p -> truthy p = true ->
  truthy (get_prop p "examples") = true ->
  import_payload H c f st
  = Ok (set_statusMsg
          (MsgImported
             (totalExamples
                (foldl (fun m l =>
                          <[l := array_or_empty (get_prop (get_prop p "examples") l)]> m)
                   (examples st) ALL_LABELS)))
          (set_record false None
             (set_smoothing None 0 []
                (saveDataset c
                   (set_addHistory (array_or_empty (get_prop p "addHistory"))
                      (set_examples
                         (foldl (fun m l =>
                                   <[l := array_or_empty
                                            (get_prop (get_prop p "examples") l)]> m)
                            (examples st) ALL_LABELS) st)))))).
Proof.
  intros Hp Htp Hte. unfold import_payload. rewrite Hp. cbn [mbind result_bind].
  rewrite Htp, Hte. reflexivity.
Qed.

End ImportAgain.

(** X18.  Importing the same file again changes nothing: whether the
    import succeeds, fails or is cancelled, a second [handleImport] of the
    same file (read at the same time) leaves the state the first one
    produced. *)
Theorem import_is_idempotent (H : host) (c : clock) (f : option p5file)
  (st : state) :
  handleImport H c f (handleImport H c f st) = handleImport H c f st.
Proof.
  destruct f as [f|]; [|reflexivity].
  destruct (import_payload_cases H c f (set_importShown false st))
    as [(e & He & _)|(p & st' & Hp & Htp & Hte & _)].
  - unfold handleImport at 2 3. rewrite He.
    unfold handleImport.
    rewrite (import_payload_throw H c f _
               (set_importShown false
                  (set_statusMsg
                     (MsgImportFailed
                        (if String.eqb (exn_message e) "" then "invalid JSON"
                         else exn_message e))
                     (set_importShown false st))) e He).
    reflexivity.
  - unfold handleImport.
    rewrite !(import_payload_ok H c f _ p Hp Htp Hte).
    state_simpl.
    rewrite foldl_insert_idem. reflexivity.
Qed.

(** *** What was saved or exported comes back *)

Lemma examples_value_get (ex : gmap string (list jsval)) (l : string) :
  get_prop (examples_value ex) l
  = match ex !! l with
    | Some arr => JArr arr
    | None => JUndefined
    end.
Proof.
  unfold examples_value. cbn [get_prop].
  assert (Hnd : NoDup (map fst (map (fun kv : string * list jsval => (kv.1, JArr kv.2))
                                  (map_to_list ex)))).
  { rewrite map_map. cbn [fst]. apply NoDup_fst_map_to_list. }
  destruct (ex !! l) as [arr|] eqn:Hl.
  - rewrite (In_assoc_get l (JArr arr) _ Hnd); [reflexivity|].
    apply list_elem_of_fmap. exists (l, arr). split; [reflexivity|].
    apply elem_of_map_to_list, Hl.
  - destruct (assoc_get l _) as [v|] eqn:Hget; [|reflexivity].
    apply assoc_get_Some_In, list_elem_of_fmap in Hget as ([k arr] & [= -> _] & Hin).
    apply elem_of_map_to_list in Hin. cbn in Hin. congruence.
Qed.

Lemma restore_examples (ex ex0 : gmap string (list jsval)) :
  store_keys ex -> store_keys ex0 ->
  foldl (fun m l => <[l := array_or_empty (get_prop (examples_value ex) l)]> m)
    ex0 ALL_LABELS
  = ex.
Proof.
  intros Hex Hex0. apply map_eq. intros k. rewrite foldl_insert_lookup.
  case_bool_decide as Hk.
  - apply Hex in Hk as [arr Harr]. rewrite examples_value_get, Harr. reflexivity.
  - destruct (ex0 !! k) eqn:H0; [exfalso; apply Hk, Hex0; eauto|].
    destruct (ex !! k) eqn:H1; [exfalso; apply Hk, Hex; eauto|]. reflexivity.
Qed.

Lemma healthy_restored st st' :
  examples st' = examples st -> addHistory st' = addHistory st ->
  recordLabel st' = None -> healthy st -> healthy st'.
Proof.
  intros Hex Hh Hl (Hkeys & Htracked & Hdata & _).
  unfold healthy, history_tracked, record_ok in *. rewrite Hex, Hh, Hl. auto.
Qed.



Lemma loadDataset_ok (H : host) (raw : string) (p : jsval) (st : state) :
  raw <> "" -> JSON_parse H raw = Ok p ->
  truthy (get_prop p "examples") = true ->
  loadDataset H (Some raw) st
  = (true,
     set_record false None
       (set_smoothing None 0 []
          (set_addHistory (array_or_empty (get_prop p "addHistory"))
             (set_examples
                (foldl (fun m l =>
                          <[l := array_or_empty
                                   (get_prop (get_prop p "examples") l)]> m)
                   (examples st) ALL_LABELS) st)))).
Proof.
  intros Hraw Hp Ht.
  destruct (loadDataset_cases H (Some raw) st)
    as [Hfalse|(s & p' & Hs & _ & Hp' & _ & Heq)].
  - exfalso. unfold loadDataset in Hfalse. apply String.eqb_neq in Hraw.
    rewrite Hraw in Hfalse. unfold load_payload in Hfalse.
    rewrite Hp in Hfalse. cbn [mbind result_bind] in Hfalse.
    destruct p; cbn [member mbind result_bind] in Hfalse; try discriminate Ht;
      rewrite Ht in Hfalse; discriminate Hfalse.
  - injection Hs as <-. rewrite Heq.
    assert (Hpp : p' = p) by congruence. rewrite Hpp. reflexivity.
Qed.

(** X20.  Save then reload.  If the text [loadDataset] finds in
    [localStorage] parses to the payload a [saveDataset] built, it returns
    [true] and the examples and the add history are those that were saved;
    the smoothing and recording state is reset, nothing else is
    assigned.  If the saved state was one the sketch built on its own, so
    is the state after the reload. *)
Theorem save_then_load_restores (H : host) (c : clock) (raw : string)
  (st st0 : state) :
  store_keys (examples st) -> store_keys (examples st0) ->
  raw <> "" ->
  (exists p, storage (saveDataset c st) = Some p /\
             JSON_parse H raw = Ok (payload_value p)) ->
  exists st',
    loadDataset H (Some raw) st0 = (true, st') /\
    examples st' = examples st /\ addHistory st' = addHistory st /\
    smoothQueue st' = [] /\ lastLabel st' = None /\ lastConf st' = 0%float /\
    recordMode st' = false /\ recordLabel st' = None /\
    storage st' = storage st0 /\ statusMsg st' = statusMsg st0 /\
    isPredicting st' = isPredicting st0 /\ hands st' = hands st0 /\
    (healthy st -> healthy st').
Proof.
  intros Hkeys Hkeys0 Hraw (p & Hp & Hparse).
  cbn [saveDataset storage set_storage] in Hp. apply (inj Some) in Hp. subst p.
  rewrite (loadDataset_ok H raw _ st0 Hraw Hparse eq_refl).
  change (get_prop (payload_value _) "examples") with (examples_value (examples st)).
  change (get_prop (payload_value _) "addHistory") with (JArr (addHistory st)).
  rewrite (restore_examples _ _ Hkeys Hkeys0). cbn [array_or_empty].
  eexists. split; [reflexivity|]. state_simpl.
  do 11 (split; [reflexivity|]).
  apply healthy_restored; reflexivity.
Qed.

(** X20 at a concrete input: the store after one add of A, saved, and
    reloaded into the initial state by a host whose parser returns the
    saved payload. *)
Lemma save_then_load_restores_witness :
  exists st',
    loadDataset
      (host_parsing
         (payload_value
            {| version := 2; savedAt := ""; snap_examples := examples one_added;
               snap_addHistory := addHistory one_added;
               meta_feature := "xy_rot_norm"; meta_k := K |}))
      (Some "saved") initial_state
    = (true, st') /\
    examples st' = examples one_added /\ addHistory st' = [JStr "A"] /\
    totalExamples (examples st') = 1 /\ healthy st'.
Proof.
  destruct (save_then_load_restores
              (host_parsing
                 (payload_value
                    {| version := 2; savedAt := ""; snap_examples := examples one_added;
                       snap_addHistory := addHistory one_added;
                       meta_feature := "xy_rot_norm"; meta_k := K |}))
              (at_time 0) "saved" one_added initial_state)
    as (st' & Hload & Hex & Hh & _ & _ & _ & _ & _ & _ & _ & _ & _ & Hhealthy).
  - exact (proj1 healthy_one_added).
  - exact (proj1 healthy_initial).
  - discriminate.
  - eexists. split; reflexivity.
  - exists st'. split; [exact Hload|]. split; [exact Hex|].
    split; [rewrite Hh; vm_compute; reflexivity|].
    split; [rewrite Hex; vm_compute; reflexivity|].
    apply Hhealthy, healthy_one_added.
Defined.

(** X21.  [loadDataset] is all-or-nothing.  When it returns [false] no
    variable has changed; it does so when nothing is stored, when the
    stored text is empty or does not parse, and when the parsed value is
    [null] or has no (truthy) [examples].  When it returns [true] every
    canonical label has the array the payload gives it, or an empty list
    where the payload gives none, and the add history is the payload's, or
    empty. *)
Theorem load_is_all_or_nothing (H : host) (raw : option string) (st : state) :
  let ok := (loadDataset H raw st).1 in
  let st' := (loadDataset H raw st).2 in
  (ok = false -> st' = st) /\
  (ok = true ->
   exists s p,
     raw = Some s /\ s <> "" /\ JSON_parse H s = Ok p /\
     truthy (get_prop p "examples") = true /\
     (forall l, l ∈ ALL_LABELS ->
        examples st' !! l
        = Some (array_or_empty (get_prop (get_prop p "examples") l))) /\
     (forall l, l ∉ ALL_LABELS -> examples st' !! l = examples st !! l) /\
     addHistory st' = array_or_empty (get_prop p "addHistory") /\
     smoothQueue st' = [] /\ lastLabel st' = None /\ lastConf st' = 0%float /\
     recordMode st' = false /\ recordLabel st' = None /\
     storage st' = storage st /\ statusMsg st' = statusMsg st) /\
  (raw = None \/ raw = Some ""
   \/ (exists s e, raw = Some s /\ JSON_parse H s = Throw e)
   \/ (exists s p, raw = Some s /\ JSON_parse H s = Ok p /\
                   truthy (get_prop p "examples") = false) ->
   ok = false).
Proof.
  cbn zeta. split; [|split].
  - destruct (loadDataset_cases H raw st) as [->|(s & p & _ & _ & _ & _ & ->)];
      [reflexivity|discriminate].
  - destruct (loadDataset_cases H raw st) as [->|(s & p & Hraw & Hs & Hp & Ht & ->)];
      [discriminate|]. intros _. exists s, p.
    do 4 (split; [assumption|]). cbn [snd]. state_simpl.
    split.
    { intros l Hl. rewrite foldl_insert_lookup, bool_decide_eq_true_2 by exact Hl.
      reflexivity. }
    split.
    { intros l Hl. rewrite foldl_insert_lookup, bool_decide_eq_false_2 by exact Hl.
      reflexivity. }
    repeat split.
  - intros [->|[->|[(s & e & -> & He)|(s & p & -> & Hp & Ht)]]];
      try reflexivity; unfold loadDataset; destruct (String.eqb s ""); try reflexivity;
      unfold load_payload.
    + rewrite He. reflexivity.
    + rewrite Hp. cbn [mbind result_bind].
      destruct p; cbn [member mbind result_bind]; try reflexivity;
        rewrite Ht; reflexivity.
Qed.

(** X21 at a concrete input: a stored text the host's parser rejects. *)
Lemma load_is_all_or_nothing_witness :
  (loadDataset demo_host (Some "{oops") one_added).2 = one_added.
Proof.
  apply (proj1 (load_is_all_or_nothing demo_host (Some "{oops") one_added)).
  reflexivity.
Defined.



(** ** Features and the overlay *)

Lemma normalized_features_xy (H : host) (lm lm' : list (float * float * float)) :
  (forall i, (nth i lm (0, 0, 0)%float).1 = (nth i lm' (0, 0, 0)%float).1) ->
  normalized_features H lm = normalized_features H lm'.
Proof.
  intros Hxy. unfold normalized_features.
  rewrite (Hxy 0), (Hxy 9).
  apply flat_map_ext. intros i. rewrite (Hxy i). reflexivity.
Qed.

Lemma landmarks_xy (kps : list keypoint) (i : nat) :
  (nth i (getLandmarks21 kps) (0, 0, 0)%float).1
  = nth i (map (fun k => (kx k, ky k)) kps) (0, 0)%float.
Proof.
  rewrite <- (map_nth fst (getLandmarks21 kps) (0, 0, 0)%float i).
  unfold getLandmarks21. rewrite map_map. reflexivity.
Qed.

(** X23.  The features are taken from the x and y of the keypoints of the
    first hand only: two deliveries whose first hands agree on the x and y
    of their keypoints give the same result, whatever the z coordinates
    and the other hands are. *)
Theorem features_use_xy_of_first_hand (H : host) (kps kps' : list keypoint)
  (rest rest' : list hand) :
  map (fun k => (kx k, ky k)) kps = map (fun k => (kx k, ky k)) kps' ->
  getHandFeatures H ({| keypoints := Some kps |} :: rest)
  = getHandFeatures H ({| keypoints := Some kps' |} :: rest').
Proof.
  intros Hxy. unfold getHandFeatures. cbn [keypoints].
  assert (Hlen : length kps = length kps').
  { rewrite <- (length_map (fun k => (kx k, ky k)) kps), Hxy. apply length_map. }
  rewrite Hlen. destruct (negb (length kps' =? 21)%nat); [reflexivity|].
  f_equal. apply normalized_features_xy. intros i.
  rewrite !landmarks_xy, Hxy. reflexivity.
Qed.

(** X23 at a concrete input: the open hand with a depth on every keypoint
    and a second hand behind it. *)
Lemma features_use_xy_of_first_hand_witness :
  getHandFeatures demo_host
    [ {| keypoints :=
           Some (map (fun k => {| kx := kx k; ky := ky k; kz := Some 5%float |})
                   (default [] (keypoints open_hand))) |};
      open_hand ]
  = getHandFeatures demo_host [open_hand].
Proof.
  apply (features_use_xy_of_first_hand demo_host
           (map (fun k => {| kx := kx k; ky := ky k; kz := Some 5%float |})
              (default [] (keypoints open_hand)))
           (default [] (keypoints open_hand)) [open_hand] []).
  rewrite map_map. reflexivity.
Defined.

(** X24.  The overlay is drawn exactly when features are available:
    [drawHandKeypoints] draws nothing when [getHandFeatures] returns
    [null], and otherwise one point per keypoint of the first hand, 21 of
    them, at the mirrored x and the y of the keypoint. *)
Theorem overlay_iff_features (H : host) (hs : list hand) :
  (drawHandKeypoints hs = [] <-> getHandFeatures H hs = None) /\
  (forall feats,
      getHandFeatures H hs = Some feats ->
      exists hd rest kps,
        hs = hd :: rest /\ keypoints hd = Some kps /\ length kps = 21 /\
        drawHandKeypoints hs = map (fun k => ((640 - kx k)%float, ky k)) kps /\
        length (drawHandKeypoints hs) = 21 /\ length feats = 42).
Proof.
  unfold drawHandKeypoints, getHandFeatures.
  destruct hs as [|hd rest]; [split; [tauto|discriminate]|].
  destruct (keypoints hd) as [kps|] eqn:Hk; [|split; [tauto|discriminate]].
  destruct (Nat.eqb_spec (length kps) 21) as [Hlen|Hlen]; cbn [negb].
  - split.
    + split; [|discriminate]. intros Hnil.
      apply (f_equal (@length _)) in Hnil. rewrite length_map, Hlen in Hnil.
      discriminate.
    + intros feats [= <-]. exists hd, rest, kps.
      rewrite length_map, normalized_features_length. auto 10.
  - split; [tauto|discriminate].
Qed.

(** X24 at a concrete input: the open hand. *)
Lemma overlay_iff_features_witness :
  length (drawHandKeypoints [open_hand]) = 21.
Proof.
  destruct (proj2 (overlay_iff_features demo_host [open_hand])
              (normalized_features demo_host
                 (getLandmarks21 (default [] (keypoints open_hand)))) eq_refl)
    as (hd & rest & kps & _ & _ & _ & _ & Hlen & _).
  exact Hlen.
Defined.

(** ** What a failed import reports *)

(** X25.  The reason shown after a failed import is never empty.  It is
    "File data was empty or unreadable" when the file data is neither an
    object nor a string; "Missing 'examples' in JSON" when the data parse
    to a value without a truthy [examples] (so for every array);
    "Malformed data URL" for a text that starts with [data:] and has no
    comma; and otherwise the message of the exception the host threw, or
    "invalid JSON" when that message is empty.  Data that are an object
    already are never parsed. *)
Theorem import_failure_reasons (H : host) (c : clock) (f : p5file) (st : state) :
  let st' := handleImport H c (Some f) st in
  (forall r, statusMsg st' = MsgImportFailed r -> r <> "") /\
  (match data f with JArr _ | JObj _ | JStr _ => False | _ => True end ->
   statusMsg st' = MsgImportFailed "File data was empty or unreadable") /\
  (match data f with JArr _ | JObj _ => True | _ => False end ->
   parseMaybeJSON H f = Ok (data f)) /\
  (forall p,
      parseMaybeJSON H f = Ok p ->
      truthy p = false \/ truthy (get_prop p "examples") = false ->
      statusMsg st' = MsgImportFailed "Missing 'examples' in JSON") /\
  (forall raw,
      data f = JStr raw ->
      String.prefix "data:" (String_trim H raw) = true ->
      String.index 0 "," (String_trim H raw) = None ->
      statusMsg st' = MsgImportFailed "Malformed data URL") /\
  (forall e,
      parseMaybeJSON H f = Throw e ->
      statusMsg st'
      = MsgImportFailed (if String.eqb (exn_message e) "" then "invalid JSON"
                         else exn_message e)).
Proof.
  cbn zeta.
  assert (Hthrow : forall e,
            parseMaybeJSON H f = Throw e ->
            statusMsg (handleImport H c (Some f) st)
            = MsgImportFailed (if String.eqb (exn_message e) "" then "invalid JSON"
                               else exn_message e)).
  { intros e He. unfold handleImport, import_payload. rewrite He. reflexivity. }
  split; [|split; [|split; [|split; [|split]]]].
  - intros r. unfold handleImport.
    destruct (import_payload H c f (set_importShown false st)) as [st'|e] eqn:Himp.
    + unfold import_payload in Himp.
      destruct (parseMaybeJSON H f) as [p|e]; cbn [mbind result_bind] in Himp;
        [|discriminate].
      destruct (negb (truthy p) || _); [discriminate|].
      apply Ok_inj in Himp. subst st'. discriminate.
    + cbn [statusMsg set_statusMsg]. intros [= <-].
      destruct (String.eqb_spec (exn_message e) ""); [discriminate|assumption].
  - intros Hdata. rewrite (Hthrow (Error "File data was empty or unreadable"));
      [reflexivity|].
    unfold parseMaybeJSON. destruct (data f); try contradiction; reflexivity.
  - intros Hdata. unfold parseMaybeJSON.
    destruct (data f); try contradiction; reflexivity.
  - intros p Hp Hmiss. unfold handleImport, import_payload. rewrite Hp.
    cbn [mbind result_bind].
    replace (negb (truthy p) || negb (truthy (get_prop p "examples"))) with true.
    + reflexivity.
    + symmetry. destruct Hmiss as [-> | ->]; [reflexivity|apply orb_true_r].
  - intros raw Hraw Hprefix Hcomma.
    rewrite (Hthrow (Error "Malformed data URL")); [reflexivity|].
    unfold parseMaybeJSON. rewrite Hraw, Hprefix, Hcomma. reflexivity.
  - exact Hthrow.
Qed.

(** X25 at a concrete input: a file whose data is a number. *)
Lemma import_failure_reasons_witness :
  statusMsg (handleImport demo_host (at_time 0) (Some {| data := JNum 1 |})
               initial_state)
  = MsgImportFailed "File data was empty or unreadable".
Proof.
  apply (proj1 (proj2 (import_failure_reasons demo_host (at_time 0)
                         {| data := JNum 1 |} initial_state))).
  exact I.
Defined.

(** ** An add that is turned away *)



(** ** Runs *)




(** ** The label on display *)

Lemma mode_of_member (counts : list (string * nat)) :
  forall acc,
    fold_left mode_step counts acc = acc
    \/ exists k n, fold_left mode_step counts acc = (Some k, n) /\ (k, n) ∈ counts.
Proof.
  induction counts as [|[k n] counts IH]; intros acc; cbn [fold_left]; [auto|].
  destruct (IH (mode_step acc (k, n))) as [Hsame|(k' & n' & Heq & Hin)].
  - rewrite Hsame. unfold mode_step. cbn [fst snd].
    destruct (acc.2 <? n)%nat; [|auto].
    right. exists k, n. split; [reflexivity|apply list_elem_of_here].
  - right. exists k', n'. split; [exact Heq|apply list_elem_of_further, Hin].
Qed.

Lemma occurrences_pos k q : k ∈ map key_of q -> 0 < occurrences k q.
Proof.
  intros (l & -> & Hl)%list_elem_of_fmap. unfold occurrences.
  apply list_elem_of_In, in_split in Hl as (pre & post & ->).
  rewrite filter_app, length_app, filter_cons, decide_True by reflexivity.
  cbn [length]. lia.
Qed.

Lemma tally_key_in q k n : (k, n) ∈ tally q -> k ∈ map key_of q.
Proof.
  intros Hin. apply (proj1 (proj1 (proj2 (first_occurrences_spec _)) _)).
  rewrite <- tally_keys. apply list_elem_of_fmap. exists (k, n). auto.
Qed.

(** X28.  What is on display.  While the window is empty
    [getSmoothedLabel] reports no label, confidence 0 and not stable; as
    soon as it holds an entry the reported label is never [null]: it is a
    canonical label that occurs in the window, and no label occurs in the
    window more often. *)
Theorem displayed_label_is_canonical (st : state) :
  window_ok st ->
  (smoothQueue st = [] ->
   getSmoothedLabel st = {| sm_label := None; sm_conf := 0; stable := false |}) /\
  (smoothQueue st <> [] ->
   exists k,
     sm_label (getSmoothedLabel st) = Some k /\ k ∈ ALL_LABELS /\
     Some k ∈ smoothQueue st /\
     (forall k', occurrences k' (smoothQueue st) <= occurrences k (smoothQueue st)) /\
     sm_conf (getSmoothedLabel st) = lastConf st).
Proof.
  intros (_ & Hall & Hlast). split.
  - intros Hq. unfold getSmoothedLabel. rewrite Hlast, Hq. reflexivity.
  - intros Hne. set (q := smoothQueue st) in *.
    (* the last label is a canonical one, hence truthy *)
    assert (Htruthy : label_truthy (lastLabel st) = true).
    { rewrite Hlast. destruct (exists_last Hne) as (q' & e & Hq). rewrite Hq, last_last.
      rewrite Hq in Hall. apply Forall_app in Hall as [_ He].
      apply Forall_cons in He as [(l & -> & Hl) _]. cbn.
      apply negb_true_iff, String.eqb_neq. intros ->. revert Hl.
      apply (bool_decide_unpack _). vm_compute. exact I. }
    (* the table is not empty and its counts are positive *)
    assert (Hmode : (mode_of (tally q)).2 >= 1).
    { apply (mode_count_threshold 1 q); [lia|].
      destruct q as [|e q']; [contradiction|]. exists (key_of e).
      apply occurrences_pos. apply list_elem_of_here. }
    destruct (mode_of_member (tally q) (None, 0)) as [Hsame|(k & n & Hmk & Hin)].
    { unfold mode_of in Hmode. rewrite Hsame in Hmode. cbn in Hmode. lia. }
    fold (mode_of (tally q)) in Hmk.
    pose proof (tally_entry q k n Hin) as Hn.
    pose proof (tally_key_in q k n Hin) as Hk.
    apply list_elem_of_fmap in Hk as (e & Hke & He).
    assert (Hcanon : e = Some k /\ k ∈ ALL_LABELS).
    { rewrite Forall_forall in Hall. destruct (Hall e He) as (l & -> & Hl).
      cbn in Hke. subst l. auto. }
    destruct Hcanon as [-> Hcanon].
    exists k. unfold getSmoothedLabel. rewrite Htruthy. cbn [negb].
    fold q. rewrite Hmk. cbn [sm_label sm_conf].
    split; [reflexivity|]. split; [exact Hcanon|]. split; [exact He|].
    split; [|reflexivity].
    intros k'. destruct (occurrences k' q) as [|m] eqn:Hk'; [lia|].
    rewrite <- Hk', <- Hn.
    change n with ((Some k, n).2). rewrite <- Hmk.
    apply (mode_count_threshold (occurrences k' q) q); [lia|eauto].
Qed.

(** X28 at a concrete input: a window of one NONE. *)
Lemma displayed_label_is_canonical_witness :
  exists k,
    sm_label (getSmoothedLabel
                (set_smoothing (Some "NONE") 0.5 [Some "NONE"] initial_state))
    = Some k /\ k ∈ ALL_LABELS.
Proof.
  destruct (proj2 (displayed_label_is_canonical
                     (set_smoothing (Some "NONE") 0.5 [Some "NONE"] initial_state)
                     ltac:(split; [vm_compute; lia|];
                           split; [repeat constructor; exists "NONE";
                                   split; [reflexivity|apply NONE_canonical]
                                  |reflexivity])))
    as (k & Hk & Hcan & _); [discriminate|].
  exists k. auto.
Defined.
